(** * Include-directive parser: a shallow embedding and its properties

    The development follows [src/utils/includeDirectiveParser.ts].  A
    JavaScript string is a sequence of UTF-16 code units, a regular
    expression literal is a term of a small regex syntax run by a
    backtracking matcher, and the Node [path] functions the parser calls are
    transcribed from the POSIX half of Node's [lib/path.js].

    Layout: definitions first (strings, regular expressions, paths, the
    scanner, the resolver), then the lemmas and the theorems. *)

From Stdlib Require Import List NArith ZArith Bool Arith Lia String Ascii Sorted.
Import ListNotations.

Set Implicit Arguments.

(* ================================================================== *)
(** ** JavaScript strings *)
(* ================================================================== *)

Module JS.

(** A code unit of a JavaScript string and the string itself. *)
Definition char16 := N.
Definition jsstring := list char16.

(** A literal written in ASCII. *)
Definition lit (s : string) : jsstring :=
  map N_of_ascii (list_ascii_of_string s).

Definition ceq (a b : char16) : bool := N.eqb a b.

Fixpoint str_eqb (a b : jsstring) : bool :=
  match a, b with
  | [], [] => true
  | x :: a', y :: b' => ceq x y && str_eqb a' b'
  | _, _ => false
  end.

(** ECMAScript [LineTerminator]: LF, CR, LS, PS. *)
Definition is_line_terminator (c : char16) : bool :=
  (ceq c 10 || ceq c 13 || ceq c 8232 || ceq c 8233)%N.

(** ECMAScript [WhiteSpace] together with [LineTerminator]: the set that
    both the regex class [\s] and [String.prototype.trim] use.
    TAB, VT, FF, SP, NBSP, U+1680, U+2000..U+200A, U+202F, U+205F, U+3000,
    U+FEFF, and the four line terminators. *)
Definition is_white (c : char16) : bool :=
  (ceq c 9 || ceq c 11 || ceq c 12 || ceq c 32 || ceq c 160 || ceq c 5760
   || (N.leb 8192 c && N.leb c 8202)
   || ceq c 8239 || ceq c 8287 || ceq c 12288 || ceq c 65279
   || is_line_terminator c)%N.

Fixpoint dropWhile (p : char16 -> bool) (s : jsstring) : jsstring :=
  match s with
  | [] => []
  | c :: s' => if p c then dropWhile p s' else s
  end.

(** [String.prototype.trimStart], [trimEnd] and [trim]. *)
Definition trimStart (s : jsstring) : jsstring := dropWhile is_white s.
Definition trimEnd (s : jsstring) : jsstring := rev (dropWhile is_white (rev s)).
Definition trim (s : jsstring) : jsstring := trimEnd (trimStart s).

(** [s.startsWith(p)]. *)
Fixpoint startsWith (s p : jsstring) {struct p} : bool :=
  match p, s with
  | [], _ => true
  | _ :: _, [] => false
  | y :: p', x :: s' => ceq x y && startsWith s' p'
  end.

(** [s.slice(n)] and [s.slice(0, n)] for a non-negative [n]. *)
Definition slice_from (s : jsstring) (n : nat) : jsstring := skipn n s.
Definition slice_to (s : jsstring) (n : nat) : jsstring := firstn n s.

(** [s.split(sep)] for a one-unit separator: always at least one piece. *)
Fixpoint split_on (sep : char16) (s : jsstring) : list jsstring :=
  match s with
  | [] => [[]]
  | c :: s' =>
      if ceq c sep then [] :: split_on sep s'
      else match split_on sep s' with
           | [] => [[c]]
           | piece :: pieces => (c :: piece) :: pieces
           end
  end.

(** [s.lastIndexOf(c)], [None] standing for -1. *)
Fixpoint lastIndexOf (c : char16) (s : jsstring) : option nat :=
  match s with
  | [] => None
  | x :: s' =>
      match lastIndexOf c s' with
      | Some i => Some (S i)
      | None => if ceq x c then Some 0 else None
      end
  end.

(** JavaScript truthiness of a string: the empty string is falsy. *)
Definition truthy (s : jsstring) : bool :=
  match s with [] => false | _ :: _ => true end.

End JS.
Import JS.

(* ================================================================== *)
(** ** Regular expressions *)
(* ================================================================== *)

Module Regex.

(** The fragment of ECMAScript patterns the parser's two literals use:
    assertions [^] and [$] (no [m] flag), a literal code unit, a greedy
    [*] or [+] over a character class, concatenation, and the capture
    group number 1. *)
Inductive regex : Type :=
| Bol : regex
| Eol : regex
| Chr : char16 -> regex
| Star : (char16 -> bool) -> regex
| Plus : (char16 -> bool) -> regex
| Seq : regex -> regex -> regex
| Group : regex -> regex.

(** A matcher state: the input already consumed, the input left, and the
    text of capture group 1 when it has been closed. *)
Record mstate : Type := MState {
  before : jsstring;
  after : jsstring;
  capture : option jsstring
}.

Definition cont := mstate -> option mstate.

(** Greedy iteration of a class: consume one more unit first, and fall
    back to the continuation at the current position when that fails. *)
Fixpoint star_loop (cls : char16 -> bool) (pre suf : jsstring)
    (cap : option jsstring) (k : cont) : option mstate :=
  match suf with
  | c :: suf' =>
      if cls c then
        match star_loop cls (pre ++ [c]) suf' cap k with
        | Some r => Some r
        | None => k (MState pre suf cap)
        end
      else k (MState pre suf cap)
  | [] => k (MState pre suf cap)
  end.

(** The backtracking matcher, in continuation-passing style. *)
Fixpoint run (r : regex) (st : mstate) (k : cont) : option mstate :=
  match r with
  | Bol => match before st with [] => k st | _ :: _ => None end
  | Eol => match after st with [] => k st | _ :: _ => None end
  | Chr c =>
      match after st with
      | x :: suf' =>
          if ceq x c then k (MState (before st ++ [x]) suf' (capture st))
          else None
      | [] => None
      end
  | Star cls => star_loop cls (before st) (after st) (capture st) k
  | Plus cls =>
      match after st with
      | x :: suf' =>
          if cls x then star_loop cls (before st ++ [x]) suf' (capture st) k
          else None
      | [] => None
      end
  | Seq r1 r2 => run r1 st (fun st' => run r2 st' k)
  | Group r1 =>
      run r1 st (fun st' =>
        k (MState (before st') (after st')
                  (Some (skipn (List.length (before st)) (before st')))))
  end.

(** A match at one start position. *)
Definition match_at (r : regex) (pre suf : jsstring) : option mstate :=
  run r (MState pre suf None) Some.

(** [RegExpBuiltinExec] from a start index: the first position, left to
    right, where the pattern matches. *)
Fixpoint search (r : regex) (pre suf : jsstring) : option mstate :=
  match match_at r pre suf with
  | Some st => Some st
  | None =>
      match suf with
      | [] => None
      | c :: suf' => search r (pre ++ [c]) suf'
      end
  end.

(** A [RegExp] object: its pattern, the [g] and [y] flags, and the mutable
    [lastIndex] property. *)
Record RegExp : Type := MkRegExp {
  source : regex;
  global : bool;
  sticky : bool;
  lastIndex : nat
}.

(** [RegExpBuiltinExec(R, S)]: the match, if any, and the object after the
    call.  Without [g] and [y] the search starts at 0 whatever [lastIndex]
    holds, and [lastIndex] is not written. *)
Definition builtin_exec (R : RegExp) (s : jsstring) : option mstate * RegExp :=
  if global R || sticky R then
    let i := lastIndex R in
    if List.length s <? i then
      (None, MkRegExp (source R) (global R) (sticky R) 0)
    else
      let found :=
        if sticky R then match_at (source R) (firstn i s) (skipn i s)
        else search (source R) (firstn i s) (skipn i s) in
      match found with
      | Some st =>
          (Some st,
           MkRegExp (source R) (global R) (sticky R) (List.length (before st)))
      | None => (None, MkRegExp (source R) (global R) (sticky R) 0)
      end
  else (search (source R) [] s, R).

(** [R.test(s)] and [s.match(R)] on an object without the [g] flag, as pure
    functions of the pattern. *)
Definition exec (r : regex) (s : jsstring) : option mstate := search r [] s.
Definition test (r : regex) (s : jsstring) : bool :=
  match exec r s with Some _ => true | None => false end.

(** [match[1]]: the text of group 1; a group that did not take part reads
    as the empty string here (it cannot happen for the parser's pattern). *)
Definition group1 (m : mstate) : jsstring :=
  match capture m with Some c => c | None => [] end.

(** A literal word, unit by unit. *)
Fixpoint word (w : jsstring) (next : regex) : regex :=
  match w with
  | [] => next
  | c :: w' => Seq (Chr c) (word w' next)
  end.

(** The class [\s] and the class [.] (any unit but a line terminator). *)
Definition cls_s : char16 -> bool := is_white.
Definition cls_dot (c : char16) : bool := negb (is_line_terminator c).

End Regex.
Import Regex.

(* ================================================================== *)
(** ** Node's [path] module, POSIX flavour *)
(* ================================================================== *)

Module Path.

Definition CHAR_FORWARD_SLASH : char16 := 47%N.
Definition CHAR_DOT : char16 := 46%N.

Definition isPosixPathSeparator (c : char16) : bool := ceq c CHAR_FORWARD_SLASH.

(** The loop state of [normalizeString].  [seg] holds
    [path.slice(lastSlash + 1, i)], the units read since the last
    separator, so that [lastSlash === i - 1] reads [seg = []]. *)
Record nstate : Type := NState {
  res : jsstring;
  lastSegmentLength : nat;
  seg : jsstring;
  dots : Z
}.

Definition nstate_init : nstate := NState [] 0 [] 0.

(** Whether [res] ends with two dots, as the two [charCodeAt] tests read it. *)
Definition ends_with_dotdot (r : jsstring) : bool :=
  match rev r with
  | a :: b :: _ => ceq a CHAR_DOT && ceq b CHAR_DOT
  | _ => false
  end.

(** The tail of the [dots === 2] branch once no segment was removed. *)
Definition above_root (allowAboveRoot : bool) (st : nstate) : nstate :=
  if allowAboveRoot then
    NState (match res st with
            | [] => [CHAR_DOT; CHAR_DOT]
            | _ :: _ => res st ++ [CHAR_FORWARD_SLASH; CHAR_DOT; CHAR_DOT]
            end) 2 [] 0
  else NState (res st) (lastSegmentLength st) [] 0.

(** One iteration of the loop body on the code unit [code]. *)
Definition nstep (allowAboveRoot : bool) (st : nstate) (code : char16) : nstate :=
  if isPosixPathSeparator code then
    if (match seg st with [] => true | _ :: _ => false end) || (dots st =? 1)%Z then
      NState (res st) (lastSegmentLength st) [] 0
    else if (dots st =? 2)%Z then
      if (List.length (res st) <? 2)
         || negb (lastSegmentLength st =? 2)
         || negb (ends_with_dotdot (res st))
      then
        if 2 <? List.length (res st) then
          match lastIndexOf CHAR_FORWARD_SLASH (res st) with
          | None => NState [] 0 [] 0
          | Some lastSlashIndex =>
              let r := slice_to (res st) lastSlashIndex in
              NState r
                (match lastIndexOf CHAR_FORWARD_SLASH r with
                 | Some j => List.length r - 1 - j
                 | None => List.length r
                 end) [] 0
          end
        else if negb (List.length (res st) =? 0) then NState [] 0 [] 0
        else above_root allowAboveRoot st
      else above_root allowAboveRoot st
    else
      NState (match res st with
              | [] => seg st
              | _ :: _ => res st ++ CHAR_FORWARD_SLASH :: seg st
              end) (List.length (seg st)) [] 0
  else if ceq code CHAR_DOT && negb (dots st =? -1)%Z then
    NState (res st) (lastSegmentLength st) (seg st ++ [code]) (dots st + 1)
  else
    NState (res st) (lastSegmentLength st) (seg st ++ [code]) (-1).

(** [normalizeString(path, allowAboveRoot, '/', isPosixPathSeparator)]: the
    loop runs over every unit and once more past the end, unless the last
    unit read was a separator. *)
Definition normalizeString (path : jsstring) (allowAboveRoot : bool) : jsstring :=
  let st := fold_left (nstep allowAboveRoot) path nstate_init in
  let code := last path 0%N in
  res (if isPosixPathSeparator code then st
       else nstep allowAboveRoot st CHAR_FORWARD_SLASH).

(** [path.isAbsolute]. *)
Definition isAbsolute (path : jsstring) : bool :=
  match path with
  | c :: _ => ceq c CHAR_FORWARD_SLASH
  | [] => false
  end.

(** [path.normalize]. *)
Definition normalize (path : jsstring) : jsstring :=
  match path with
  | [] => [CHAR_DOT]
  | _ :: _ =>
      let isAbs := isAbsolute path in
      let trailingSeparator := ceq (last path 0%N) CHAR_FORWARD_SLASH in
      let p := normalizeString path (negb isAbs) in
      match p with
      | [] =>
          if isAbs then [CHAR_FORWARD_SLASH]
          else if trailingSeparator then [CHAR_DOT; CHAR_FORWARD_SLASH]
          else [CHAR_DOT]
      | _ :: _ =>
          let p' := if trailingSeparator then p ++ [CHAR_FORWARD_SLASH] else p in
          if isAbs then CHAR_FORWARD_SLASH :: p' else p'
      end
  end.

(** The accumulation loop of [path.join]: [None] is [joined === undefined]. *)
Fixpoint join_loop (args : list jsstring) (joined : option jsstring)
    : option jsstring :=
  match args with
  | [] => joined
  | arg :: args' =>
      match arg with
      | [] => join_loop args' joined
      | _ :: _ =>
          join_loop args'
            (Some (match joined with
                   | None => arg
                   | Some j => j ++ CHAR_FORWARD_SLASH :: arg
                   end))
      end
  end.

(** [path.join(...args)]. *)
Definition join (args : list jsstring) : jsstring :=
  match join_loop args None with
  | None => [CHAR_DOT]
  | Some joined => normalize joined
  end.

(** The loop of [path.resolve], from the last argument down to the working
    directory: the pieces are prepended until one is absolute. *)
Fixpoint resolve_loop (cwd : jsstring) (rev_args : list jsstring)
    (resolvedPath : jsstring) : jsstring * bool :=
  match rev_args with
  | [] =>
      match cwd with
      | [] => (resolvedPath, false)
      | _ :: _ => (cwd ++ CHAR_FORWARD_SLASH :: resolvedPath, isAbsolute cwd)
      end
  | p :: rest =>
      match p with
      | [] => resolve_loop cwd rest resolvedPath
      | _ :: _ =>
          let rp := p ++ CHAR_FORWARD_SLASH :: resolvedPath in
          if isAbsolute p then (rp, true) else resolve_loop cwd rest rp
      end
  end.

(** [path.resolve(...args)], with [process.cwd()] as [cwd]. *)
Definition resolve (cwd : jsstring) (args : list jsstring) : jsstring :=
  let '(resolvedPath, resolvedAbsolute) := resolve_loop cwd (rev args) [] in
  let p := normalizeString resolvedPath (negb resolvedAbsolute) in
  if resolvedAbsolute then CHAR_FORWARD_SLASH :: p
  else match p with [] => [CHAR_DOT] | _ :: _ => p end.

(** The backwards loop of [path.dirname], from index [i] down to 1:
    [Some end] when it breaks, [None] when it runs out ([end === -1]). *)
Fixpoint dirname_loop (path : jsstring) (i : nat) (matchedSlash : bool)
    : option nat :=
  match i with
  | 0 => None
  | S i' =>
      if ceq (nth i path 0%N) CHAR_FORWARD_SLASH then
        if negb matchedSlash then Some i
        else dirname_loop path i' matchedSlash
      else dirname_loop path i' false
  end.

(** [path.dirname]. *)
Definition dirname (path : jsstring) : jsstring :=
  match path with
  | [] => [CHAR_DOT]
  | _ :: _ =>
      let hasRoot := isAbsolute path in
      match dirname_loop path (List.length path - 1) true with
      | None => if hasRoot then [CHAR_FORWARD_SLASH] else [CHAR_DOT]
      | Some e =>
          if hasRoot && (e =? 1) then [CHAR_FORWARD_SLASH; CHAR_FORWARD_SLASH]
          else slice_to path e
      end
  end.

End Path.


(* ================================================================== *)
(** ** The scanner: [includeDirectiveParser.ts] *)
(* ================================================================== *)

(** [interface IncludeDirective]. *)
Module IncludeDirective.
Record t : Type := mk {
  originalLine : jsstring;
  lineNumber : nat;
  rawPath : jsstring;
  resolvedPath : jsstring
}.
End IncludeDirective.

(** [interface ParseError]. *)
Module ParseError.
Record t : Type := mk {
  lineNumber : nat;
  line : jsstring;
  message : jsstring
}.
End ParseError.

(** [interface ParseResult]. *)
Module ParseResult.
Record t : Type := mk {
  originalContent : jsstring;
  directives : list IncludeDirective.t;
  errors : list ParseError.t
}.
End ParseResult.

(** [/^\s*@include\s+(.+)$/] *)
Definition INCLUDE_DIRECTIVE_REGEX : regex :=
  Seq Bol (Seq (Star cls_s)
    (word (lit "@include")
      (Seq (Plus cls_s) (Seq (Group (Plus cls_dot)) Eol)))).

(** [/^\s*@include\s*$/] *)
Definition INCOMPLETE_INCLUDE_REGEX : regex :=
  Seq Bol (Seq (Star cls_s)
    (word (lit "@include") (Seq (Star cls_s) Eol))).

Definition EMPTY_PATH_MESSAGE : jsstring :=
  lit "Invalid @include directive: path cannot be empty".

Definition LF : char16 := 10%N.

Section Scanner.

(** The process environment: [os.homedir()] and [process.cwd()]. *)
Variable homeDir : jsstring.
Variable cwd : jsstring.

Definition normalizePath (inputPath basePath : jsstring) : jsstring :=
  let trimmedPath := trim inputPath in
  if startsWith trimmedPath (lit "~/") || str_eqb trimmedPath (lit "~") then
    if str_eqb trimmedPath (lit "~") then homeDir
    else Path.join [homeDir; slice_from trimmedPath 2]
  else if Path.isAbsolute trimmedPath then Path.normalize trimmedPath
  else Path.resolve cwd [basePath; trimmedPath].

Definition parseIncludeLine (line : jsstring) (lineNumber : nat)
    (basePath : jsstring) : option IncludeDirective.t :=
  match exec INCLUDE_DIRECTIVE_REGEX line with
  | None => None
  | Some m =>
      let rawPath := trim (group1 m) in
      if negb (truthy rawPath) then None
      else
        let resolvedPath := normalizePath rawPath basePath in
        Some (IncludeDirective.mk line lineNumber rawPath resolvedPath)
  end.

(** The [for] loop of [parseIncludeDirectives], from index [i] over the
    lines still to visit; [push] appends at the end. *)
Fixpoint scan_lines (basePath : jsstring) (lines : list jsstring) (i : nat)
    (directives : list IncludeDirective.t) (errors : list ParseError.t)
    : list IncludeDirective.t * list ParseError.t :=
  match lines with
  | [] => (directives, errors)
  | line :: rest =>
      let lineNumber := i + 1 in
      if test INCLUDE_DIRECTIVE_REGEX line then
        match parseIncludeLine line lineNumber basePath with
        | Some directive =>
            scan_lines basePath rest (S i) (directives ++ [directive]) errors
        | None =>
            scan_lines basePath rest (S i) directives
              (errors ++ [ParseError.mk lineNumber line EMPTY_PATH_MESSAGE])
        end
      else if test INCOMPLETE_INCLUDE_REGEX line then
        scan_lines basePath rest (S i) directives
          (errors ++ [ParseError.mk lineNumber line EMPTY_PATH_MESSAGE])
      else scan_lines basePath rest (S i) directives errors
  end.

Definition parseIncludeDirectives (content basePath : jsstring) : ParseResult.t :=
  let lines := split_on LF content in
  let '(directives, errors) := scan_lines basePath lines 0 [] [] in
  ParseResult.mk content directives errors.

Definition isIncludeDirective (line : jsstring) : bool :=
  test INCLUDE_DIRECTIVE_REGEX line.

Definition extractIncludePath (line : jsstring) : option jsstring :=
  match exec INCLUDE_DIRECTIVE_REGEX line with
  | None => None
  | Some m =>
      let rawPath := trim (group1 m) in
      if truthy rawPath then Some rawPath else None
  end.

End Scanner.

Definition DEFAULT_MAX_DEPTH : nat := 10.


(* ================================================================== *)
(** ** The scanner with its [RegExp] objects as mutable state *)
(* ================================================================== *)

(** The two module-level constants are objects with a writable [lastIndex];
    every [test] and [match] goes through [RegExpBuiltinExec] on them.  This
    second reading of the same functions threads the two objects through
    the calls, so that what a call leaves behind can be stated. *)
Module Effects.

Record regexps : Type := Regexps {
  include_directive_regex : RegExp;
  incomplete_include_regex : RegExp
}.

(** The two objects with the flags of their literals (none) and given
    values of [lastIndex]; the literals create them with 0. *)
Definition declared_regexps (n1 n2 : nat) : regexps :=
  Regexps (MkRegExp INCLUDE_DIRECTIVE_REGEX false false n1)
          (MkRegExp INCOMPLETE_INCLUDE_REGEX false false n2).

Definition module_regexps : regexps := declared_regexps 0 0.

Definition M (A : Type) : Type := regexps -> A * regexps.
Definition ret {A : Type} (a : A) : M A := fun s => (a, s).
Definition bind {A B : Type} (m : M A) (f : A -> M B) : M B :=
  fun s => let '(a, s') := m s in f a s'.

Notation "x <- m ;; k" := (bind m (fun x => k))
  (at level 61, m at next level, right associativity).

(** [INCLUDE_DIRECTIVE_REGEX.test(line)] and [line.match(INCLUDE_DIRECTIVE_REGEX)].
    [String.prototype.match] is [RegExpExec] for an object without the [g]
    flag, which is the only case modelled. *)
Definition exec_include (line : jsstring) : M (option mstate) :=
  fun s =>
    let '(m, R) := builtin_exec (include_directive_regex s) line in
    (m, Regexps R (incomplete_include_regex s)).

(** [INCOMPLETE_INCLUDE_REGEX.test(line)]. *)
Definition exec_incomplete (line : jsstring) : M (option mstate) :=
  fun s =>
    let '(m, R) := builtin_exec (incomplete_include_regex s) line in
    (m, Regexps (include_directive_regex s) R).

Definition is_match (m : option mstate) : bool :=
  match m with Some _ => true | None => false end.

Section Scanner.

Variable homeDir : jsstring.
Variable cwd : jsstring.

Definition parseIncludeLine (line : jsstring) (lineNumber : nat)
    (basePath : jsstring) : M (option IncludeDirective.t) :=
  m <- exec_include line ;;
  ret match m with
      | None => None
      | Some m =>
          let rawPath := trim (group1 m) in
          if negb (truthy rawPath) then None
          else
            Some (IncludeDirective.mk line lineNumber rawPath
                    (normalizePath homeDir cwd rawPath basePath))
      end.

Fixpoint scan_lines (basePath : jsstring) (lines : list jsstring) (i : nat)
    (directives : list IncludeDirective.t) (errors : list ParseError.t)
    : M (list IncludeDirective.t * list ParseError.t) :=
  match lines with
  | [] => ret (directives, errors)
  | line :: rest =>
      let lineNumber := i + 1 in
      t <- exec_include line ;;
      if is_match t then
        d <- parseIncludeLine line lineNumber basePath ;;
        match d with
        | Some directive =>
            scan_lines basePath rest (S i) (directives ++ [directive]) errors
        | None =>
            scan_lines basePath rest (S i) directives
              (errors ++ [ParseError.mk lineNumber line EMPTY_PATH_MESSAGE])
        end
      else
        t' <- exec_incomplete line ;;
        if is_match t' then
          scan_lines basePath rest (S i) directives
            (errors ++ [ParseError.mk lineNumber line EMPTY_PATH_MESSAGE])
        else scan_lines basePath rest (S i) directives errors
  end.

Definition parseIncludeDirectives (content basePath : jsstring)
    : M ParseResult.t :=
  r <- scan_lines basePath (split_on LF content) 0 [] [] ;;
  ret (ParseResult.mk content (fst r) (snd r)).

End Scanner.

End Effects.

(* ================================================================== *)
(** ** The inclusion resolver *)
(* ================================================================== *)

(** [interface ProcessError]. *)
Module ProcessError.
Inductive kind : Type :=
| file_not_found | circular_include | max_depth | read_error | parse_error.

Record t : Type := mk {
  filePath : jsstring;
  lineNumber : option nat;
  message : jsstring;
  type : kind
}.

Definition kind_eqb (a b : kind) : bool :=
  match a, b with
  | file_not_found, file_not_found
  | circular_include, circular_include
  | max_depth, max_depth
  | read_error, read_error
  | parse_error, parse_error => true
  | _, _ => false
  end.
End ProcessError.

(** [interface ProcessResult]. *)
Module ProcessResult.
Record t : Type := mk {
  content : jsstring;
  includedPaths : list jsstring;
  errors : list ProcessError.t
}.
End ProcessResult.

(** What the read capability answers: the text, or one of the two failure
    signals. *)
Inductive read_outcome : Type :=
| ReadOk : jsstring -> read_outcome
| ReadMissing : read_outcome
| ReadFailed : read_outcome.

(** [interface ProcessOptions]: the read capability, the paths used to
    detect circular includes, the depth limit and the current depth.  The
    source declares [includedPaths] as a [Set<string>]; only membership is
    ever asked of it, and it is kept here as the chain of ancestors, most
    recent first. *)
Module ProcessOptions.
Record t : Type := mk {
  readFile : jsstring -> read_outcome;
  includedPaths : list jsstring;
  maxDepth : nat;
  currentDepth : nat
}.

(** The options of a top-level call that supplies only the capability. *)
Definition default (readFile : jsstring -> read_outcome) : t :=
  mk readFile [] DEFAULT_MAX_DEPTH 0.
End ProcessOptions.

Module Resolver.

(** Membership of a path in the ancestor chain. *)
Definition in_chain (p : jsstring) (chain : list jsstring) : bool :=
  existsb (str_eqb p) chain.

(** The output lines: a directive line gives way to the text produced for
    its directive, every other line stays. *)
Fixpoint splice (lines : list jsstring) (i : nat)
    (parts : list (IncludeDirective.t * jsstring)) : list jsstring :=
  match lines with
  | [] => []
  | l :: ls =>
      match parts with
      | (d, text) :: ps =>
          if IncludeDirective.lineNumber d =? i + 1
          then text :: splice ls (S i) ps
          else l :: splice ls (S i) parts
      | [] => l :: splice ls (S i) []
      end
  end.

(** [lines.join("\n")]. *)
Fixpoint join_lines (lines : list jsstring) : jsstring :=
  match lines with
  | [] => []
  | [l] => l
  | l :: ls => l ++ LF :: join_lines ls
  end.

Section Resolve.

Variable homeDir : jsstring.
Variable cwd : jsstring.

(** What the specification leaves open: the text of a message, the file a
    scan error is attributed to, and what stands in the output for a
    directive that is not expanded. *)
Variable message_of : ProcessError.kind -> jsstring -> jsstring.
Variable parse_error_file : jsstring -> jsstring.
Variable unexpanded : IncludeDirective.t -> jsstring.

Variable readFile : jsstring -> read_outcome.

Definition directive_error (k : ProcessError.kind) (d : IncludeDirective.t)
    : ProcessError.t :=
  ProcessError.mk (IncludeDirective.resolvedPath d)
    (Some (IncludeDirective.lineNumber d))
    (message_of k (IncludeDirective.resolvedPath d)) k.

Definition scan_error (basePath : jsstring) (e : ParseError.t) : ProcessError.t :=
  ProcessError.mk (parse_error_file basePath) (Some (ParseError.lineNumber e))
    (ParseError.message e) ProcessError.parse_error.

(** What one directive contributes: the text spliced in, the paths
    included and the errors, in that order. *)
Definition part : Type := jsstring * list jsstring * list ProcessError.t.

Definition skipped (k : ProcessError.kind) (d : IncludeDirective.t) : part :=
  (unexpanded d, [], [directive_error k d]).

(** Modelled from the spec: the recursive resolver of section 4.2.  The
    source file declares its option, result and error types and the
    default depth, and no function that uses them.  [remaining] is
    [maxDepth - currentDepth], so [currentDepth >= maxDepth] reads
    [remaining = 0] and the recursive call at [currentDepth + 1] is the
    call at the predecessor; the recursion is structural in it, which is
    the reason the resolver always returns. *)
Fixpoint resolve_from (remaining : nat) (ancestors : list jsstring)
    (content basePath : jsstring) : ProcessResult.t :=
  let scan := parseIncludeDirectives homeDir cwd content basePath in
  let expand (d : IncludeDirective.t) : part :=
    match remaining with
    | 0 => skipped ProcessError.max_depth d
    | S remaining' =>
        let p := IncludeDirective.resolvedPath d in
        if in_chain p ancestors then skipped ProcessError.circular_include d
        else
          match readFile p with
          | ReadMissing => skipped ProcessError.file_not_found d
          | ReadFailed => skipped ProcessError.read_error d
          | ReadOk text =>
              let r := resolve_from remaining' (p :: ancestors) text
                         (Path.dirname p) in
              (ProcessResult.content r,
               p :: ProcessResult.includedPaths r,
               ProcessResult.errors r)
          end
    end in
  let parts := map expand (ParseResult.directives scan) in
  ProcessResult.mk
    (join_lines
       (splice (split_on LF content) 0
          (combine (ParseResult.directives scan)
                   (map (fun x => fst (fst x)) parts))))
    (List.concat (map (fun x => snd (fst x)) parts))
    (map (scan_error basePath) (ParseResult.errors scan)
       ++ List.concat (map (fun x => snd x) parts)).

End Resolve.

(** Modelled from the spec: the public [resolve(content, basePath, options)]
    of section 4.2, which the source file does not define either. *)
Definition resolve (homeDir cwd : jsstring)
    (message_of : ProcessError.kind -> jsstring -> jsstring)
    (parse_error_file : jsstring -> jsstring)
    (unexpanded : IncludeDirective.t -> jsstring)
    (content basePath : jsstring) (options : ProcessOptions.t)
    : ProcessResult.t :=
  resolve_from homeDir cwd message_of parse_error_file unexpanded
    (ProcessOptions.readFile options)
    (ProcessOptions.maxDepth options - ProcessOptions.currentDepth options)
    (ProcessOptions.includedPaths options) content basePath.

End Resolver.

Section InclusionGraph.

Variable homeDir : jsstring.
Variable cwd : jsstring.
Variable message_of : ProcessError.kind -> jsstring -> jsstring.
Variable parse_error_file : jsstring -> jsstring.
Variable unexpanded : IncludeDirective.t -> jsstring.
Variable readFile : jsstring -> read_outcome.

(** The step the resolver takes for one directive, with [remaining] and
    the ancestor chain of the call it belongs to. *)
Definition expand_directive (remaining : nat) (ancestors : list jsstring)
    (d : IncludeDirective.t) : Resolver.part :=
  match remaining with
  | 0 => Resolver.skipped message_of unexpanded ProcessError.max_depth d
  | S remaining' =>
      let p := IncludeDirective.resolvedPath d in
      if Resolver.in_chain p ancestors
      then Resolver.skipped message_of unexpanded ProcessError.circular_include d
      else
        match readFile p with
        | ReadMissing =>
            Resolver.skipped message_of unexpanded ProcessError.file_not_found d
        | ReadFailed =>
            Resolver.skipped message_of unexpanded ProcessError.read_error d
        | ReadOk text =>
            let r := Resolver.resolve_from homeDir cwd message_of
                       parse_error_file unexpanded readFile remaining'
                       (p :: ancestors) text (Path.dirname p) in
            (ProcessResult.content r,
             p :: ProcessResult.includedPaths r,
             ProcessResult.errors r)
        end
  end.

(** The paths a text includes directly, read against a base. *)
Definition included_by (content basePath : jsstring) : list jsstring :=
  map IncludeDirective.resolvedPath
    (ParseResult.directives (parseIncludeDirectives homeDir cwd content basePath)).

(** File [P] can be read and its text includes [Q]. *)
Definition includes (P Q : jsstring) : Prop :=
  exists text, readFile P = ReadOk text /\ In Q (included_by text (Path.dirname P)).

(** File [P] includes [Q] in one step or more. *)
Inductive reaches : jsstring -> jsstring -> Prop :=
| reaches_step : forall P Q, includes P Q -> reaches P Q
| reaches_more : forall P Q R, includes P Q -> reaches Q R -> reaches P R.

(** The text includes [Q], directly or through the files it includes. *)
Definition text_reaches (content basePath Q : jsstring) : Prop :=
  In Q (included_by content basePath)
  \/ exists P, In P (included_by content basePath) /\ reaches P Q.

End InclusionGraph.

(** An error of kind [circular_include]. *)
Definition is_circular (e : ProcessError.t) : bool :=
  ProcessError.kind_eqb (ProcessError.type e) ProcessError.circular_include.

(** An error of kind [circular_include] that names the file [F]. *)
Definition circular_at (F : jsstring) (e : ProcessError.t) : bool :=
  is_circular e && str_eqb (ProcessError.filePath e) F.

Definition jsstring_eq_dec : forall a b : jsstring, {a = b} + {a <> b} :=
  list_eq_dec N.eq_dec.

(** *** A concrete environment for the examples *)

Module Sample.

(** The environment of the test suite: a home directory, a working
    directory and the base path the tests resolve against. *)
Definition home : jsstring := lit "/home/u".
Definition workdir : jsstring := lit "/work".
Definition basePath : jsstring := lit "/project/docs".

(** A home directory as [HOME=/home//u] gives it. *)
Definition doubled_home : jsstring := lit "/home//u".

(** One choice for what the specification leaves open: the message names
    the path, a scan error is attributed to the base path, and a directive
    that is not expanded keeps its line. *)
Definition message_of (_ : ProcessError.kind) (p : jsstring) : jsstring :=
  lit "cannot include " ++ p.
Definition parse_error_file (basePath : jsstring) : jsstring := basePath.
Definition unexpanded (d : IncludeDirective.t) : jsstring :=
  IncludeDirective.originalLine d.

(** A text from its lines. *)
Definition text (lines : list jsstring) : jsstring := Resolver.join_lines lines.

(** A read capability over a finite table of files. *)
Fixpoint read_table (files : list (jsstring * jsstring)) (p : jsstring)
    : read_outcome :=
  match files with
  | [] => ReadMissing
  | (name, body) :: rest =>
      if str_eqb p name then ReadOk body else read_table rest p
  end.

(** A file that includes itself once. *)
Definition self_path : jsstring := lit "/d/f.md".
Definition self_text : jsstring :=
  text [lit "# F"; lit "@include ./f.md"; lit "end"].
Definition self_files := read_table [(self_path, self_text)].
Definition self_directive : IncludeDirective.t :=
  IncludeDirective.mk (lit "@include ./f.md") 2 (lit "./f.md") self_path.

(** A file that includes itself twice. *)
Definition twice_text : jsstring :=
  text [lit "@include ./f.md"; lit "@include /d/f.md"].
Definition twice_files := read_table [(self_path, twice_text)].

(** A file that includes a leaf and itself. *)
Definition mixed_text : jsstring :=
  text [lit "# F"; lit "@include sub/h.md"; lit "@include ./f.md"; lit "end"].
Definition mixed_files :=
  read_table [(self_path, mixed_text); (lit "/d/sub/h.md", lit "leaf")].
Definition mixed_leaf : IncludeDirective.t :=
  IncludeDirective.mk (lit "@include sub/h.md") 2 (lit "sub/h.md")
    (lit "/d/sub/h.md").
Definition mixed_self : IncludeDirective.t :=
  IncludeDirective.mk (lit "@include ./f.md") 3 (lit "./f.md") self_path.

(** A document that includes the same file twice; the file includes a leaf. *)
Definition shared_path : jsstring := lit "/d/g.md".
Definition leaf_path : jsstring := lit "/d/sub/h.md".
Definition diamond_text : jsstring :=
  text [lit "@include /d/g.md"; lit "@include ./g.md"].
Definition shared_text : jsstring := text [lit "shared"; lit "@include sub/h.md"].
Definition diamond_files :=
  read_table [(shared_path, shared_text); (leaf_path, lit "leaf")].
Definition diamond_first : IncludeDirective.t :=
  IncludeDirective.mk (lit "@include /d/g.md") 1 (lit "/d/g.md") shared_path.
Definition diamond_second : IncludeDirective.t :=
  IncludeDirective.mk (lit "@include ./g.md") 2 (lit "./g.md") shared_path.

Definition resolve_default (files : jsstring -> read_outcome)
    (content base : jsstring) : ProcessResult.t :=
  Resolver.resolve home workdir message_of parse_error_file unexpanded
    content base (ProcessOptions.default files).

End Sample.


(* ================================================================== *)
(** ** Specification-level vocabulary *)
(* ================================================================== *)

(** Every unit of [s] is white space (in the sense of [\s] and [trim]). *)
Definition all_white (s : jsstring) : Prop := forallb is_white s = true.

(** No unit of [s] is a line terminator: [s] can be matched by [.+]. *)
Definition no_terminator (s : jsstring) : Prop := forallb cls_dot s = true.

Definition KEYWORD : jsstring := lit "@include".

(** A line has the shape of a directive with path token [p]: optional white
    space, the keyword, white space, and a rest free of line terminators
    whose trimmed text [p] is not empty. *)
Definition directive_shape (l p : jsstring) : Prop :=
  exists ws a c,
    l = ws ++ KEYWORD ++ a ++ c /\ all_white ws /\ all_white a /\ a <> []
    /\ c <> [] /\ no_terminator c /\ p = trim c /\ p <> [].

(** A line carries the keyword and no usable path: optional white space,
    the keyword, and nothing but white space after it. *)
Definition empty_path_line (l : jsstring) : Prop :=
  exists ws w, l = ws ++ KEYWORD ++ w /\ all_white ws /\ all_white w.

(** The line starts, after optional white space, with the keyword. *)
Definition keyword_leads (l : jsstring) : Prop :=
  exists ws rest, l = ws ++ KEYWORD ++ rest /\ all_white ws.

(** Path segments put together with single separators. *)
Fixpoint join_segments (segs : list jsstring) : jsstring :=
  match segs with
  | [] => []
  | [s] => s
  | s :: rest => s ++ Path.CHAR_FORWARD_SLASH :: join_segments rest
  end.

(** A segment of a normalized path: not empty, free of separators, and
    neither [.] nor [..]. *)
Definition plain_segment (s : jsstring) : Prop :=
  s <> [] /\ ~ In Path.CHAR_FORWARD_SLASH s
  /\ s <> [Path.CHAR_DOT] /\ s <> [Path.CHAR_DOT; Path.CHAR_DOT].

(** The absolute path made of the given segments, with or without a
    trailing separator. *)
Definition absolute_path (segs : list jsstring) (trailing : bool) : jsstring :=
  Path.CHAR_FORWARD_SLASH :: join_segments segs
    ++ (if trailing then [Path.CHAR_FORWARD_SLASH] else []).

(** A path is absolute; a path is normalized for the platform when
    [path.normalize] leaves it as it is. *)
Definition absolute (p : jsstring) : Prop := Path.isAbsolute p = true.
Definition normalized (p : jsstring) : Prop := Path.normalize p = p.

(** The value of [dots] once the units of a segment have been read. *)
Definition dots_of (s : jsstring) : Z :=
  if forallb (fun c => ceq c Path.CHAR_DOT) s then Z.of_nat (List.length s)
  else (-1)%Z.

(** What the loop of [normalizeString] keeps true when it may not climb
    above the root: [res] is a join of plain segments, and [seg] and [dots]
    describe the units read since the last separator. *)
Definition norm_inv (st : Path.nstate) : Prop :=
  exists segs,
    Forall plain_segment segs /\ Path.res st = join_segments segs
    /\ ~ In Path.CHAR_FORWARD_SLASH (Path.seg st)
    /\ Path.dots st = dots_of (Path.seg st).

(** [res] after a segment is appended to it. *)
Definition push_segment (r s : jsstring) : jsstring :=
  match r with
  | [] => s
  | _ :: _ => r ++ Path.CHAR_FORWARD_SLASH :: s
  end.

(** The path token of a line, as the pattern captures and [trim] cuts it
    (empty when the pattern does not match). *)
Definition path_token (l : jsstring) : jsstring :=
  match exec INCLUDE_DIRECTIVE_REGEX l with
  | Some m => trim (group1 m)
  | None => []
  end.

(** The line matches the directive pattern with a non-empty trimmed token. *)
Definition has_path (l : jsstring) : bool := truthy (path_token l).

(** The line matches one of the two patterns and carries no usable path. *)
Definition is_malformed (l : jsstring) : bool :=
  negb (has_path l)
  && (test INCLUDE_DIRECTIVE_REGEX l || test INCOMPLETE_INCLUDE_REGEX l).

(** The lines of a text with their 1-indexed numbers, counting on from [i]. *)
Definition numbered (i : nat) (lines : list jsstring) : list (nat * jsstring) :=
  combine (seq (i + 1) (List.length lines)) lines.

(** The directive a numbered line stands for, and the error it stands for. *)
Definition directive_of (homeDir cwd basePath : jsstring) (nl : nat * jsstring)
    : IncludeDirective.t :=
  IncludeDirective.mk (snd nl) (fst nl) (path_token (snd nl))
    (normalizePath homeDir cwd (path_token (snd nl)) basePath).

Definition error_of (nl : nat * jsstring) : ParseError.t :=
  ParseError.mk (fst nl) (snd nl) EMPTY_PATH_MESSAGE.

(** The number of line feeds in a text. *)
Definition line_feeds (s : jsstring) : nat := count_occ N.eq_dec s LF.

(** A directive and an error with their line number moved on by [k]. *)
Definition shift_directive (k : nat) (d : IncludeDirective.t) : IncludeDirective.t :=
  IncludeDirective.mk (IncludeDirective.originalLine d)
    (IncludeDirective.lineNumber d + k)
    (IncludeDirective.rawPath d) (IncludeDirective.resolvedPath d).

Definition shift_error (k : nat) (e : ParseError.t) : ParseError.t :=
  ParseError.mk (ParseError.lineNumber e + k) (ParseError.line e)
    (ParseError.message e).

(** [text] sits in [content] as a whole line: what precedes it is empty or
    ends with a line feed, what follows is empty or starts with one, and it
    holds no line feed itself. *)
Definition whole_line (content pre text post : jsstring) : Prop :=
  content = pre ++ text ++ post
  /\ (pre = [] \/ exists pre', pre = pre' ++ [LF])
  /\ (post = [] \/ exists post', post = LF :: post')
  /\ ~ In LF text.


(* ================================================================== *)
(** ** Lemmas: strings *)
(* ================================================================== *)

Section StringFacts.

Lemma ceq_eq (a b : char16) : ceq a b = true <-> a = b.
Proof. unfold ceq. apply N.eqb_eq. Qed.

Lemma ceq_refl (a : char16) : ceq a a = true.
Proof. apply ceq_eq. reflexivity. Qed.

Lemma ceq_neq (a b : char16) : ceq a b = false <-> a <> b.
Proof. unfold ceq. apply N.eqb_neq. Qed.

Lemma str_eqb_eq (a b : jsstring) : str_eqb a b = true <-> a = b.
Proof.
  revert b. induction a as [|x a IH]; intros [|y b]; simpl; split;
    try congruence; try reflexivity.
  - intros H. apply andb_true_iff in H as [H1 H2].
    apply ceq_eq in H1. apply IH in H2. congruence.
  - intros H. injection H as -> ->. rewrite ceq_refl. simpl. now apply IH.
Qed.

Lemma str_eqb_refl (a : jsstring) : str_eqb a a = true.
Proof. now apply str_eqb_eq. Qed.

Lemma str_eqb_neq (a b : jsstring) : str_eqb a b = false <-> a <> b.
Proof.
  split.
  - intros H E. apply str_eqb_eq in E. congruence.
  - intros H. destruct (str_eqb a b) eqn:E; [|reflexivity].
    apply str_eqb_eq in E. contradiction.
Qed.

Lemma all_white_app (a b : jsstring) :
  all_white (a ++ b) <-> all_white a /\ all_white b.
Proof. unfold all_white. rewrite forallb_app. apply andb_true_iff. Qed.

Lemma dropWhile_all (p : char16 -> bool) (a c : jsstring) :
  forallb p a = true -> dropWhile p (a ++ c) = dropWhile p c.
Proof.
  induction a as [|x a IH]; simpl; [reflexivity|].
  intros H. apply andb_true_iff in H as [-> H]. now apply IH.
Qed.

Lemma dropWhile_idem (p : char16 -> bool) (s : jsstring) :
  dropWhile p (dropWhile p s) = dropWhile p s.
Proof.
  induction s as [|x s IH]; simpl; [reflexivity|].
  destruct (p x) eqn:E; [exact IH|]. simpl. now rewrite E.
Qed.

(** What [dropWhile] removes satisfies the predicate. *)
Lemma dropWhile_split (p : char16 -> bool) (s : jsstring) :
  exists a, s = a ++ dropWhile p s /\ forallb p a = true.
Proof.
  induction s as [|x s [a [E H]]]; simpl.
  - exists []. split; reflexivity.
  - destruct (p x) eqn:Ex.
    + exists (x :: a). simpl. rewrite Ex, H. split; [congruence|reflexivity].
    + exists []. split; reflexivity.
Qed.

Lemma dropWhile_fixed (p : char16 -> bool) (x : char16) (t : jsstring) :
  p x = false -> dropWhile p (x :: t) = x :: t.
Proof. intros H. simpl. now rewrite H. Qed.

(** [trimEnd] keeps a prefix and drops white space only. *)
Lemma trimEnd_split (s : jsstring) :
  exists w, s = trimEnd s ++ w /\ all_white w.
Proof.
  unfold trimEnd. destruct (dropWhile_split is_white (rev s)) as [a [E H]].
  exists (rev a). split.
  - rewrite <- rev_app_distr, <- E. now rewrite rev_involutive.
  - unfold all_white. rewrite forallb_forall in *. intros x Hx.
    apply H. now apply in_rev.
Qed.

Lemma trim_white_prefix (a c : jsstring) :
  all_white a -> trim (a ++ c) = trim c.
Proof. intros H. unfold trim, trimStart. now rewrite dropWhile_all. Qed.

Lemma trim_all_white (c : jsstring) : all_white c -> trim c = [].
Proof.
  intros H. unfold trim, trimStart.
  rewrite <- (app_nil_r c), dropWhile_all by exact H. reflexivity.
Qed.

Lemma trimEnd_idem (s : jsstring) : trimEnd (trimEnd s) = trimEnd s.
Proof. unfold trimEnd. now rewrite rev_involutive, dropWhile_idem. Qed.

(** Trimming the end of a text that starts with a non-white unit leaves a
    text that still does. *)
Lemma trimStart_trimEnd (s : jsstring) :
  trimStart s = s -> trimStart (trimEnd s) = trimEnd s.
Proof.
  intros Hs. destruct (trimEnd_split s) as [w [E Hw]].
  destruct (trimEnd s) as [|x t] eqn:Et; [reflexivity|].
  unfold trimStart in *. apply dropWhile_fixed.
  rewrite E in Hs. simpl in Hs.
  destruct (is_white x) eqn:Ex; [|reflexivity].
  exfalso.
  destruct (dropWhile_split is_white (t ++ w)) as [a [E' _]].
  rewrite Hs in E'. apply (f_equal (@List.length _)) in E'.
  rewrite !length_app in E'. simpl in E'. rewrite length_app in E'. lia.
Qed.

Lemma trim_idem (s : jsstring) : trim (trim s) = trim s.
Proof.
  unfold trim. rewrite trimStart_trimEnd.
  - apply trimEnd_idem.
  - unfold trimStart. apply dropWhile_idem.
Qed.

(** A trimmed text is empty exactly when the text is all white space. *)
Lemma trim_nil_iff (c : jsstring) : trim c = [] <-> all_white c.
Proof.
  split; [|apply trim_all_white].
  intros H. unfold trim in H.
  destruct (dropWhile_split is_white c) as [a [E Ha]].
  destruct (trimEnd_split (trimStart c)) as [w [E' Hw]].
  rewrite H in E'. simpl in E'. unfold trimStart in E'. rewrite E.
  apply all_white_app. split; [exact Ha|]. now rewrite E'.
Qed.

Lemma truthy_false (s : jsstring) : truthy s = false <-> s = [].
Proof. destruct s; simpl; split; congruence. Qed.

Lemma truthy_true (s : jsstring) : truthy s = true <-> s <> [].
Proof. destruct s; simpl; split; congruence. Qed.

End StringFacts.


(* ================================================================== *)
(** ** Lemmas: the matcher and the two patterns *)
(* ================================================================== *)

Section RegexFacts.

Variable cls : char16 -> bool.

(** If a greedy loop fails, its continuation fails where the loop started. *)
Lemma star_loop_none pre suf cap k :
  star_loop cls pre suf cap k = None -> k (MState pre suf cap) = None.
Proof.
  destruct suf as [|c suf]; simpl; [auto|].
  destruct (cls c); [|auto].
  destruct (star_loop cls (pre ++ [c]) suf cap k); [discriminate|auto].
Qed.

(** A successful loop stopped after some run of class units. *)
Lemma star_loop_sound suf : forall pre cap k r,
  star_loop cls pre suf cap k = Some r ->
  exists a b, suf = a ++ b /\ forallb cls a = true
              /\ k (MState (pre ++ a) b cap) = Some r.
Proof.
  induction suf as [|c suf IH]; intros pre cap k r; simpl.
  - intros H. exists [], []. rewrite !app_nil_r. auto.
  - destruct (cls c) eqn:Ec.
    + destruct (star_loop cls (pre ++ [c]) suf cap k) eqn:E.
      * intros H. injection H as <-.
        destruct (IH _ _ _ _ E) as [a [b [-> [Ha Hk]]]].
        exists (c :: a), b. simpl. rewrite Ec, Ha.
        rewrite <- app_assoc in Hk. auto.
      * intros H. exists [], (c :: suf). rewrite !app_nil_r. auto.
    + intros H. exists [], (c :: suf). rewrite !app_nil_r. auto.
Qed.

(** The loop succeeds as soon as the continuation does after some run. *)
Lemma star_loop_complete a : forall pre b cap k,
  forallb cls a = true ->
  k (MState (pre ++ a) b cap) <> None ->
  star_loop cls pre (a ++ b) cap k <> None.
Proof.
  induction a as [|x a IH]; intros pre b cap k Ha Hk.
  - rewrite app_nil_r in Hk. simpl. intros E.
    apply star_loop_none in E. contradiction.
  - simpl in Ha. apply andb_true_iff in Ha as [Hx Ha]. simpl. rewrite Hx.
    destruct (star_loop cls (pre ++ [x]) (a ++ b) cap k) eqn:E; [discriminate|].
    exfalso. revert E. apply IH; [exact Ha|]. now rewrite <- app_assoc.
Qed.

Lemma plus_sound st k r :
  run (Plus cls) st k = Some r ->
  exists a b, after st = a ++ b /\ a <> [] /\ forallb cls a = true
              /\ k (MState (before st ++ a) b (capture st)) = Some r.
Proof.
  simpl. destruct (after st) as [|x suf]; [discriminate|].
  destruct (cls x) eqn:Ex; [|discriminate].
  intros H. apply star_loop_sound in H as [a [b [-> [Ha Hk]]]].
  exists (x :: a), b. simpl. rewrite Ex, Ha. rewrite <- app_assoc in Hk.
  repeat split; [discriminate|exact Hk].
Qed.

Lemma plus_complete st k a b :
  after st = a ++ b -> a <> [] -> forallb cls a = true ->
  k (MState (before st ++ a) b (capture st)) <> None ->
  run (Plus cls) st k <> None.
Proof.
  intros E Hne Ha Hk. simpl. rewrite E.
  destruct a as [|x a]; [contradiction|]. simpl in *.
  apply andb_true_iff in Ha as [-> Ha].
  apply star_loop_complete; [exact Ha|]. now rewrite <- app_assoc.
Qed.

Lemma star_sound st k r :
  run (Star cls) st k = Some r ->
  exists a b, after st = a ++ b /\ forallb cls a = true
              /\ k (MState (before st ++ a) b (capture st)) = Some r.
Proof. simpl. apply star_loop_sound. Qed.

Lemma star_complete st k a b :
  after st = a ++ b -> forallb cls a = true ->
  k (MState (before st ++ a) b (capture st)) <> None ->
  run (Star cls) st k <> None.
Proof. intros E Ha Hk. simpl. rewrite E. now apply star_loop_complete. Qed.

End RegexFacts.

Lemma run_seq r1 r2 st k :
  run (Seq r1 r2) st k = run r1 st (fun st' => run r2 st' k).
Proof. reflexivity. Qed.

Lemma run_group r st k :
  run (Group r) st k =
  run r st (fun st' =>
    k (MState (before st') (after st')
              (Some (skipn (List.length (before st)) (before st'))))).
Proof. reflexivity. Qed.

Lemma run_bol suf cap k :
  run Bol (MState [] suf cap) k = k (MState [] suf cap).
Proof. reflexivity. Qed.

Lemma run_eol pre suf cap k :
  run Eol (MState pre suf cap) k =
  match suf with [] => k (MState pre suf cap) | _ :: _ => None end.
Proof. reflexivity. Qed.

Section PatternFacts.

(** A literal word is matched unit by unit, without choice. *)
Lemma run_word w : forall next st k,
  run (word w next) st k =
  if startsWith (after st) w
  then run next (MState (before st ++ w) (skipn (List.length w) (after st))
                        (capture st)) k
  else None.
Proof.
  induction w as [|c w IH]; intros next [pre suf cap] k; simpl.
  - now rewrite app_nil_r.
  - destruct suf as [|x suf]; [reflexivity|].
    destruct (ceq x c) eqn:E; [|reflexivity]. simpl.
    apply ceq_eq in E. subst x. rewrite IH. simpl.
    now rewrite <- app_assoc.
Qed.

Lemma startsWith_app (w s : jsstring) : startsWith (w ++ s) w = true.
Proof. induction w as [|c w IH]; simpl; [reflexivity|]. now rewrite ceq_refl. Qed.

Lemma startsWith_split (w : jsstring) : forall s,
  startsWith s w = true -> s = w ++ skipn (List.length w) s.
Proof.
  induction w as [|c w IH]; intros s; simpl; [reflexivity|].
  destruct s as [|x s]; [discriminate|].
  intros H. apply andb_true_iff in H as [H1 H2]. apply ceq_eq in H1.
  subst. f_equal. now apply IH.
Qed.

Lemma skipn_app_exact (A : Type) (w s : list A) : skipn (List.length w) (w ++ s) = s.
Proof. induction w; simpl; auto. Qed.

(** A pattern that starts with [^] matches at index 0 or nowhere. *)
Lemma search_anchored r suf : forall pre,
  pre <> [] -> search (Seq Bol r) pre suf = None.
Proof.
  induction suf as [|c suf IH]; intros pre Hpre; simpl;
    unfold match_at; simpl; destruct pre as [|p pre]; try contradiction.
  - reflexivity.
  - apply IH. destruct pre; discriminate.
Qed.

Lemma exec_anchored r s :
  exec (Seq Bol r) s = match_at (Seq Bol r) [] s.
Proof.
  unfold exec. destruct s as [|c s]; simpl.
  - destruct (match_at (Seq Bol r) [] []); reflexivity.
  - destruct (match_at (Seq Bol r) [] (c :: s)); [reflexivity|].
    apply search_anchored. discriminate.
Qed.

Lemma keyword_not_white : is_white 64%N = false.
Proof. reflexivity. Qed.

(** The white space before the keyword is determined by the line. *)
Lemma leading_white_unique ws : forall ws' r r',
  all_white ws -> all_white ws' ->
  ws ++ KEYWORD ++ r = ws' ++ KEYWORD ++ r' -> ws = ws' /\ r = r'.
Proof.
  induction ws as [|x ws IH]; intros [|y ws'] r r' H H' E.
  - split; [reflexivity|]. apply (app_inv_head KEYWORD). exact E.
  - exfalso. vm_compute in E. injection E as E _. subst y.
    unfold all_white in H'. simpl in H'. discriminate.
  - exfalso. vm_compute in E. injection E as E _. subst x.
    unfold all_white in H. simpl in H. discriminate.
  - injection E as -> E.
    apply (all_white_app [y] ws) in H as [_ H].
    apply (all_white_app [y] ws') in H' as [_ H'].
    destruct (IH _ _ _ H H' E) as [-> ->]. auto.
Qed.

(** What a match of [/^\s*@include\s+(.+)$/] says about the line. *)
Lemma include_regex_sound l m :
  exec INCLUDE_DIRECTIVE_REGEX l = Some m ->
  exists ws a c,
    l = ws ++ KEYWORD ++ a ++ c /\ all_white ws /\ all_white a /\ a <> []
    /\ c <> [] /\ no_terminator c /\ group1 m = c.
Proof.
  unfold INCLUDE_DIRECTIVE_REGEX. rewrite exec_anchored.
  unfold match_at. rewrite run_seq, run_bol, run_seq.
  intros H. apply star_sound in H as [ws [b [E0 [Hws H]]]].
  cbn [before after capture] in *. subst l.
  rewrite run_word in H. cbn [before after capture] in H.
  destruct (startsWith b (lit "@include")) eqn:Eb; [|discriminate].
  apply startsWith_split in Eb.
  remember (skipn (List.length (lit "@include")) b) as rest eqn:Er.
  rewrite run_seq in H. apply plus_sound in H as [a [b' [E [Hne [Ha H]]]]].
  cbn [before after capture] in *.
  rewrite run_seq, run_group in H.
  apply plus_sound in H as [c [e [E' [Hc [Hdot H]]]]].
  cbn [before after capture] in *. rewrite run_eol in H.
  destruct e as [|? ?]; [|discriminate]. injection H as <-.
  rewrite app_nil_r in E'. subst b'.
  exists ws, a, c. unfold group1. cbn [capture].
  rewrite skipn_app_exact. rewrite Eb, E.
  repeat split; auto.
Qed.

(** Every line of that form is matched. *)
Lemma include_regex_complete ws a c :
  all_white ws -> all_white a -> a <> [] -> c <> [] -> no_terminator c ->
  exec INCLUDE_DIRECTIVE_REGEX (ws ++ KEYWORD ++ a ++ c) <> None.
Proof.
  intros Hws Ha Hne Hc Hdot.
  unfold INCLUDE_DIRECTIVE_REGEX. rewrite exec_anchored.
  unfold match_at. rewrite run_seq, run_bol, run_seq.
  apply star_complete with (a := ws) (b := KEYWORD ++ a ++ c);
    [reflexivity|exact Hws|].
  cbn [before after capture].
  rewrite run_word. cbn [before after capture].
  change (lit "@include") with KEYWORD.
  rewrite startsWith_app, skipn_app_exact. rewrite run_seq.
  apply plus_complete with (a := a) (b := c); auto.
  cbn [before after capture]. rewrite run_seq, run_group.
  apply plus_complete with (a := c) (b := []); auto.
  - cbn [after]. now rewrite app_nil_r.
  - cbn [before after capture]. rewrite run_eol. discriminate.
Qed.

(** What a match of [/^\s*@include\s*$/] says about the line. *)
Lemma incomplete_regex_sound l m :
  exec INCOMPLETE_INCLUDE_REGEX l = Some m -> empty_path_line l.
Proof.
  unfold INCOMPLETE_INCLUDE_REGEX. rewrite exec_anchored.
  unfold match_at. rewrite run_seq, run_bol, run_seq.
  intros H. apply star_sound in H as [ws [b [E0 [Hws H]]]].
  cbn [before after capture] in *. subst l.
  rewrite run_word in H. cbn [before after capture] in H.
  destruct (startsWith b (lit "@include")) eqn:Eb; [|discriminate].
  apply startsWith_split in Eb.
  remember (skipn (List.length (lit "@include")) b) as rest eqn:Er.
  rewrite run_seq in H.
  apply star_sound in H as [w [e [E [Hw H]]]].
  cbn [before after capture] in *. rewrite run_eol in H.
  destruct e as [|? ?]; [|discriminate].
  rewrite app_nil_r in E. subst rest.
  exists ws, w. rewrite Eb, E. auto.
Qed.

Lemma incomplete_regex_complete l :
  empty_path_line l -> exec INCOMPLETE_INCLUDE_REGEX l <> None.
Proof.
  intros [ws [w [-> [Hws Hw]]]].
  unfold INCOMPLETE_INCLUDE_REGEX. rewrite exec_anchored.
  unfold match_at. rewrite run_seq, run_bol, run_seq.
  apply star_complete with (a := ws) (b := KEYWORD ++ w);
    [reflexivity|exact Hws|].
  cbn [before after capture].
  rewrite run_word. cbn [before after capture].
  change (lit "@include") with KEYWORD.
  rewrite startsWith_app, skipn_app_exact. rewrite run_seq.
  apply star_complete with (a := w) (b := []); auto.
  - cbn [after]. now rewrite app_nil_r.
  - cbn [before after capture]. rewrite run_eol. discriminate.
Qed.

End PatternFacts.


(* ================================================================== *)
(** ** Lemmas: the scanner *)
(* ================================================================== *)

Section ScannerFacts.

Variable homeDir : jsstring.
Variable cwd : jsstring.

Lemma test_exec r l :
  test r l = match exec r l with Some _ => true | None => false end.
Proof. reflexivity. Qed.

Lemma parseIncludeLine_has_path l n B :
  parseIncludeLine homeDir cwd l n B =
  if has_path l then Some (directive_of homeDir cwd B (n, l)) else None.
Proof.
  unfold parseIncludeLine, has_path, directive_of, path_token.
  cbn [fst snd].
  destruct (exec INCLUDE_DIRECTIVE_REGEX l) as [m|]; [|reflexivity].
  destruct (truthy (trim (group1 m))); reflexivity.
Qed.

Lemma extractIncludePath_has_path l :
  extractIncludePath l = if has_path l then Some (path_token l) else None.
Proof.
  unfold extractIncludePath, has_path, path_token.
  destruct (exec INCLUDE_DIRECTIVE_REGEX l) as [m|]; reflexivity.
Qed.

Lemma has_path_test l : has_path l = true -> test INCLUDE_DIRECTIVE_REGEX l = true.
Proof.
  unfold has_path, path_token. rewrite test_exec.
  destruct (exec INCLUDE_DIRECTIVE_REGEX l); [reflexivity|discriminate].
Qed.

(** The lines with a path are the lines of directive shape. *)
Lemma has_path_shape l :
  has_path l = true <-> directive_shape l (path_token l).
Proof.
  unfold has_path. split.
  - intros H. apply truthy_true in H. unfold path_token in *.
    destruct (exec INCLUDE_DIRECTIVE_REGEX l) as [m|] eqn:E; [|contradiction].
    destruct (include_regex_sound _ E) as (ws & a & c & El & Hws & Ha & Hne & Hc & Hd & Hg).
    exists ws, a, c. rewrite Hg in *. repeat split; auto.
  - intros (ws & a & c & El & Hws & Ha & Hne & Hc & Hd & Hp & Hnp).
    apply truthy_true. exact Hnp.
Qed.

(** The token of a line of directive shape is the trimmed rest of the line
    after the keyword, whichever way the line is cut. *)
Lemma shape_token ws a c :
  all_white ws -> all_white a -> a <> [] -> c <> [] -> no_terminator c ->
  path_token (ws ++ KEYWORD ++ a ++ c) = trim c.
Proof.
  intros Hws Ha Hne Hc Hd. unfold path_token.
  destruct (exec INCLUDE_DIRECTIVE_REGEX (ws ++ KEYWORD ++ a ++ c)) as [m|] eqn:E.
  - destruct (include_regex_sound _ E) as (ws' & a' & c' & El & Hws' & Ha' & _ & _ & _ & Hg).
    destruct (leading_white_unique _ _ Hws Hws' El) as [_ Er].
    rewrite Hg. rewrite <- (trim_white_prefix c Ha), <- (trim_white_prefix c' Ha').
    now rewrite Er.
  - exfalso. revert E. now apply include_regex_complete.
Qed.

Lemma shape_has_path l p : directive_shape l p -> has_path l = true /\ path_token l = p.
Proof.
  intros (ws & a & c & -> & Hws & Ha & Hne & Hc & Hd & Hp & Hnp).
  unfold has_path. rewrite shape_token by assumption.
  split; [apply truthy_true|]; congruence.
Qed.

(** The lines reported as malformed are the lines that carry the keyword
    and nothing but white space after it. *)
Lemma is_malformed_iff l : is_malformed l = true <-> empty_path_line l.
Proof.
  unfold is_malformed. rewrite andb_true_iff, negb_true_iff, orb_true_iff.
  rewrite !test_exec. split.
  - intros [Hp [H|H]].
    + destruct (exec INCLUDE_DIRECTIVE_REGEX l) as [m|] eqn:E; [|discriminate].
      destruct (include_regex_sound _ E) as (ws & a & c & El & Hws & Ha & Hne & Hc & Hd & Hg).
      unfold has_path, path_token in Hp. rewrite E, Hg in Hp.
      apply truthy_false, trim_nil_iff in Hp.
      exists ws, (a ++ c). repeat split; auto. now apply all_white_app.
    + destruct (exec INCOMPLETE_INCLUDE_REGEX l) as [m|] eqn:E; [|discriminate].
      eapply incomplete_regex_sound; eauto.
  - intros He. split.
    + destruct (has_path l) eqn:Hp; [|reflexivity]. exfalso.
      apply has_path_shape in Hp.
      destruct Hp as (ws & a & c & El & Hws & Ha & Hne & Hc & Hd & Hp & Hnp).
      destruct He as (ws' & w & El' & Hws' & Hw).
      rewrite El in El'.
      destruct (leading_white_unique _ _ Hws Hws' El') as [_ Er].
      rewrite <- Er in Hw. apply all_white_app in Hw as [_ Hw].
      apply trim_all_white in Hw. congruence.
    + right. apply incomplete_regex_complete in He.
      destruct (exec INCOMPLETE_INCLUDE_REGEX l); [reflexivity|contradiction].
Qed.

Lemma numbered_cons i l lines :
  numbered i (l :: lines) = (i + 1, l) :: numbered (S i) lines.
Proof. unfold numbered. simpl. now rewrite Nat.add_1_r. Qed.

(** The loop, read as two filters over the numbered lines. *)
Lemma scan_lines_filters B lines : forall i ds es,
  scan_lines homeDir cwd B lines i ds es =
  (ds ++ map (directive_of homeDir cwd B)
           (filter (fun nl => has_path (snd nl)) (numbered i lines)),
   es ++ map error_of
           (filter (fun nl => is_malformed (snd nl)) (numbered i lines))).
Proof.
  induction lines as [|l lines IH]; intros i ds es.
  - simpl. now rewrite !app_nil_r.
  - rewrite numbered_cons. cbn [scan_lines filter snd].
    rewrite parseIncludeLine_has_path. unfold is_malformed.
    destruct (has_path l) eqn:Hp.
    + rewrite (has_path_test _ Hp). rewrite IH. cbn [negb andb map].
      now rewrite <- app_assoc.
    + cbn [negb andb].
      destruct (test INCLUDE_DIRECTIVE_REGEX l); cbn [orb].
      * rewrite IH. cbn [map]. now rewrite <- app_assoc.
      * destruct (test INCOMPLETE_INCLUDE_REGEX l).
        -- rewrite IH. cbn [map]. now rewrite <- app_assoc.
        -- now rewrite IH.
Qed.

Lemma parseIncludeDirectives_filters C B :
  parseIncludeDirectives homeDir cwd C B =
  ParseResult.mk C
    (map (directive_of homeDir cwd B)
       (filter (fun nl => has_path (snd nl)) (numbered 0 (split_on LF C))))
    (map error_of
       (filter (fun nl => is_malformed (snd nl)) (numbered 0 (split_on LF C)))).
Proof. unfold parseIncludeDirectives. now rewrite scan_lines_filters. Qed.

Lemma in_numbered i lines n l :
  In (n, l) (numbered i lines) <->
  i < n /\ nth_error lines (n - i - 1) = Some l.
Proof.
  revert i. induction lines as [|x lines IH]; intros i.
  - unfold numbered. simpl. split; [contradiction|].
    intros [_ H]. destruct (n - i - 1); discriminate.
  - rewrite numbered_cons. simpl. rewrite IH. split.
    + intros [H|[H1 H2]].
      * injection H as <- <-. split; [lia|].
        replace (i + 1 - i - 1) with 0 by lia. reflexivity.
      * split; [lia|]. replace (n - i - 1) with (S (n - S i - 1)) by lia.
        exact H2.
    + intros [H1 H2]. destruct (n - i - 1) as [|k] eqn:E.
      * left. injection H2 as <-. f_equal. lia.
      * right. split; [lia|]. replace (n - S i - 1) with k by lia. exact H2.
Qed.

Lemma numbered_fst i lines :
  map fst (numbered i lines) = seq (i + 1) (List.length lines).
Proof.
  revert i. induction lines as [|x lines IH]; intros i; [reflexivity|].
  rewrite numbered_cons. simpl. rewrite IH. repeat (f_equal; try lia).
Qed.

End ScannerFacts.


(* ================================================================== *)
(** ** Lemmas: paths *)
(* ================================================================== *)

Section PathFacts.

Import Path.

Local Abbreviation SLASH := CHAR_FORWARD_SLASH.

Lemma lastIndexOf_absent (c : char16) (t : jsstring) :
  ~ In c t -> lastIndexOf c t = None.
Proof.
  induction t as [|x t IH]; simpl; [reflexivity|].
  intros H. rewrite IH by tauto.
  destruct (ceq x c) eqn:E; [|reflexivity].
  apply ceq_eq in E. subst. tauto.
Qed.

Lemma lastIndexOf_last (c : char16) (s t : jsstring) :
  ~ In c t -> lastIndexOf c (s ++ c :: t) = Some (List.length s).
Proof.
  intros H. induction s as [|x s IH]; simpl.
  - rewrite lastIndexOf_absent by exact H. now rewrite ceq_refl.
  - now rewrite IH.
Qed.

Lemma join_segments_nil (segs : list jsstring) :
  Forall plain_segment segs -> join_segments segs = [] -> segs = [].
Proof.
  intros H E. destruct segs as [|x segs]; [reflexivity|].
  exfalso. inversion H as [|? ? [Hx _] _]; subst.
  destruct segs; simpl in E.
  - contradiction.
  - destruct x; [contradiction|discriminate].
Qed.

Lemma join_segments_push (segs : list jsstring) (s : jsstring) :
  Forall plain_segment segs ->
  join_segments (segs ++ [s]) = push_segment (join_segments segs) s.
Proof.
  induction segs as [|x segs IH]; intros H; [reflexivity|].
  inversion H as [|? ? [Hx _] Hs]; subst.
  destruct x as [|c x]; [contradiction|].
  destruct segs as [|y segs]; [reflexivity|].
  change (join_segments (((c :: x) :: y :: segs) ++ [s]))
    with ((c :: x) ++ SLASH :: join_segments ((y :: segs) ++ [s])).
  change (join_segments ((c :: x) :: y :: segs))
    with ((c :: x) ++ SLASH :: join_segments (y :: segs)).
  rewrite (IH Hs).
  destruct (join_segments (y :: segs)) as [|d r] eqn:E.
  - apply join_segments_nil in E; [discriminate|exact Hs].
  - simpl. rewrite <- app_assoc. reflexivity.
Qed.

(** Cutting a joined path at its last separator removes its last segment. *)
Lemma lastIndexOf_join (segs : list jsstring) (i : nat) :
  Forall plain_segment segs ->
  lastIndexOf SLASH (join_segments segs) = Some i ->
  exists init, Forall plain_segment init
               /\ firstn i (join_segments segs) = join_segments init.
Proof.
  intros H E. destruct (exists_last (l := segs)) as [init [s Es]].
  - intros ->. discriminate.
  - subst segs. apply Forall_app in H as [Hi Hs].
    inversion Hs as [|? ? [Hne [Hno _]] _]; subst.
    rewrite join_segments_push in * by exact Hi.
    exists init. split; [exact Hi|].
    unfold push_segment in *. destruct (join_segments init) as [|c r] eqn:Ej.
    + rewrite lastIndexOf_absent in E by exact Hno. discriminate.
    + rewrite lastIndexOf_last in E by exact Hno. injection E as <-.
      change (S (List.length r)) with (List.length (c :: r)).
      rewrite firstn_app, Nat.sub_diag, firstn_all. simpl.
      now rewrite app_nil_r.
Qed.

Lemma dots_of_snoc (s : jsstring) (c : char16) :
  dots_of (s ++ [c]) =
  if ceq c CHAR_DOT && negb (dots_of s =? -1)%Z then (dots_of s + 1)%Z
  else (-1)%Z.
Proof.
  unfold dots_of. rewrite forallb_app, length_app. simpl.
  destruct (forallb (fun c0 => ceq c0 CHAR_DOT) s); simpl.
  - rewrite andb_true_r.
    destruct (ceq c CHAR_DOT); simpl; [|reflexivity].
    destruct (Z.of_nat (List.length s) =? -1)%Z eqn:E; [lia|]. simpl. lia.
  - now rewrite andb_false_r.
Qed.

Lemma dots_of_one (s : jsstring) : dots_of s = 1%Z -> s = [CHAR_DOT].
Proof.
  unfold dots_of. destruct s as [|a [|b s]]; simpl; try discriminate.
  - destruct (ceq a CHAR_DOT) eqn:E; simpl; [|discriminate].
    apply ceq_eq in E. now subst.
  - destruct (ceq a CHAR_DOT && (ceq b CHAR_DOT && _)); intros H; lia.
Qed.

Lemma separator_eq (c : char16) : isPosixPathSeparator c = true <-> c = SLASH.
Proof. apply ceq_eq. Qed.

Lemma plain_of_dots (s : jsstring) :
  s <> [] -> ~ In SLASH s -> dots_of s <> 1%Z -> dots_of s <> 2%Z ->
  plain_segment s.
Proof.
  intros Hne Hno H1 H2. repeat split; auto.
  - intros ->. now apply H1.
  - intros ->. now apply H2.
Qed.

(** One iteration keeps the invariant. *)
Lemma nstep_inv (st : nstate) (c : char16) :
  norm_inv st -> norm_inv (nstep false st c).
Proof.
  intros (segs & Hs & Hr & Hno & Hd). unfold nstep.
  destruct (isPosixPathSeparator c) eqn:Ec.
  - destruct ((match seg st with [] => true | _ :: _ => false end)
              || (dots st =? 1)%Z) eqn:E1.
    { exists segs. cbn. auto. }
    apply orb_false_iff in E1 as [E1 E1'].
    destruct (dots st =? 2)%Z eqn:E2.
    + assert (Hkeep : norm_inv (above_root false st)).
      { exists segs. cbn. auto. }
      destruct ((List.length (res st) <? 2)
                || negb (lastSegmentLength st =? 2)
                || negb (ends_with_dotdot (res st))); [|exact Hkeep].
      destruct (2 <? List.length (res st)).
      * destruct (lastIndexOf SLASH (res st)) as [i|] eqn:E5.
        -- rewrite Hr in E5.
           destruct (lastIndexOf_join Hs E5) as [init [Hi Ef]].
           exists init. cbn. unfold slice_to. rewrite Hr, Ef. auto.
        -- exists []. cbn. auto.
      * destruct (negb (List.length (res st) =? 0)); [|exact Hkeep].
        exists []. cbn. auto.
    + exists (segs ++ [seg st]). cbn.
      assert (Hp : plain_segment (seg st)).
      { apply plain_of_dots; auto.
        - destruct (seg st); [discriminate|discriminate].
        - rewrite <- Hd. now apply Z.eqb_neq.
        - rewrite <- Hd. now apply Z.eqb_neq. }
      repeat split; auto.
      * apply Forall_app. split; [exact Hs|]. constructor; [exact Hp|constructor].
      * rewrite join_segments_push by exact Hs. now rewrite Hr.
  - assert (Hc : ~ In SLASH (seg st ++ [c])).
    { intros H. apply in_app_or in H as [H|[H|[]]]; [contradiction|].
      subst c. discriminate Ec. }
    pose proof (dots_of_snoc (seg st) c) as Hsn. rewrite <- Hd in Hsn.
    destruct (ceq c CHAR_DOT && negb (dots st =? -1)%Z);
      exists segs; cbn; auto.
Qed.

Lemma fold_nstep_inv (p : jsstring) : forall st,
  norm_inv st -> norm_inv (fold_left (nstep false) p st).
Proof.
  induction p as [|c p IH]; intros st H; [exact H|].
  simpl. apply IH. now apply nstep_inv.
Qed.

Lemma norm_inv_init : norm_inv nstate_init.
Proof. exists []. cbn. repeat split; auto. Qed.

(** Without leave to climb above the root, [normalizeString] returns plain
    segments joined by single separators. *)
Lemma normalizeString_plain (p : jsstring) :
  exists segs, Forall plain_segment segs
               /\ normalizeString p false = join_segments segs.
Proof.
  unfold normalizeString.
  pose proof (fold_nstep_inv p norm_inv_init) as H.
  destruct (isPosixPathSeparator (last p 0%N)).
  - destruct H as (segs & Hs & Hr & _). now exists segs.
  - apply (nstep_inv SLASH) in H.
    destruct H as (segs & Hs & Hr & _). now exists segs.
Qed.

Lemma dots_of_two (s : jsstring) : dots_of s = 2%Z -> s = [CHAR_DOT; CHAR_DOT].
Proof.
  unfold dots_of.
  destruct (forallb (fun c => ceq c CHAR_DOT) s) eqn:E; [|discriminate].
  destruct s as [|a [|b [|c s]]]; simpl in *; intros H; try lia.
  apply andb_true_iff in E as [Ea E]. apply andb_true_iff in E as [Eb _].
  apply ceq_eq in Ea, Eb. now subst.
Qed.

(** Reading the units of one segment. *)
Lemma fold_segment (b : bool) (s : jsstring) : forall r l s0,
  ~ In SLASH s ->
  fold_left (nstep b) s (NState r l s0 (dots_of s0)) =
  NState r l (s0 ++ s) (dots_of (s0 ++ s)).
Proof.
  induction s as [|c s IH]; intros r l s0 H.
  - now rewrite app_nil_r.
  - simpl. unfold nstep at 2. cbn [res lastSegmentLength seg dots].
    destruct (isPosixPathSeparator c) eqn:Ec.
    { apply separator_eq in Ec. subst c. exfalso. apply H. now left. }
    assert (E : (if ceq c CHAR_DOT && negb (dots_of s0 =? -1)%Z
                 then NState r l (s0 ++ [c]) (dots_of s0 + 1)
                 else NState r l (s0 ++ [c]) (-1))
                = NState r l (s0 ++ [c]) (dots_of (s0 ++ [c]))).
    { rewrite dots_of_snoc.
      destruct (ceq c CHAR_DOT && negb (dots_of s0 =? -1)%Z); reflexivity. }
    rewrite E, IH.
    + now rewrite <- app_assoc.
    + intros Hin. apply H. now right.
Qed.

(** The separator after a plain segment appends the segment. *)
Lemma nstep_push (b : bool) (r : jsstring) (l : nat) (s : jsstring) :
  plain_segment s ->
  nstep b (NState r l s (dots_of s)) SLASH =
  NState (push_segment r s) (List.length s) [] 0.
Proof.
  intros (Hne & Hno & H1 & H2). unfold nstep.
  cbn [res lastSegmentLength seg dots].
  replace (isPosixPathSeparator SLASH) with true by reflexivity.
  destruct s as [|c s]; [contradiction|]. cbn [orb].
  destruct (dots_of (c :: s) =? 1)%Z eqn:E1.
  { apply Z.eqb_eq, dots_of_one in E1. contradiction. }
  destruct (dots_of (c :: s) =? 2)%Z eqn:E2.
  { apply Z.eqb_eq, dots_of_two in E2. contradiction. }
  reflexivity.
Qed.

(** Reading plain segments, each closed by a separator. *)
Lemma fold_segments (b : bool) (segs : list jsstring) :
  Forall plain_segment segs ->
  forall r l, exists l',
    fold_left (nstep b) (List.concat (map (fun s => s ++ [SLASH]) segs))
      (NState r l [] 0)
    = NState (fold_left push_segment segs r) l' [] 0.
Proof.
  induction 1 as [|s segs Hs _ IH]; intros r l.
  - exists l. reflexivity.
  - simpl. rewrite fold_left_app, fold_left_app.
    change 0%Z with (dots_of []) at 1.
    rewrite fold_segment by (apply Hs). simpl.
    rewrite nstep_push by exact Hs. apply IH.
Qed.

Lemma fold_push_join (segs : list jsstring) :
  Forall plain_segment segs ->
  fold_left push_segment segs [] = join_segments segs.
Proof.
  induction segs as [|s segs IH] using rev_ind; intros H; [reflexivity|].
  apply Forall_app in H as [H _].
  rewrite fold_left_app, join_segments_push by exact H. simpl.
  now rewrite IH.
Qed.

Lemma join_trailing (segs : list jsstring) :
  Forall plain_segment segs -> segs <> [] ->
  join_segments segs ++ [SLASH] =
  List.concat (map (fun s => s ++ [SLASH]) segs).
Proof.
  induction 1 as [|s segs Hs Hrest IH]; intros Hne; [contradiction|].
  destruct segs as [|y segs].
  - simpl. now rewrite app_nil_r.
  - change (join_segments (s :: y :: segs))
      with (s ++ SLASH :: join_segments (y :: segs)).
    change (List.concat (map (fun s => s ++ [SLASH]) (s :: y :: segs)))
      with ((s ++ [SLASH])
            ++ List.concat (map (fun s => s ++ [SLASH]) (y :: segs))).
    rewrite <- IH by discriminate.
    now rewrite <- !app_assoc.
Qed.

Lemma last_of_join (segs : list jsstring) (x d : char16) :
  Forall plain_segment segs -> segs <> [] ->
  isPosixPathSeparator (last (x :: join_segments segs) d) = false.
Proof.
  intros H Hne.
  destruct (exists_last Hne) as [init [s ->]].
  apply Forall_app in H as [Hi Hs].
  inversion Hs as [|? ? (Hn & Hno & _) _]; subst.
  rewrite join_segments_push by exact Hi.
  destruct (exists_last Hn) as [s' [z ->]].
  assert (E : exists pre, x :: push_segment (join_segments init) (s' ++ [z])
                          = pre ++ [z]).
  { unfold push_segment. destruct (join_segments init) as [|c r].
    - exists (x :: s'). reflexivity.
    - exists (x :: (c :: r) ++ SLASH :: s'). simpl.
      now rewrite <- app_assoc. }
  destruct E as [pre ->]. rewrite last_last.
  destruct (isPosixPathSeparator z) eqn:Ez; [|reflexivity].
  apply separator_eq in Ez. subst z. exfalso. apply Hno.
  apply in_or_app. right. now left.
Qed.

(** On an absolute path made of plain segments [normalizeString] returns
    the segments as they are. *)
Lemma normalizeString_canonical (segs : list jsstring) (trailing : bool) :
  Forall plain_segment segs -> (trailing = true -> segs <> []) ->
  normalizeString (absolute_path segs trailing) false = join_segments segs.
Proof.
  intros H Ht. unfold normalizeString, absolute_path.
  destruct segs as [|s0 segs0] eqn:Es.
  - destruct trailing; [now exfalso; apply Ht|]. reflexivity.
  - rewrite <- Es in *. assert (Hne : segs <> []) by (subst; discriminate).
    clear Es Ht.
    destruct (fold_segments false H [] 0) as [l' Hf].
    rewrite fold_push_join in Hf by exact H.
    rewrite <- join_trailing in Hf by assumption.
    destruct trailing.
    + replace (last (SLASH :: join_segments segs ++ [SLASH]) 0%N) with SLASH.
      2:{ change (SLASH :: join_segments segs ++ [SLASH])
            with ((SLASH :: join_segments segs) ++ [SLASH]).
          now rewrite last_last. }
      replace (isPosixPathSeparator SLASH) with true by reflexivity.
      cbn [fold_left]. change (nstep false nstate_init SLASH) with (NState [] 0 [] 0).
      now rewrite Hf.
    + rewrite app_nil_r. rewrite last_of_join by assumption.
      cbn [fold_left]. change (nstep false nstate_init SLASH) with (NState [] 0 [] 0).
      rewrite fold_left_app in Hf. cbn [fold_left] in Hf. now rewrite Hf.
Qed.

(** [path.normalize] leaves such a path as it is. *)
Lemma normalize_canonical (segs : list jsstring) (trailing : bool) :
  Forall plain_segment segs -> (trailing = true -> segs <> []) ->
  normalized (absolute_path segs trailing).
Proof.
  intros H Ht. unfold normalized, normalize.
  pose proof (normalizeString_canonical H Ht) as En.
  unfold absolute_path in *. cbn [isAbsolute negb].
  replace (ceq SLASH SLASH) with true by reflexivity. cbn [negb].
  rewrite En. clear En.
  destruct segs as [|s0 segs0] eqn:Es.
  - destruct trailing; [now exfalso; apply Ht|]. reflexivity.
  - rewrite <- Es in *. assert (Hne : segs <> []) by (subst; discriminate).
    clear Es Ht.
    destruct (join_segments segs) as [|c r] eqn:Ej.
    { apply join_segments_nil in Ej; [contradiction|exact H]. }
    rewrite <- Ej. destruct trailing.
    + change (SLASH :: join_segments segs ++ [SLASH])
        with ((SLASH :: join_segments segs) ++ [SLASH]) at 1.
      rewrite last_last. now rewrite ceq_refl.
    + rewrite app_nil_r.
      pose proof (last_of_join SLASH 0%N H Hne) as El.
      unfold isPosixPathSeparator in El. now rewrite El.
Qed.

Lemma absolute_path_absolute (segs : list jsstring) (trailing : bool) :
  absolute (absolute_path segs trailing).
Proof. reflexivity. Qed.

(** [path.normalize] takes an absolute path to plain segments. *)
Lemma normalize_absolute (p : jsstring) :
  absolute p ->
  exists segs trailing,
    Forall plain_segment segs /\ (trailing = true -> segs <> [])
    /\ normalize p = absolute_path segs trailing.
Proof.
  unfold absolute, normalize. destruct p as [|c p]; [discriminate|].
  intros Ha. rewrite Ha. cbn [negb].
  destruct (normalizeString_plain (c :: p)) as (segs & Hs & ->).
  destruct (join_segments segs) as [|d r] eqn:Ej.
  - exists [], false. repeat split; auto. discriminate.
  - assert (Hne : segs <> []) by (intros ->; discriminate).
    rewrite <- Ej.
    exists segs, (ceq (last (c :: p) 0%N) SLASH). repeat split; auto.
    unfold absolute_path.
    destruct (ceq (last (c :: p) 0%N) SLASH); [reflexivity|].
    now rewrite app_nil_r.
Qed.

Lemma normalize_absolute_fixed (p : jsstring) :
  absolute p -> absolute (normalize p) /\ normalized (normalize p).
Proof.
  intros H. destruct (normalize_absolute H) as (segs & t & Hs & Ht & ->).
  split; [apply absolute_path_absolute|now apply normalize_canonical].
Qed.

(** [path.join] of an absolute first piece and a second one. *)
Lemma join_absolute (home rest : jsstring) :
  absolute home ->
  absolute (join [home; rest]) /\ normalized (join [home; rest]).
Proof.
  intros H. unfold join. destruct home as [|c home]; [discriminate|].
  cbn [join_loop]. destruct rest as [|d rest]; cbn [join_loop].
  - now apply normalize_absolute_fixed.
  - apply normalize_absolute_fixed. exact H.
Qed.

(** [path.resolve] from an absolute base. *)
Lemma resolve_absolute (cwd base t : jsstring) :
  absolute base ->
  exists segs, Forall plain_segment segs
               /\ resolve cwd [base; t] = absolute_path segs false.
Proof.
  intros H. destruct base as [|c base]; [discriminate|].
  unfold resolve. cbn [rev app resolve_loop].
  assert (Hgen : forall q, exists segs,
             Forall plain_segment segs /\
             SLASH :: normalizeString q false = absolute_path segs false).
  { intros q. destruct (normalizeString_plain q) as (segs & Hs & ->).
    exists segs. split; [exact Hs|]. unfold absolute_path.
    now rewrite app_nil_r. }
  destruct t as [|d t].
  - unfold absolute in H. rewrite H. cbn [negb]. apply Hgen.
  - destruct (isAbsolute (d :: t)).
    + cbn [negb]. apply Hgen.
    + unfold absolute in H. rewrite H. cbn [negb]. apply Hgen.
Qed.

End PathFacts.


(* ================================================================== *)
(** ** Theorems: the scanner *)
(* ================================================================== *)

Section ScannerTheorems.

Variable homeDir : jsstring.
Variable cwd : jsstring.

Local Abbreviation parse := (parseIncludeDirectives homeDir cwd).
Local Abbreviation parseLine := (parseIncludeLine homeDir cwd).

Lemma filter_numbered_length (p : jsstring -> bool) (lines : list jsstring) :
  forall i,
  List.length (filter (fun nl => p (snd nl)) (numbered i lines))
  = List.length (filter p lines).
Proof.
  induction lines as [|l lines IH]; intros i; [reflexivity|].
  rewrite numbered_cons. simpl. destruct (p l); simpl; now rewrite IH.
Qed.

Lemma filter_numbered_sorted (p : nat * jsstring -> bool) (lines : list jsstring) :
  forall i, StronglySorted lt (map fst (filter p (numbered i lines))).
Proof.
  induction lines as [|l lines IH]; intros i; [constructor|].
  rewrite numbered_cons. simpl. destruct (p (i + 1, l)); [|apply IH].
  simpl. constructor; [apply IH|].
  apply Forall_forall. intros n Hn.
  apply in_map_iff in Hn as [[n' l'] [<- Hn]].
  apply filter_In in Hn as [Hn _]. apply in_numbered in Hn. simpl. lia.
Qed.

Lemma NoDup_map_filter (A B : Type) (f : A -> B) (p : A -> bool) (L : list A) :
  NoDup (map f L) -> NoDup (map f (filter p L)).
Proof.
  induction L as [|a L IH]; simpl; intros H; [constructor|].
  inversion H as [|? ? Hn Hd]; subst. destruct (p a); [|now apply IH].
  simpl. constructor; [|now apply IH].
  intros Hin. apply Hn. apply in_map_iff in Hin as [x [E Hx]].
  apply filter_In in Hx as [Hx _]. apply in_map_iff. now exists x.
Qed.

Lemma directive_lineNumbers C B :
  map IncludeDirective.lineNumber (ParseResult.directives (parse C B))
  = map fst (filter (fun nl => has_path (snd nl)) (numbered 0 (split_on LF C))).
Proof.
  rewrite parseIncludeDirectives_filters. cbn [ParseResult.directives].
  rewrite map_map. reflexivity.
Qed.

Lemma error_lineNumbers C B :
  map ParseError.lineNumber (ParseResult.errors (parse C B))
  = map fst (filter (fun nl => is_malformed (snd nl)) (numbered 0 (split_on LF C))).
Proof.
  rewrite parseIncludeDirectives_filters. cbn [ParseResult.errors].
  rewrite map_map. reflexivity.
Qed.

Lemma in_directives C B d :
  In d (ParseResult.directives (parse C B)) <->
  exists i l, nth_error (split_on LF C) i = Some l /\ has_path l = true
              /\ d = directive_of homeDir cwd B (i + 1, l).
Proof.
  rewrite parseIncludeDirectives_filters. cbn [ParseResult.directives].
  rewrite in_map_iff. split.
  - intros [[n l] [<- H]]. apply filter_In in H as [H Hp].
    apply in_numbered in H as [Hn H].
    exists (n - 0 - 1), l. repeat split; auto.
    replace (n - 0 - 1 + 1) with n by lia. reflexivity.
  - intros (i & l & Hl & Hp & ->). exists (i + 1, l). split; [reflexivity|].
    apply filter_In. split; [|exact Hp]. apply in_numbered.
    split; [lia|]. replace (i + 1 - 0 - 1) with i by lia. exact Hl.
Qed.

Lemma in_errors C B e :
  In e (ParseResult.errors (parse C B)) <->
  exists i l, nth_error (split_on LF C) i = Some l /\ is_malformed l = true
              /\ e = error_of (i + 1, l).
Proof.
  rewrite parseIncludeDirectives_filters. cbn [ParseResult.errors].
  rewrite in_map_iff. split.
  - intros [[n l] [<- H]]. apply filter_In in H as [H Hp].
    apply in_numbered in H as [Hn H].
    exists (n - 0 - 1), l. repeat split; auto.
    replace (n - 0 - 1 + 1) with n by lia. reflexivity.
  - intros (i & l & Hl & Hp & ->). exists (i + 1, l). split; [reflexivity|].
    apply filter_In. split; [|exact Hp]. apply in_numbered.
    split; [lia|]. replace (i + 1 - 0 - 1) with i by lia. exact Hl.
Qed.

Lemma leading_of_shape l p : directive_shape l p -> keyword_leads l.
Proof. intros (ws & a & c & -> & Hws & _). now exists ws, (a ++ c). Qed.

Lemma leading_of_empty l : empty_path_line l -> keyword_leads l.
Proof. intros (ws & w & -> & Hws & _). now exists ws, w. Qed.

Lemma isIncludeDirective_leads l : isIncludeDirective l = true -> keyword_leads l.
Proof.
  unfold isIncludeDirective. rewrite test_exec.
  destruct (exec INCLUDE_DIRECTIVE_REGEX l) as [m|] eqn:E; [|discriminate].
  intros _.
  destruct (include_regex_sound _ E) as (ws & a & c & -> & Hws & _).
  now exists ws, (a ++ c).
Qed.

(** C3.  The directives of a scan are, in document order, the lines that
    match the directive pattern with a non-empty trimmed path token: there
    are as many directives as such lines, the k-th directive is built from
    the k-th such line and carries its 1-indexed number, the numbers
    increase strictly, and the lines in question are exactly those of
    directive shape. *)
Theorem directives_follow_lines (C B : jsstring) :
  let r := parse C B in
  let lines := split_on LF C in
  List.length (ParseResult.directives r) = List.length (filter has_path lines)
  /\ ParseResult.directives r
     = map (directive_of homeDir cwd B)
         (filter (fun nl => has_path (snd nl)) (numbered 0 lines))
  /\ StronglySorted lt (map IncludeDirective.lineNumber (ParseResult.directives r))
  /\ (forall d, In d (ParseResult.directives r) ->
        1 <= IncludeDirective.lineNumber d
        /\ nth_error lines (IncludeDirective.lineNumber d - 1)
           = Some (IncludeDirective.originalLine d)
        /\ has_path (IncludeDirective.originalLine d) = true)
  /\ (forall l, has_path l = true <-> exists p, directive_shape l p).
Proof.
  cbv zeta. split; [|split; [|split; [|split]]].
  - rewrite parseIncludeDirectives_filters. cbn [ParseResult.directives].
    rewrite length_map. apply filter_numbered_length.
  - now rewrite parseIncludeDirectives_filters.
  - rewrite directive_lineNumbers. apply filter_numbered_sorted.
  - intros d Hd. apply in_directives in Hd as (i & l & Hl & Hp & ->).
    cbn. split; [lia|]. split; [|exact Hp].
    replace (i + 1 - 1) with i by lia. exact Hl.
  - intros l. split.
    + intros H. exists (path_token l). now apply has_path_shape.
    + intros [p H]. now apply shape_has_path in H.
Qed.

(** C7.  No line number is shared by two entries of a scan result, be they
    directives or errors: every line yields one directive, or one error, or
    nothing. *)
Theorem line_yields_at_most_one (C B : jsstring) :
  let r := parse C B in
  NoDup (map IncludeDirective.lineNumber (ParseResult.directives r)
         ++ map ParseError.lineNumber (ParseResult.errors r))
  /\ (forall d e, In d (ParseResult.directives r) -> In e (ParseResult.errors r) ->
        IncludeDirective.lineNumber d <> ParseError.lineNumber e).
Proof.
  cbv zeta.
  assert (Hdis : forall d e,
            In d (ParseResult.directives (parse C B)) ->
            In e (ParseResult.errors (parse C B)) ->
            IncludeDirective.lineNumber d <> ParseError.lineNumber e).
  { intros d e Hd He E.
    apply in_directives in Hd as (i & l & Hl & Hp & ->).
    apply in_errors in He as (j & l' & Hl' & Hm & ->).
    cbn in E. assert (i = j) by lia. subst j.
    rewrite Hl in Hl'. injection Hl' as <-.
    unfold is_malformed in Hm. rewrite Hp in Hm. discriminate. }
  split; [|exact Hdis].
  assert (Hn : NoDup (map fst (numbered 0 (split_on LF C)))).
  { rewrite numbered_fst. apply seq_NoDup. }
  apply NoDup_app.
  - rewrite directive_lineNumbers. now apply NoDup_map_filter.
  - rewrite error_lineNumbers. now apply NoDup_map_filter.
  - intros n Hd He.
    apply in_map_iff in Hd as [d [<- Hd]].
    apply in_map_iff in He as [e [E He]].
    now apply (Hdis d e).
Qed.

(** C10.  [parseIncludeLine] answers exactly when [extractIncludePath]
    does, the raw path of its directive is the extracted path, and that
    path is the trimmed rest of the line after the keyword. *)
Theorem parseIncludeLine_extractIncludePath (l : jsstring) (n : nat) (B : jsstring) :
  (parseLine l n B <> None <-> extractIncludePath l <> None)
  /\ (forall d, parseLine l n B = Some d ->
        extractIncludePath l = Some (IncludeDirective.rawPath d))
  /\ (forall p, extractIncludePath l = Some p ->
        exists d, parseLine l n B = Some d /\ IncludeDirective.rawPath d = p)
  /\ (forall p, extractIncludePath l = Some p ->
        exists ws rest,
          l = ws ++ KEYWORD ++ rest /\ all_white ws /\ p = trim rest).
Proof.
  rewrite parseIncludeLine_has_path, extractIncludePath_has_path.
  destruct (has_path l) eqn:Hp.
  - split; [split; discriminate|]. split; [|split].
    + intros d H. injection H as <-. reflexivity.
    + intros p H. injection H as <-. eexists. split; reflexivity.
    + intros p H. injection H as <-. apply has_path_shape in Hp.
      destruct Hp as (ws & a & c & -> & Hws & Ha & _ & _ & _ & Hp & _).
      exists ws, (a ++ c). repeat split; auto.
      now rewrite trim_white_prefix.
  - split; [split; intros H; now contradiction H|].
    repeat split; discriminate.
Qed.

Lemma not_leading_no_path l : ~ keyword_leads l -> has_path l = false.
Proof.
  intros H. destruct (has_path l) eqn:E; [|reflexivity].
  exfalso. apply H. apply has_path_shape in E. eapply leading_of_shape; eauto.
Qed.

Lemma not_leading_not_malformed l : ~ keyword_leads l -> is_malformed l = false.
Proof.
  intros H. destruct (is_malformed l) eqn:E; [|reflexivity].
  exfalso. apply H. apply is_malformed_iff in E. now apply leading_of_empty.
Qed.

(** The first unit of a line that is not white space is determined. *)
Lemma first_black_unique ws : forall ws' c c' r r',
  all_white ws -> all_white ws' -> is_white c = false -> is_white c' = false ->
  ws ++ c :: r = ws' ++ c' :: r' -> ws = ws' /\ c = c' /\ r = r'.
Proof.
  induction ws as [|x ws IH]; intros [|y ws'] c c' r r' H H' Hc Hc' E.
  - injection E as -> ->. auto.
  - exfalso. injection E as -> _.
    unfold all_white in H'. simpl in H'. rewrite Hc in H'. discriminate.
  - exfalso. injection E as -> _.
    unfold all_white in H. simpl in H. rewrite Hc' in H. discriminate.
  - injection E as -> E.
    apply (all_white_app [y] ws) in H as [_ H].
    apply (all_white_app [y] ws') in H' as [_ H'].
    destruct (@IH ws' c c' r r' H H' Hc Hc' E) as (-> & -> & ->). auto.
Qed.

(** A line whose first unit after the white space is not [@] does not
    start with the keyword. *)
Lemma text_before_keyword ws c rest :
  all_white ws -> is_white c = false -> c <> 64%N ->
  ~ keyword_leads (ws ++ c :: rest).
Proof.
  intros Hws Hc Hne (ws' & rest' & E & Hws').
  change (KEYWORD ++ rest') with (64%N :: lit "include" ++ rest') in E.
  destruct (@first_black_unique ws ws' c 64%N rest _ Hws Hws' Hc
              keyword_not_white E) as (_ & Ec & _).
  contradiction.
Qed.

(** A line that starts with [@] and holds no white space is no directive. *)
Lemma legacy_line_rejected (p : jsstring) :
  forallb (fun c => negb (is_white c)) p = true ->
  isIncludeDirective (64%N :: p) = false.
Proof.
  intros Hp. destruct (isIncludeDirective (64%N :: p)) eqn:E; [|reflexivity].
  exfalso. unfold isIncludeDirective in E. rewrite test_exec in E.
  destruct (exec INCLUDE_DIRECTIVE_REGEX (64%N :: p)) as [m|] eqn:Em; [|discriminate].
  destruct (include_regex_sound _ Em) as (ws & a & c & El & Hws & Ha & Hne & _).
  destruct ws as [|w ws].
  - vm_compute in El. cbn in El.
    destruct a as [|x a]; [contradiction|].
    assert (Hin : In x p).
    { injection El as ->. cbn. do 7 right. now left. }
    rewrite forallb_forall in Hp. specialize (Hp x Hin).
    unfold all_white in Ha. simpl in Ha. apply andb_true_iff in Ha as [Hx _].
    rewrite Hx in Hp. discriminate.
  - injection El as <- _. unfold all_white in Hws. simpl in Hws. discriminate.
Qed.

(** C6.  A line in which the keyword does not lead (after optional white
    space, in lower case) is no directive for any entry point of the
    scanner, and a scan reports neither a directive nor an error for it;
    this covers the upper-case keyword, the keyword in mid-line, and the
    single-[@] lines of the older syntax. *)
Theorem no_directive_unless_keyword_leads :
  (forall l, ~ keyword_leads l ->
     isIncludeDirective l = false
     /\ extractIncludePath l = None
     /\ forall n B, parseLine l n B = None)
  /\ (forall C B i l, nth_error (split_on LF C) i = Some l -> ~ keyword_leads l ->
        (forall d, In d (ParseResult.directives (parse C B)) ->
           IncludeDirective.lineNumber d <> i + 1)
        /\ (forall e, In e (ParseResult.errors (parse C B)) ->
              ParseError.lineNumber e <> i + 1))
  /\ (forall ws c rest, all_white ws -> is_white c = false -> c <> 64%N ->
        isIncludeDirective (ws ++ c :: rest) = false)
  /\ (forall p, forallb (fun c => negb (is_white c)) p = true ->
        isIncludeDirective (lit "@" ++ p) = false)
  /\ isIncludeDirective (lit "@INCLUDE ./f.md") = false
  /\ isIncludeDirective (lit "@Include ./file.md") = false
  /\ isIncludeDirective (lit "text @include ./f.md") = false
  /\ isIncludeDirective (lit "@./file.md") = false
  /\ isIncludeDirective (lit "@~/config.md") = false
  /\ isIncludeDirective (lit "@/absolute/path.md") = false.
Proof.
  split; [|split; [|split; [|split]]].
  - intros l H. split; [|split].
    + destruct (isIncludeDirective l) eqn:E; [|reflexivity].
      exfalso. apply H. now apply isIncludeDirective_leads.
    + rewrite extractIncludePath_has_path. now rewrite not_leading_no_path.
    + intros n B. rewrite parseIncludeLine_has_path.
      now rewrite not_leading_no_path.
  - intros C B i l Hl H. split.
    + intros d Hd E. apply in_directives in Hd as (j & l' & Hl' & Hp & ->).
      cbn in E. assert (j = i) by lia. subst j.
      rewrite Hl in Hl'. injection Hl' as <-.
      rewrite not_leading_no_path in Hp by exact H. discriminate.
    + intros e He E. apply in_errors in He as (j & l' & Hl' & Hp & ->).
      cbn in E. assert (j = i) by lia. subst j.
      rewrite Hl in Hl'. injection Hl' as <-.
      rewrite not_leading_not_malformed in Hp by exact H. discriminate.
  - intros ws c rest Hws Hc Hne.
    destruct (isIncludeDirective (ws ++ c :: rest)) eqn:E; [|reflexivity].
    exfalso. apply isIncludeDirective_leads in E.
    now apply (@text_before_keyword ws c rest Hws Hc Hne).
  - intros p Hp. apply legacy_line_rejected. exact Hp.
  - repeat split; vm_compute; reflexivity.
Qed.

(** C4 (as amended).  A line that carries the keyword and nothing but white
    space after it, the bare keyword included, is reported by exactly the
    error with its number, its text and the message
    "Invalid @include directive: path cannot be empty", and yields no
    directive; no other line is reported; and the three-line text of the
    claim gives two errors, on lines 1 and 2, and one directive, on line 3. *)
Theorem empty_path_reported :
  (forall C B i l, nth_error (split_on LF C) i = Some l -> empty_path_line l ->
     In (ParseError.mk (i + 1) l EMPTY_PATH_MESSAGE) (ParseResult.errors (parse C B))
     /\ (forall e, In e (ParseResult.errors (parse C B)) ->
           ParseError.lineNumber e = i + 1 ->
           e = ParseError.mk (i + 1) l EMPTY_PATH_MESSAGE)
     /\ (forall d, In d (ParseResult.directives (parse C B)) ->
           IncludeDirective.lineNumber d <> i + 1))
  /\ (forall C B e, In e (ParseResult.errors (parse C B)) ->
        empty_path_line (ParseError.line e)
        /\ ParseError.message e = EMPTY_PATH_MESSAGE)
  /\ EMPTY_PATH_MESSAGE
     = lit "Invalid @include directive: " ++ lit "path cannot be empty"
  /\ (forall B,
        let r := parse (Resolver.join_lines
                          [lit "@include"; lit "@include   "; lit "@include ./ok.md"])
                   B in
        ParseResult.errors r
        = [ParseError.mk 1 (lit "@include") EMPTY_PATH_MESSAGE;
           ParseError.mk 2 (lit "@include   ") EMPTY_PATH_MESSAGE]
        /\ map (fun d => (IncludeDirective.lineNumber d, IncludeDirective.rawPath d))
             (ParseResult.directives r)
           = [(3, lit "./ok.md")]).
Proof.
  split; [|split; [|split]].
  - intros C B i l Hl He. apply is_malformed_iff in He.
    split; [|split].
    + apply in_errors. now exists i, l.
    + intros e Hin E. apply in_errors in Hin as (j & l' & Hl' & _ & ->).
      cbn in E. assert (j = i) by lia. subst j.
      rewrite Hl in Hl'. now injection Hl' as <-.
    + intros d Hd E. apply in_directives in Hd as (j & l' & Hl' & Hp & ->).
      cbn in E. assert (j = i) by lia. subst j.
      rewrite Hl in Hl'. injection Hl' as <-.
      unfold is_malformed in He. rewrite Hp in He. discriminate.
  - intros C B e He. apply in_errors in He as (j & l & _ & Hm & ->).
    split; [|reflexivity]. now apply is_malformed_iff.
  - reflexivity.
  - intros B. cbv zeta. rewrite parseIncludeDirectives_filters.
    cbn [ParseResult.errors ParseResult.directives]. rewrite map_map.
    split; vm_compute; reflexivity.
Qed.

Lemma startsWith_home_not_tilde (t : jsstring) :
  startsWith t (lit "~/") = true -> str_eqb t (lit "~") = false.
Proof.
  change (lit "~/") with [126%N; 47%N]. change (lit "~") with [126%N].
  destruct t as [|a [|b t]]; cbn; try discriminate.
  - now rewrite andb_false_r.
  - intros _. now rewrite andb_false_r.
Qed.

Lemma absolute_not_home (t : jsstring) :
  Path.isAbsolute t = true ->
  startsWith t (lit "~/") = false /\ str_eqb t (lit "~") = false.
Proof.
  change (lit "~/") with [126%N; 47%N]. change (lit "~") with [126%N].
  destruct t as [|a t]; [discriminate|]. cbn [Path.isAbsolute].
  intros H. apply ceq_eq in H. subst a. split; reflexivity.
Qed.

Lemma path_token_trimmed (l : jsstring) : trim (path_token l) = path_token l.
Proof.
  unfold path_token. destruct (exec INCLUDE_DIRECTIVE_REGEX l); [|reflexivity].
  apply trim_idem.
Qed.

(** What [normalizePath] returns when the base and the home directory are
    absolute. *)
Lemma normalizePath_absolute (t B : jsstring) :
  absolute B -> absolute homeDir ->
  absolute (normalizePath homeDir cwd t B)
  /\ (trim t <> lit "~" -> normalized (normalizePath homeDir cwd t B))
  /\ (trim t = lit "~" -> normalizePath homeDir cwd t B = homeDir).
Proof.
  intros HB Hh. unfold normalizePath.
  destruct (str_eqb (trim t) (lit "~")) eqn:Et.
  - rewrite orb_true_r. apply str_eqb_eq in Et.
    repeat split; auto. intros H. contradiction.
  - rewrite orb_false_r. apply str_eqb_neq in Et.
    destruct (startsWith (trim t) (lit "~/")).
    + destruct (join_absolute (slice_from (trim t) 2) Hh) as [Ha Hn].
      repeat split; auto. intros H. contradiction.
    + destruct (Path.isAbsolute (trim t)) eqn:Ea.
      * destruct (normalize_absolute_fixed Ea) as [Ha Hn].
        repeat split; auto. intros H. contradiction.
      * destruct (resolve_absolute cwd (trim t) HB) as (segs & Hs & ->).
        split; [apply absolute_path_absolute|]. split.
        -- intros _. apply normalize_canonical; [exact Hs|discriminate].
        -- intros H. contradiction.
Qed.

(** C5.  [normalizePath] follows its description: the input is trimmed
    first; the home token alone gives the home directory and the home token
    followed by a separator gives the home directory joined with the rest;
    an absolute path is normalized and not re-based; any other path is
    resolved against the base, which leaves plain segments only. *)
Theorem normalizePath_conforms (p B : jsstring) :
  absolute B ->
  normalizePath homeDir cwd p B = normalizePath homeDir cwd (trim p) B
  /\ normalizePath homeDir cwd (lit "~") B = homeDir
  /\ normalizePath homeDir cwd (lit "~/x") B = Path.join [homeDir; lit "x"]
  /\ (trim p = lit "~" -> normalizePath homeDir cwd p B = homeDir)
  /\ (startsWith (trim p) (lit "~/") = true ->
        normalizePath homeDir cwd p B
        = Path.join [homeDir; slice_from (trim p) 2])
  /\ (Path.isAbsolute (trim p) = true ->
        normalizePath homeDir cwd p B = Path.normalize (trim p))
  /\ normalizePath homeDir cwd (lit "/a//b/../c") B = lit "/a/c"
  /\ (startsWith (trim p) (lit "~/") = false -> trim p <> lit "~" ->
        Path.isAbsolute (trim p) = false ->
        normalizePath homeDir cwd p B = Path.resolve cwd [B; trim p]
        /\ exists segs, Forall plain_segment segs
                        /\ normalizePath homeDir cwd p B = absolute_path segs false).
Proof.
  intros HB. repeat apply conj.
  - unfold normalizePath. now rewrite trim_idem.
  - reflexivity.
  - reflexivity.
  - intros E. unfold normalizePath. rewrite E. reflexivity.
  - intros E. unfold normalizePath. rewrite E.
    now rewrite (startsWith_home_not_tilde _ E).
  - intros E. unfold normalizePath.
    destruct (absolute_not_home _ E) as [-> ->]. now rewrite E.
  - reflexivity.
  - intros E1 E2 E3.
    assert (E : normalizePath homeDir cwd p B = Path.resolve cwd [B; trim p]).
    { unfold normalizePath. rewrite E1, E3.
      apply str_eqb_neq in E2. now rewrite E2. }
    split; [exact E|]. rewrite E. now apply resolve_absolute.
Qed.

(** C8 (as amended).  With an absolute base and an absolute home directory
    every directive of the scanner has an absolute resolved path; the path
    is normalized whenever the raw path is not the home token alone, and
    for the home token alone it is the home directory as the environment
    gives it (so normalized exactly when that is). *)
Theorem resolvedPath_absolute (B : jsstring) :
  absolute B -> absolute homeDir ->
  (forall l n d, parseLine l n B = Some d ->
     absolute (IncludeDirective.resolvedPath d)
     /\ (IncludeDirective.rawPath d <> lit "~" ->
           normalized (IncludeDirective.resolvedPath d))
     /\ (IncludeDirective.rawPath d = lit "~" ->
           IncludeDirective.resolvedPath d = homeDir)
     /\ (normalized homeDir -> normalized (IncludeDirective.resolvedPath d)))
  /\ (forall C d, In d (ParseResult.directives (parse C B)) ->
        absolute (IncludeDirective.resolvedPath d)
        /\ (IncludeDirective.rawPath d <> lit "~" ->
              normalized (IncludeDirective.resolvedPath d))
        /\ (IncludeDirective.rawPath d = lit "~" ->
              IncludeDirective.resolvedPath d = homeDir)
        /\ (normalized homeDir -> normalized (IncludeDirective.resolvedPath d))).
Proof.
  intros HB Hh.
  assert (Hgen : forall nl,
            let d := directive_of homeDir cwd B nl in
            absolute (IncludeDirective.resolvedPath d)
            /\ (IncludeDirective.rawPath d <> lit "~" ->
                  normalized (IncludeDirective.resolvedPath d))
            /\ (IncludeDirective.rawPath d = lit "~" ->
                  IncludeDirective.resolvedPath d = homeDir)
            /\ (normalized homeDir -> normalized (IncludeDirective.resolvedPath d))).
  { intros nl. cbn.
    destruct (normalizePath_absolute (path_token (snd nl)) HB Hh) as (Ha & Hn & He).
    rewrite path_token_trimmed in Hn, He. repeat split; auto.
    intros Hnh.
    destruct (str_eqb (path_token (snd nl)) (lit "~")) eqn:E.
    - apply str_eqb_eq in E. rewrite (He E). exact Hnh.
    - apply str_eqb_neq in E. now apply Hn. }
  split.
  - intros l n d H. rewrite parseIncludeLine_has_path in H.
    destruct (has_path l); [|discriminate]. injection H as <-. apply Hgen.
  - intros C d H. apply in_directives in H as (i & l & _ & _ & ->). apply Hgen.
Qed.

End ScannerTheorems.


(* ================================================================== *)
(** ** Theorems: the scanner and its [RegExp] objects *)
(* ================================================================== *)

Section EffectFacts.

Variable homeDir : jsstring.
Variable cwd : jsstring.

(** The two objects with the flags of their literals and any [lastIndex]. *)
Variables n1 n2 : nat.

Local Abbreviation sigma := (Effects.declared_regexps n1 n2).

Lemma exec_include_pure l :
  Effects.exec_include l sigma = (exec INCLUDE_DIRECTIVE_REGEX l, sigma).
Proof. reflexivity. Qed.

Lemma exec_incomplete_pure l :
  Effects.exec_incomplete l sigma = (exec INCOMPLETE_INCLUDE_REGEX l, sigma).
Proof. reflexivity. Qed.

Lemma parseIncludeLine_pure l n B :
  Effects.parseIncludeLine homeDir cwd l n B sigma
  = (parseIncludeLine homeDir cwd l n B, sigma).
Proof.
  unfold Effects.parseIncludeLine, Effects.bind, Effects.ret, parseIncludeLine.
  rewrite exec_include_pure. reflexivity.
Qed.

Lemma scan_lines_pure B lines : forall i ds es,
  Effects.scan_lines homeDir cwd B lines i ds es sigma
  = (scan_lines homeDir cwd B lines i ds es, sigma).
Proof.
  induction lines as [|l lines IH]; intros i ds es; [reflexivity|].
  cbn [Effects.scan_lines scan_lines]. unfold Effects.bind at 1.
  rewrite exec_include_pure. rewrite test_exec.
  destruct (exec INCLUDE_DIRECTIVE_REGEX l) as [m|] eqn:E; cbn [Effects.is_match].
  - unfold Effects.bind. rewrite parseIncludeLine_pure.
    destruct (parseIncludeLine homeDir cwd l (i + 1) B); apply IH.
  - unfold Effects.bind. rewrite exec_incomplete_pure. rewrite test_exec.
    destruct (exec INCOMPLETE_INCLUDE_REGEX l); cbn [Effects.is_match]; apply IH.
Qed.

Lemma parseIncludeDirectives_pure C B :
  Effects.parseIncludeDirectives homeDir cwd C B sigma
  = (parseIncludeDirectives homeDir cwd C B, sigma).
Proof.
  unfold Effects.parseIncludeDirectives, Effects.bind, Effects.ret.
  rewrite scan_lines_pure. unfold parseIncludeDirectives.
  destruct (scan_lines homeDir cwd B (split_on LF C) 0 [] []). reflexivity.
Qed.

(** C9.  A scan leaves the two [RegExp] objects as it found them and its
    result depends on the content and the base only: two calls in a row
    give equal results, and the result keeps the content verbatim.  This
    holds from any [lastIndex], that of the module's own objects included. *)
Theorem scan_is_deterministic (C B : jsstring) :
  let first := Effects.parseIncludeDirectives homeDir cwd C B sigma in
  let second := Effects.parseIncludeDirectives homeDir cwd C B (snd first) in
  fst first = fst second
  /\ snd first = sigma /\ snd second = sigma
  /\ fst first = parseIncludeDirectives homeDir cwd C B
  /\ ParseResult.originalContent (fst first) = C
  /\ Effects.module_regexps = Effects.declared_regexps 0 0.
Proof.
  cbv zeta. rewrite parseIncludeDirectives_pure. cbn [fst snd].
  rewrite parseIncludeDirectives_pure. cbn [fst snd].
  repeat split. unfold parseIncludeDirectives.
  destruct (scan_lines homeDir cwd B (split_on LF C) 0 [] []). reflexivity.
Qed.

End EffectFacts.

(* ================================================================== *)
(** ** Theorems: the resolver *)
(* ================================================================== *)

Section ResolverTheorems.

Variable homeDir : jsstring.
Variable cwd : jsstring.
Variable message_of : ProcessError.kind -> jsstring -> jsstring.
Variable parse_error_file : jsstring -> jsstring.
Variable unexpanded : IncludeDirective.t -> jsstring.
Variable readFile : jsstring -> read_outcome.

Local Abbreviation parse := (parseIncludeDirectives homeDir cwd).
Local Abbreviation resolve_from :=
  (Resolver.resolve_from homeDir cwd message_of parse_error_file unexpanded readFile).
Local Abbreviation resolve :=
  (Resolver.resolve homeDir cwd message_of parse_error_file unexpanded).
Local Abbreviation expand :=
  (expand_directive homeDir cwd message_of parse_error_file unexpanded readFile).
Local Abbreviation reaches := (reaches homeDir cwd readFile).
Local Abbreviation includes := (includes homeDir cwd readFile).
Local Abbreviation text_reaches := (text_reaches homeDir cwd readFile).
Local Abbreviation circular d :=
  (Resolver.directive_error message_of ProcessError.circular_include d).

Lemma includedPaths_unfold rem anc content base :
  ProcessResult.includedPaths (resolve_from rem anc content base)
  = List.concat (map (fun d => snd (fst (expand rem anc d)))
                   (ParseResult.directives (parse content base))).
Proof. destruct rem; cbn [Resolver.resolve_from ProcessResult.includedPaths];
  rewrite map_map; reflexivity. Qed.

Lemma errors_unfold rem anc content base :
  ProcessResult.errors (resolve_from rem anc content base)
  = map (Resolver.scan_error parse_error_file base)
      (ParseResult.errors (parse content base))
    ++ List.concat (map (fun d => snd (expand rem anc d))
                      (ParseResult.directives (parse content base))).
Proof. destruct rem; cbn [Resolver.resolve_from ProcessResult.errors];
  rewrite map_map; reflexivity. Qed.

Lemma in_chain_In p anc : Resolver.in_chain p anc = true <-> In p anc.
Proof.
  unfold Resolver.in_chain. rewrite existsb_exists. split.
  - intros [x [Hx E]]. apply str_eqb_eq in E. now subst.
  - intros H. exists p. split; [exact H|apply str_eqb_refl].
Qed.

Lemma scan_errors_not_circular base l :
  filter is_circular (map (Resolver.scan_error parse_error_file base) l) = [].
Proof. induction l as [|e l IH]; [reflexivity|exact IH]. Qed.

Lemma text_reaches_file p text Q :
  readFile p = ReadOk text -> text_reaches text (Path.dirname p) Q -> reaches p Q.
Proof.
  intros Hr [H|[P [HP HQ]]].
  - apply reaches_step. now exists text.
  - apply reaches_more with (Q := P); [now exists text|exact HQ].
Qed.

(** An error of kind [circular_include] names a path of the ancestor chain
    or a file that includes itself in one step or more. *)
Lemma circular_only_on_cycles rem : forall anc content base e,
  In e (ProcessResult.errors (resolve_from rem anc content base)) ->
  is_circular e = true ->
  text_reaches content base (ProcessError.filePath e)
  /\ (In (ProcessError.filePath e) anc
      \/ reaches (ProcessError.filePath e) (ProcessError.filePath e)).
Proof.
  induction rem as [|rem IH]; intros anc content base e He Hc;
    rewrite errors_unfold in He; apply in_app_or in He as [He|He].
  - apply in_map_iff in He as [x [<- _]]. discriminate.
  - apply in_concat in He as [l [Hl He]].
    apply in_map_iff in Hl as [d [<- Hd]]. cbn in He.
    destruct He as [<-|[]]. discriminate.
  - apply in_map_iff in He as [x [<- _]]. discriminate.
  - apply in_concat in He as [l [Hl He]].
    apply in_map_iff in Hl as [d [<- Hd]].
    assert (Hin : In (IncludeDirective.resolvedPath d) (included_by homeDir cwd content base)).
    { unfold included_by. now apply in_map. }
    unfold expand_directive in He.
    destruct (Resolver.in_chain (IncludeDirective.resolvedPath d) anc) eqn:Ec.
    + cbn in He. destruct He as [<-|[]]. cbn.
      split; [now left|]. left. now apply in_chain_In.
    + destruct (readFile (IncludeDirective.resolvedPath d)) as [text| |] eqn:Er.
      * cbn [snd] in He. destruct (IH _ _ _ _ He Hc) as [Ht Hq].
        pose proof (text_reaches_file Er Ht) as Hreach.
        split.
        -- right. exists (IncludeDirective.resolvedPath d). now split.
        -- destruct Hq as [[E|Hq]|Hq]; auto.
           right. rewrite <- E at 1. exact Hreach.
      * cbn in He. destruct He as [<-|[]]. discriminate.
      * cbn in He. destruct He as [<-|[]]. discriminate.
Qed.

(** No included path belongs to the ancestor chain of the call. *)
Lemma included_not_ancestor rem : forall anc content base q,
  In q (ProcessResult.includedPaths (resolve_from rem anc content base)) ->
  ~ In q anc.
Proof.
  induction rem as [|rem IH]; intros anc content base q Hq;
    rewrite includedPaths_unfold in Hq;
    apply in_concat in Hq as [l [Hl Hq]];
    apply in_map_iff in Hl as [d [<- Hd]].
  - destruct Hq.
  - unfold expand_directive in Hq.
    destruct (Resolver.in_chain (IncludeDirective.resolvedPath d) anc) eqn:Ec;
      [destruct Hq|].
    destruct (readFile (IncludeDirective.resolvedPath d)) as [text| |];
      [|destruct Hq|destruct Hq].
    cbn [fst snd] in Hq. destruct Hq as [<-|Hq].
    + intros H. apply in_chain_In in H. congruence.
    + intros H. apply (IH _ _ _ _ Hq). now right.
Qed.

Lemma reaches_inv P R :
  reaches P R ->
  exists text Q,
    readFile P = ReadOk text
    /\ In Q (included_by homeDir cwd text (Path.dirname P))
    /\ (Q = R \/ reaches Q R).
Proof.
  intros H. destruct H as [P Q [text [Hr Hi]]|P Q R [text [Hr Hi]] H].
  - exists text, Q. auto.
  - exists text, Q. auto.
Qed.

(** A file that includes nothing reaches nothing. *)
Lemma leaf_reaches_nothing P text R :
  readFile P = ReadOk text ->
  included_by homeDir cwd text (Path.dirname P) = [] ->
  ~ reaches P R.
Proof.
  intros Hr Hi H. apply reaches_inv in H as (text' & Q & Hr' & HQ & _).
  rewrite Hr in Hr'. injection Hr' as <-. rewrite Hi in HQ. destruct HQ.
Qed.

Lemma expand_included d anc rem text :
  Resolver.in_chain (IncludeDirective.resolvedPath d) anc = false ->
  readFile (IncludeDirective.resolvedPath d) = ReadOk text ->
  expand (S rem) anc d =
  let p := IncludeDirective.resolvedPath d in
  let r := resolve_from rem (p :: anc) text (Path.dirname p) in
  (ProcessResult.content r, p :: ProcessResult.includedPaths r,
   ProcessResult.errors r).
Proof. intros Hc Hr. unfold expand_directive. now rewrite Hc, Hr. Qed.

Lemma expand_circular d anc rem :
  Resolver.in_chain (IncludeDirective.resolvedPath d) anc = true ->
  expand (S rem) anc d = (unexpanded d, [], [circular d]).
Proof. intros Hc. unfold expand_directive. now rewrite Hc. Qed.

(** A path included by a call is included by its text, directly or
    through the files it includes. *)
Lemma included_reached rem : forall anc content base q,
  In q (ProcessResult.includedPaths (resolve_from rem anc content base)) ->
  text_reaches content base q.
Proof.
  induction rem as [|rem IH]; intros anc content base q Hq;
    rewrite includedPaths_unfold in Hq;
    apply in_concat in Hq as [l [Hl Hq]];
    apply in_map_iff in Hl as [d [<- Hd]].
  - destruct Hq.
  - assert (Hin : In (IncludeDirective.resolvedPath d)
                    (included_by homeDir cwd content base)).
    { unfold included_by. now apply in_map. }
    unfold expand_directive in Hq.
    destruct (Resolver.in_chain (IncludeDirective.resolvedPath d) anc);
      [destruct Hq|].
    destruct (readFile (IncludeDirective.resolvedPath d)) as [text| |] eqn:Er;
      [|destruct Hq|destruct Hq].
    cbn [fst snd] in Hq. destruct Hq as [<-|Hq].
    + now left.
    + right. exists (IncludeDirective.resolvedPath d). split; [exact Hin|].
      apply (text_reaches_file Er). exact (IH _ _ _ _ Hq).
Qed.

Lemma circular_at_split F e :
  circular_at F e = true -> is_circular e = true /\ ProcessError.filePath e = F.
Proof.
  unfold circular_at. intros H. apply andb_true_iff in H as [Hc Hf].
  split; [exact Hc|now apply str_eqb_eq].
Qed.

Lemma scan_errors_not_circular_at F base l :
  filter (circular_at F) (map (Resolver.scan_error parse_error_file base) l) = [].
Proof. induction l as [|e l IH]; [reflexivity|exact IH]. Qed.

Lemma filter_nil_iff (A : Type) (P : A -> bool) (l : list A) :
  (forall x, In x l -> P x = false) -> filter P l = [].
Proof.
  induction l as [|x l IH]; intros H; [reflexivity|]. cbn [filter].
  rewrite (H x) by now left. apply IH. intros y Hy. apply H. now right.
Qed.

(** A directive whose file is not [F] and does not reach [F] contributes,
    at any depth and under any ancestor chain, neither a circular error
    that names [F] nor an inclusion of [F]. *)
Lemma quiet_directive F d' rem anc :
  IncludeDirective.resolvedPath d' <> F ->
  ~ reaches (IncludeDirective.resolvedPath d') F ->
  filter (circular_at F) (snd (expand rem anc d')) = []
  /\ ~ In F (snd (fst (expand rem anc d'))).
Proof.
  intros Hne Hnr.
  assert (Hneb : str_eqb (IncludeDirective.resolvedPath d') F = false)
    by now apply str_eqb_neq.
  destruct rem as [|rem].
  - split; [reflexivity|intros []].
  - unfold expand_directive.
    destruct (Resolver.in_chain (IncludeDirective.resolvedPath d') anc).
    + split; [|intros []]. cbn [snd Resolver.skipped filter].
      unfold circular_at. cbn [Resolver.directive_error ProcessError.filePath].
      now rewrite Hneb, andb_false_r.
    + destruct (readFile (IncludeDirective.resolvedPath d')) as [text| |] eqn:Er.
      * cbn [fst snd]. split.
        -- apply filter_nil_iff. intros e He.
           destruct (circular_at F e) eqn:Ec; [exfalso|reflexivity].
           apply circular_at_split in Ec as [Hc Hf].
           destruct (circular_only_on_cycles _ _ _ _ _ He Hc) as [Ht _].
           rewrite Hf in Ht. exact (Hnr (text_reaches_file Er Ht)).
        -- intros [E|Hin]; [now apply Hne|].
           apply included_reached in Hin.
           exact (Hnr (text_reaches_file Er Hin)).
      * split; [reflexivity|intros []].
      * split; [reflexivity|intros []].
Qed.

Lemma quiet_directives F l rem anc :
  (forall d', In d' l ->
     IncludeDirective.resolvedPath d' <> F
     /\ ~ reaches (IncludeDirective.resolvedPath d') F) ->
  filter (circular_at F)
    (List.concat (map (fun d => snd (expand rem anc d)) l)) = []
  /\ ~ In F (List.concat (map (fun d => snd (fst (expand rem anc d))) l)).
Proof.
  induction l as [|x l IH]; intros H; [split; [reflexivity|intros []]|].
  destruct (H x (or_introl eq_refl)) as [Hne Hnr].
  destruct (@quiet_directive F x rem anc Hne Hnr) as [Hq Hi].
  destruct IH as [IHq IHi]; [intros y Hy; apply H; now right|].
  cbn [map List.concat]. split.
  - now rewrite filter_app, Hq, IHq.
  - intros Hin. apply in_app_or in Hin as [Hin|Hin]; auto.
Qed.

(** C1 (as amended).  Let one directive [d] of file F resolve to F itself
    and let every other directive of F resolve to a file that is not F and
    does not reach F; let F be readable and the depth limit be 2 or more.
    A top-level resolve of F's text returns, and its errors hold exactly
    one [circular_include] error that names F, the one of [d]: F is
    included once, at the top, and the occurrence of [d] met inside that
    inclusion is not expanded.  When [d] is the only directive this is the
    only [circular_include] error of the result and F the only included
    path.  When F is already in the ancestor chain handed to the call (and
    the limit is 1 or more) F is not included at all and the same single
    error names it. *)
Theorem self_inclusion_detected (F content : jsstring) (d : IncludeDirective.t)
    (pre post : list IncludeDirective.t) (maxDepth : nat) :
  readFile F = ReadOk content ->
  ParseResult.directives (parse content (Path.dirname F)) = pre ++ d :: post ->
  IncludeDirective.resolvedPath d = F ->
  (forall d', In d' (pre ++ post) ->
     IncludeDirective.resolvedPath d' <> F
     /\ ~ reaches (IncludeDirective.resolvedPath d') F) ->
  2 <= maxDepth ->
  let scan_errors :=
    map (Resolver.scan_error parse_error_file (Path.dirname F))
      (ParseResult.errors (parse content (Path.dirname F))) in
  let r := resolve content (Path.dirname F)
             (ProcessOptions.mk readFile [] maxDepth 0) in
  filter (circular_at F) (ProcessResult.errors r) = [circular d]
  /\ ProcessError.filePath (circular d) = F
  /\ expand (maxDepth - 1) [F] d
     = Resolver.skipped message_of unexpanded ProcessError.circular_include d
  /\ count_occ jsstring_eq_dec (ProcessResult.includedPaths r) F = 1
  /\ (pre = [] -> post = [] ->
        filter is_circular (ProcessResult.errors r) = [circular d]
        /\ ProcessResult.errors r = scan_errors ++ scan_errors ++ [circular d]
        /\ ProcessResult.includedPaths r = [F])
  /\ (forall anc limit, In F anc -> 1 <= limit ->
        let r' := resolve content (Path.dirname F)
                    (ProcessOptions.mk readFile anc limit 0) in
        filter (circular_at F) (ProcessResult.errors r') = [circular d]
        /\ ~ In F (ProcessResult.includedPaths r')
        /\ (pre = [] -> post = [] ->
              ProcessResult.errors r' = scan_errors ++ [circular d]
              /\ ProcessResult.includedPaths r' = [])).
Proof.
  intros Hread Hds Hself Hothers Hdepth. cbv zeta. unfold Resolver.resolve.
  cbn [ProcessOptions.readFile ProcessOptions.maxDepth
       ProcessOptions.currentDepth ProcessOptions.includedPaths].
  rewrite Nat.sub_0_r.
  destruct maxDepth as [|[|k]]; try lia.
  replace (S (S k) - 1) with (S k) by lia.
  assert (Hpre : forall d', In d' pre ->
            IncludeDirective.resolvedPath d' <> F
            /\ ~ reaches (IncludeDirective.resolvedPath d') F).
  { intros d' Hd. apply Hothers, in_or_app. now left. }
  assert (Hpost : forall d', In d' post ->
            IncludeDirective.resolvedPath d' <> F
            /\ ~ reaches (IncludeDirective.resolvedPath d') F).
  { intros d' Hd. apply Hothers, in_or_app. now right. }
  assert (Hin : Resolver.in_chain (IncludeDirective.resolvedPath d) [F] = true).
  { apply in_chain_In. left. now symmetry. }
  assert (Hout : Resolver.in_chain (IncludeDirective.resolvedPath d) [] = false)
    by reflexivity.
  assert (Hread' : readFile (IncludeDirective.resolvedPath d) = ReadOk content)
    by now rewrite Hself.
  assert (Hat : circular_at F (circular d) = true).
  { unfold circular_at. cbn [Resolver.directive_error ProcessError.filePath].
    rewrite Hself, str_eqb_refl. reflexivity. }
  (* the errors and the paths of a call, by the three groups of directives *)
  assert (Herr : forall rem anc,
            ProcessResult.errors (resolve_from rem anc content (Path.dirname F))
            = map (Resolver.scan_error parse_error_file (Path.dirname F))
                (ParseResult.errors (parse content (Path.dirname F)))
              ++ List.concat (map (fun x => snd (expand rem anc x)) pre)
              ++ snd (expand rem anc d)
              ++ List.concat (map (fun x => snd (expand rem anc x)) post)).
  { intros rem anc. rewrite errors_unfold, Hds, map_app, concat_app.
    reflexivity. }
  assert (Hpaths : forall rem anc,
            ProcessResult.includedPaths
              (resolve_from rem anc content (Path.dirname F))
            = List.concat (map (fun x => snd (fst (expand rem anc x))) pre)
              ++ snd (fst (expand rem anc d))
              ++ List.concat (map (fun x => snd (fst (expand rem anc x))) post)).
  { intros rem anc. rewrite includedPaths_unfold, Hds, map_app, concat_app.
    reflexivity. }
  assert (Hinner : filter (circular_at F)
                     (ProcessResult.errors
                        (resolve_from (S k) [F] content (Path.dirname F)))
                   = [circular d]).
  { rewrite Herr, !filter_app, scan_errors_not_circular_at.
    rewrite (proj1 (@quiet_directives F pre (S k) [F] Hpre)).
    rewrite (proj1 (@quiet_directives F post (S k) [F] Hpost)).
    rewrite (@expand_circular d [F] _ Hin). cbn [snd filter app].
    now rewrite Hat. }
  assert (Htop : expand (S (S k)) [] d
                 = (ProcessResult.content
                      (resolve_from (S k) [F] content (Path.dirname F)),
                    F :: ProcessResult.includedPaths
                           (resolve_from (S k) [F] content (Path.dirname F)),
                    ProcessResult.errors
                      (resolve_from (S k) [F] content (Path.dirname F)))).
  { rewrite (@expand_included d [] _ content Hout Hread'). cbv zeta.
    now rewrite Hself. }
  repeat apply conj.
  - rewrite Herr, !filter_app, scan_errors_not_circular_at.
    rewrite (proj1 (@quiet_directives F pre (S (S k)) [] Hpre)).
    rewrite (proj1 (@quiet_directives F post (S (S k)) [] Hpost)).
    rewrite Htop. cbn [snd]. rewrite Hinner. reflexivity.
  - exact Hself.
  - exact (@expand_circular d [F] k Hin).
  - rewrite Hpaths, Htop. cbn [fst snd]. rewrite !count_occ_app.
    rewrite (proj1 (count_occ_not_In jsstring_eq_dec _ F)
               (proj2 (@quiet_directives F pre (S (S k)) [] Hpre))).
    rewrite (proj1 (count_occ_not_In jsstring_eq_dec _ F)
               (proj2 (@quiet_directives F post (S (S k)) [] Hpost))).
    rewrite count_occ_cons_eq by reflexivity.
    rewrite (proj1 (count_occ_not_In jsstring_eq_dec _ F)); [reflexivity|].
    intros H. apply included_not_ancestor in H. apply H. now left.
  - intros -> ->.
    assert (Hall : ProcessResult.errors
                     (resolve_from (S (S k)) [] content (Path.dirname F))
                   = map (Resolver.scan_error parse_error_file (Path.dirname F))
                       (ParseResult.errors (parse content (Path.dirname F)))
                     ++ map (Resolver.scan_error parse_error_file (Path.dirname F))
                          (ParseResult.errors (parse content (Path.dirname F)))
                     ++ [circular d]).
    { rewrite Herr, Htop. cbn [map List.concat snd app]. rewrite app_nil_r.
      rewrite Herr, (@expand_circular d [F] _ Hin).
      cbn [map List.concat snd app]. reflexivity. }
    split; [|split].
    + rewrite Hall, !filter_app, !scan_errors_not_circular. reflexivity.
    + exact Hall.
    + rewrite Hpaths, Htop. cbn [map List.concat fst snd app].
      rewrite app_nil_r, Hpaths, (@expand_circular d [F] _ Hin). reflexivity.
  - intros anc limit Hanc Hlimit.
    assert (Hc : Resolver.in_chain (IncludeDirective.resolvedPath d) anc = true).
    { apply in_chain_In. now rewrite Hself. }
    rewrite Nat.sub_0_r. destruct limit as [|j]; [lia|].
    split; [|split].
    + rewrite Herr, !filter_app, scan_errors_not_circular_at.
      rewrite (proj1 (@quiet_directives F pre (S j) anc Hpre)).
      rewrite (proj1 (@quiet_directives F post (S j) anc Hpost)).
      rewrite (@expand_circular d anc _ Hc). cbn [snd filter app].
      now rewrite Hat.
    + intros H. apply included_not_ancestor in H. now apply H.
    + intros -> ->. rewrite Herr, Hpaths, (@expand_circular d anc _ Hc).
      cbn [map List.concat fst snd app]. split; reflexivity.
Qed.

(** C2.  Let two directives of a document resolve to the same readable
    file G, in a top-level resolve with a depth limit of 1 or more, and let
    no file of G's inclusion subtree, G included, include itself in one
    step or more.  Then both occurrences are expanded, each contributing G
    followed by the same inclusions (G not among them) and the same errors
    (no [circular_include] among them); no [circular_include] error of the
    result names G or a file of its subtree; and when the two directives
    are all the document has, G stands exactly twice in [includedPaths] and
    the result holds no [circular_include] error at all. *)
Theorem diamond_inclusion (content base G g : jsstring)
    (d1 d2 : IncludeDirective.t) (pre mid post : list IncludeDirective.t)
    (maxDepth : nat) :
  ParseResult.directives (parse content base) = pre ++ d1 :: mid ++ d2 :: post ->
  IncludeDirective.resolvedPath d1 = G ->
  IncludeDirective.resolvedPath d2 = G ->
  readFile G = ReadOk g ->
  1 <= maxDepth ->
  (forall Q, Q = G \/ reaches G Q -> ~ reaches Q Q) ->
  let r := resolve content base (ProcessOptions.mk readFile [] maxDepth 0) in
  (exists sub errs l1 l2 l3 e1 e2 e3,
      ProcessResult.includedPaths r
      = l1 ++ (G :: sub) ++ l2 ++ (G :: sub) ++ l3
      /\ ProcessResult.errors r = e1 ++ errs ++ e2 ++ errs ++ e3
      /\ ~ In G sub
      /\ filter is_circular errs = []
      /\ (pre = [] -> l1 = []) /\ (mid = [] -> l2 = []) /\ (post = [] -> l3 = []))
  /\ (forall e, In e (ProcessResult.errors r) -> is_circular e = true ->
        ProcessError.filePath e <> G /\ ~ reaches G (ProcessError.filePath e))
  /\ (pre = [] -> mid = [] -> post = [] ->
        count_occ jsstring_eq_dec (ProcessResult.includedPaths r) G = 2
        /\ filter is_circular (ProcessResult.errors r) = []).
Proof.
  intros Hds H1 H2 Hread Hdepth Hacyc. cbv zeta. unfold Resolver.resolve.
  cbn [ProcessOptions.readFile ProcessOptions.maxDepth
       ProcessOptions.currentDepth ProcessOptions.includedPaths].
  rewrite Nat.sub_0_r. destruct maxDepth as [|k]; [lia|].
  set (inner := resolve_from k [G] g (Path.dirname G)).
  set (sub := ProcessResult.includedPaths inner).
  set (errs := ProcessResult.errors inner).
  assert (Hsub : ~ In G sub).
  { intros H. apply included_not_ancestor in H. apply H. now left. }
  assert (Herrs : filter is_circular errs = []).
  { destruct (filter is_circular errs) as [|e l] eqn:Ef; [reflexivity|].
    exfalso.
    assert (He : In e (filter is_circular errs)) by (rewrite Ef; now left).
    apply filter_In in He as [He Hc].
    destruct (circular_only_on_cycles _ _ _ _ _ He Hc) as [Ht Hq].
    pose proof (text_reaches_file Hread Ht) as Hreach.
    destruct Hq as [[E|[]]|Hq].
    - apply (Hacyc G); [now left|]. now rewrite E at 2.
    - apply (Hacyc (ProcessError.filePath e)); auto. }
  assert (Hexp : forall d, IncludeDirective.resolvedPath d = G ->
            expand (S k) [] d = (ProcessResult.content inner, G :: sub, errs)).
  { intros d Hd. rewrite (@expand_included d [] k g).
    - cbv zeta. now rewrite Hd.
    - reflexivity.
    - now rewrite Hd. }
  assert (Hpaths : ProcessResult.includedPaths
                     (resolve_from (S k) [] content base)
                   = List.concat (map (fun d => snd (fst (expand (S k) [] d))) pre)
                     ++ (G :: sub)
                     ++ List.concat (map (fun d => snd (fst (expand (S k) [] d))) mid)
                     ++ (G :: sub)
                     ++ List.concat (map (fun d => snd (fst (expand (S k) [] d))) post)).
  { rewrite includedPaths_unfold, Hds.
    rewrite map_app, concat_app. cbn [map List.concat].
    rewrite map_app, concat_app. cbn [map List.concat].
    rewrite (Hexp d1 H1), (Hexp d2 H2). cbn [fst snd].
    now rewrite <- ?app_assoc. }
  assert (Herr : ProcessResult.errors (resolve_from (S k) [] content base)
                 = (map (Resolver.scan_error parse_error_file base)
                      (ParseResult.errors (parse content base))
                    ++ List.concat (map (fun d => snd (expand (S k) [] d)) pre))
                   ++ errs
                   ++ List.concat (map (fun d => snd (expand (S k) [] d)) mid)
                   ++ errs
                   ++ List.concat (map (fun d => snd (expand (S k) [] d)) post)).
  { rewrite errors_unfold, Hds.
    rewrite map_app, concat_app. cbn [map List.concat].
    rewrite map_app, concat_app. cbn [map List.concat].
    rewrite (Hexp d1 H1), (Hexp d2 H2). cbn [fst snd].
    now rewrite <- ?app_assoc. }
  assert (Hcirc : forall e,
            In e (ProcessResult.errors (resolve_from (S k) [] content base)) ->
            is_circular e = true ->
            text_reaches content base (ProcessError.filePath e)
            /\ ProcessError.filePath e <> G
            /\ ~ reaches G (ProcessError.filePath e)).
  { intros e He Hc.
    destruct (circular_only_on_cycles _ _ _ _ _ He Hc) as [Ht [[]|Hcyc]].
    split; [exact Ht|]. split.
    - intros E. apply (Hacyc (ProcessError.filePath e)); auto.
    - intros Hr. apply (Hacyc (ProcessError.filePath e)); auto. }
  repeat apply conj.
  - exists sub, errs. do 6 eexists. split; [exact Hpaths|].
    split; [exact Herr|]. split; [exact Hsub|]. split; [exact Herrs|].
    split; [|split]; intros ->; reflexivity.
  - intros e He Hc. destruct (Hcirc e He Hc) as (_ & Hn & Hr). now split.
  - intros -> -> ->. split.
    { rewrite Hpaths. cbn [map List.concat app].
      cbn [count_occ]. destruct (jsstring_eq_dec G G) as [_|Hn]; [|contradiction].
      rewrite count_occ_app. cbn [count_occ].
      destruct (jsstring_eq_dec G G) as [_|Hn]; [|contradiction].
      rewrite app_nil_r.
      rewrite (proj1 (count_occ_not_In jsstring_eq_dec sub G) Hsub). reflexivity. }
    destruct (filter is_circular
                (ProcessResult.errors (resolve_from (S k) [] content base)))
      as [|e l] eqn:Ef; [reflexivity|]. exfalso.
    assert (He : In e (filter is_circular
               (ProcessResult.errors (resolve_from (S k) [] content base))))
      by (rewrite Ef; now left).
    apply filter_In in He as [He Hc].
    destruct (Hcirc e He Hc) as (Ht & Hn & Hr).
    destruct Ht as [Hi|[P [Hi HP]]]; unfold included_by in Hi;
      rewrite Hds in Hi; cbn [app map In] in Hi; rewrite H1, H2 in Hi;
      destruct Hi as [E|[E|[]]]; subst; auto.
Qed.

End ResolverTheorems.


(* ================================================================== *)
(** ** Further lemmas: trimming and splitting *)
(* ================================================================== *)

Section MoreStringFacts.

Lemma dropWhile_black (p : char16 -> bool) (s : jsstring) (x : char16)
    (t : jsstring) :
  dropWhile p s = x :: t -> p x = false.
Proof.
  induction s as [|y s IH]; simpl; [discriminate|].
  destruct (p y) eqn:E; [exact IH|]. intros H. injection H as -> _. exact E.
Qed.

Lemma dropWhile_app_black (p : char16 -> bool) (c w : jsstring) :
  dropWhile p c <> [] -> dropWhile p (c ++ w) = dropWhile p c ++ w.
Proof.
  induction c as [|x c IH]; simpl; [contradiction|].
  destruct (p x); [exact IH|reflexivity].
Qed.

Lemma trimEnd_white (c w : jsstring) :
  all_white w -> trimEnd (c ++ w) = trimEnd c.
Proof.
  intros H. unfold trimEnd. rewrite rev_app_distr, dropWhile_all; [reflexivity|].
  unfold all_white in H. rewrite forallb_forall in *. intros x Hx.
  apply H. now apply in_rev.
Qed.

(** White space after a text that is not all white space is trimmed away. *)
Lemma trim_white_suffix (c w : jsstring) :
  trim c <> [] -> all_white w -> trim (c ++ w) = trim c.
Proof.
  intros Hc Hw. unfold trim, trimStart in *.
  rewrite dropWhile_app_black.
  - now apply trimEnd_white.
  - intros E. rewrite E in Hc. now apply Hc.
Qed.

(** A text is its trimmed text between two runs of white space. *)
Lemma trim_split (s : jsstring) :
  exists w1 w2, s = w1 ++ trim s ++ w2 /\ all_white w1 /\ all_white w2.
Proof.
  destruct (dropWhile_split is_white s) as [w1 [E1 H1]].
  destruct (trimEnd_split (trimStart s)) as [w2 [E2 H2]].
  exists w1, w2. repeat split; auto.
  unfold trim. rewrite <- E2. exact E1.
Qed.

(** A trimmed text that is not empty starts and ends with a unit that is
    not white space. *)
Lemma trim_ends_black (s : jsstring) :
  trim s <> [] ->
  is_white (hd 0%N (trim s)) = false /\ is_white (last (trim s) 0%N) = false.
Proof.
  intros Hne. split.
  - destruct (trimEnd_split (trimStart s)) as [w [E _]].
    fold (trim s) in E. destruct (trim s) as [|h t]; [contradiction|].
    simpl. unfold trimStart in E.
    apply (@dropWhile_black is_white s h (t ++ w)). exact E.
  - unfold trim, trimEnd in *.
    destruct (dropWhile is_white (rev (trimStart s))) as [|x t] eqn:E;
      [contradiction|].
    simpl. rewrite last_last. eapply dropWhile_black; eauto.
Qed.

Lemma split_on_nonempty (sep : char16) (s : jsstring) : split_on sep s <> [].
Proof.
  destruct s as [|c s]; simpl; [discriminate|].
  destruct (ceq c sep); [discriminate|].
  destruct (split_on sep s); discriminate.
Qed.

(** Where the [i]-th piece of a split sits in the text. *)
Lemma split_on_locate (sep : char16) (s : jsstring) : forall i l,
  nth_error (split_on sep s) i = Some l ->
  exists pre post,
    s = pre ++ l ++ post
    /\ count_occ N.eq_dec pre sep = i
    /\ (pre = [] \/ exists pre', pre = pre' ++ [sep])
    /\ (post = [] \/ exists post', post = sep :: post')
    /\ ~ In sep l.
Proof.
  induction s as [|c s IH]; intros i l H.
  - destruct i as [|[|i]]; try discriminate. injection H as <-.
    exists [], []. repeat split; auto.
  - simpl in H. destruct (ceq c sep) eqn:Ec.
    + apply ceq_eq in Ec. subst c. destruct i as [|j].
      * injection H as <-. exists [], (sep :: s).
        repeat split; auto. right. now exists s.
      * simpl in H. destruct (IH _ _ H) as (pre & post & E & Hc & Hp & Hq & Hn).
        exists (sep :: pre), post. repeat split; auto.
        -- simpl. now rewrite E.
        -- simpl. destruct (N.eq_dec sep sep); [now rewrite Hc|contradiction].
        -- right. destruct Hp as [->|[pre' ->]].
           ++ now exists [].
           ++ now exists (sep :: pre').
    + apply ceq_neq in Ec.
      destruct (split_on sep s) as [|piece pieces] eqn:Es.
      { exfalso. now apply (split_on_nonempty sep s). }
      destruct i as [|j].
      * injection H as <-.
        destruct (IH 0 piece eq_refl) as (pre & post & E & Hc & Hp & Hq & Hn).
        assert (pre = []) as ->.
        { destruct Hp as [->|[pre' ->]]; [reflexivity|].
          rewrite count_occ_app in Hc. simpl in Hc.
          destruct (N.eq_dec sep sep); [lia|contradiction]. }
        exists [], post. repeat split; auto.
        -- simpl in *. now rewrite E.
        -- intros [Hin|Hin]; [now apply Ec|now apply Hn].
      * simpl in H.
        destruct (IH (S j) l H) as (pre & post & E & Hc & Hp & Hq & Hn).
        exists (c :: pre), post. repeat split; auto.
        -- simpl. now rewrite E.
        -- simpl. destruct (N.eq_dec c sep); [contradiction|exact Hc].
        -- right. destruct Hp as [->|[pre' ->]]; [discriminate|].
           now exists (c :: pre').
Qed.

(** Splitting two texts joined by the separator. *)
Lemma split_on_join (sep : char16) (a b : jsstring) :
  split_on sep (a ++ sep :: b) = split_on sep a ++ split_on sep b.
Proof.
  induction a as [|c a IH]; simpl.
  - now rewrite ceq_refl.
  - destruct (ceq c sep); [now rewrite IH|]. rewrite IH.
    destruct (split_on sep a) as [|piece pieces] eqn:Es; [|reflexivity].
    exfalso. now apply (split_on_nonempty sep a).
Qed.

End MoreStringFacts.

(* ================================================================== *)
(** ** Further theorems: the scanner *)
(* ================================================================== *)

Section ScannerBeyond.

Variable homeDir : jsstring.
Variable cwd : jsstring.

Local Abbreviation parse := (parseIncludeDirectives homeDir cwd).
Local Abbreviation parseLine := (parseIncludeLine homeDir cwd).

Lemma last_of_app (A : Type) (a c : list A) (d : A) :
  c <> [] -> last (a ++ c) d = last c d /\ In (last c d) c.
Proof.
  intros Hc. destruct (exists_last Hc) as [c' [z ->]].
  rewrite app_assoc, !last_last. split; [reflexivity|].
  apply in_or_app. right. now left.
Qed.

Lemma no_terminator_last (c : jsstring) :
  c <> [] -> no_terminator c -> is_line_terminator (last c 0%N) = false.
Proof.
  intros Hc Hn. destruct (@last_of_app _ [] c 0%N Hc) as [_ Hin].
  unfold no_terminator in Hn. rewrite forallb_forall in Hn.
  specialize (Hn _ Hin). unfold cls_dot in Hn.
  now apply negb_true_iff in Hn.
Qed.

Lemma isIncludeDirective_iff (l : jsstring) :
  isIncludeDirective l = true <->
  exists ws a c,
    l = ws ++ KEYWORD ++ a ++ c /\ all_white ws /\ all_white a /\ a <> []
    /\ c <> [] /\ no_terminator c.
Proof.
  unfold isIncludeDirective. rewrite test_exec. split.
  - destruct (exec INCLUDE_DIRECTIVE_REGEX l) as [m|] eqn:E; [|discriminate].
    intros _.
    destruct (include_regex_sound _ E) as (ws & a & c & El & Hws & Ha & Hne & Hc & Hd & _).
    exists ws, a, c. auto 10.
  - intros (ws & a & c & -> & Hws & Ha & Hne & Hc & Hd).
    pose proof (include_regex_complete Hws Ha Hne Hc Hd) as H.
    destruct (exec INCLUDE_DIRECTIVE_REGEX (ws ++ KEYWORD ++ a ++ c));
      [reflexivity|contradiction].
Qed.

(** X1.  [isIncludeDirective] holds exactly for the lines made of optional
    white space, the keyword, white space, and a non-empty rest free of
    line terminators.  It holds whenever [extractIncludePath] answers, and
    it holds without a path exactly for the keyword followed by two or more
    white-space units the last of which is no line terminator. *)
Theorem isIncludeDirective_shape (l : jsstring) :
  (isIncludeDirective l = true <->
     exists ws a c,
       l = ws ++ KEYWORD ++ a ++ c /\ all_white ws /\ all_white a /\ a <> []
       /\ c <> [] /\ no_terminator c)
  /\ (extractIncludePath l <> None -> isIncludeDirective l = true)
  /\ (isIncludeDirective l = true /\ extractIncludePath l = None <->
        exists ws w,
          l = ws ++ KEYWORD ++ w /\ all_white ws /\ all_white w
          /\ 2 <= List.length w /\ is_line_terminator (last w 0%N) = false).
Proof.
  split; [apply isIncludeDirective_iff|]. split.
  - rewrite extractIncludePath_has_path.
    destruct (has_path l) eqn:Hp; [|intros H; now contradiction H].
    intros _. unfold isIncludeDirective. now apply has_path_test.
  - rewrite extractIncludePath_has_path. split.
    + intros [Hi He]. apply isIncludeDirective_iff in Hi.
      destruct Hi as (ws & a & c & -> & Hws & Ha & Hne & Hc & Hd).
      destruct (has_path (ws ++ KEYWORD ++ a ++ c)) eqn:Hp; [discriminate|].
      unfold has_path in Hp. rewrite shape_token in Hp by assumption.
      apply truthy_false, trim_nil_iff in Hp.
      exists ws, (a ++ c). repeat split; auto.
      * now apply all_white_app.
      * rewrite length_app. destruct a; [contradiction|].
        destruct c; [contradiction|]. simpl. lia.
      * destruct (@last_of_app _ a c 0%N Hc) as [-> _].
        now apply no_terminator_last.
    + intros (ws & w & -> & Hws & Hw & Hlen & Hlast).
      assert (Hne : w <> []) by (intros ->; simpl in Hlen; lia).
      destruct (exists_last Hne) as [a [x ->]].
      rewrite last_last in Hlast.
      apply all_white_app in Hw as [Ha Hx].
      assert (Hane : a <> []).
      { intros ->. simpl in Hlen. lia. }
      split.
      * apply isIncludeDirective_iff. exists ws, a, [x].
        repeat split; auto; [discriminate|].
        unfold no_terminator, cls_dot. simpl. now rewrite Hlast.
      * assert (Hm : is_malformed (ws ++ KEYWORD ++ a ++ [x]) = true).
        { apply is_malformed_iff. exists ws, (a ++ [x]).
          repeat split; auto. now apply all_white_app. }
        unfold is_malformed in Hm. apply andb_true_iff in Hm as [Hm _].
        apply negb_true_iff in Hm. now rewrite Hm.
Qed.

(** X2.  A directive returned by [parseIncludeLine] keeps the line and the
    number it was given; its raw path stands verbatim in the line, between
    the white space that follows the keyword and trailing white space that
    holds no line terminator; the raw path is not empty, starts and ends
    with a unit that is not white space, holds no line terminator, and the
    resolved path is [normalizePath] of it. *)
Theorem directive_anatomy (l : jsstring) (n : nat) (B : jsstring)
    (d : IncludeDirective.t) :
  parseLine l n B = Some d ->
  IncludeDirective.originalLine d = l
  /\ IncludeDirective.lineNumber d = n
  /\ IncludeDirective.resolvedPath d
     = normalizePath homeDir cwd (IncludeDirective.rawPath d) B
  /\ IncludeDirective.rawPath d <> []
  /\ trim (IncludeDirective.rawPath d) = IncludeDirective.rawPath d
  /\ is_white (hd 0%N (IncludeDirective.rawPath d)) = false
  /\ is_white (last (IncludeDirective.rawPath d) 0%N) = false
  /\ exists ws a w,
       l = ws ++ KEYWORD ++ a ++ IncludeDirective.rawPath d ++ w
       /\ all_white ws /\ all_white a /\ a <> [] /\ all_white w
       /\ no_terminator (IncludeDirective.rawPath d ++ w).
Proof.
  rewrite parseIncludeLine_has_path.
  destruct (has_path l) eqn:Hp; [|discriminate].
  intros H. injection H as <-. cbn [directive_of IncludeDirective.originalLine
    IncludeDirective.lineNumber IncludeDirective.rawPath
    IncludeDirective.resolvedPath fst snd].
  apply has_path_shape in Hp.
  destruct Hp as (ws & a & c & El & Hws & Ha & Hne & Hc & Hd & Hp & Hnp).
  rewrite Hp in *. repeat apply conj; auto.
  - apply trim_idem.
  - now apply trim_ends_black.
  - now apply trim_ends_black.
  - destruct (trim_split c) as (w1 & w2 & Ec & H1 & H2).
    exists ws, (a ++ w1), w2. repeat split; auto.
    + rewrite El. rewrite Ec at 1. now rewrite <- !app_assoc.
    + now apply all_white_app.
    + intros E. apply app_eq_nil in E as [E _]. contradiction.
    + unfold no_terminator in *. rewrite Ec in Hd.
      rewrite forallb_app in Hd. now apply andb_true_iff in Hd as [_ Hd].
Qed.

(** X3.  A line whose last unit is a line terminator (a carriage return
    left by a CRLF ending, U+2028, U+2029) is never a directive: none of the
    three line functions recognizes it and a scan yields no directive for
    it. *)
Theorem terminated_line_is_no_directive (l' : jsstring) (c : char16) :
  is_line_terminator c = true ->
  isIncludeDirective (l' ++ [c]) = false
  /\ extractIncludePath (l' ++ [c]) = None
  /\ (forall n B, parseLine (l' ++ [c]) n B = None)
  /\ (forall C B i, nth_error (split_on LF C) i = Some (l' ++ [c]) ->
        forall d, In d (ParseResult.directives (parse C B)) ->
                  IncludeDirective.lineNumber d <> i + 1).
Proof.
  intros Hc.
  assert (Hi : isIncludeDirective (l' ++ [c]) = false).
  { destruct (isIncludeDirective (l' ++ [c])) eqn:E; [|reflexivity]. exfalso.
    apply isIncludeDirective_iff in E.
    destruct E as (ws & a & c0 & El & _ & _ & _ & Hne & Hd).
    pose proof (no_terminator_last Hne Hd) as Hl.
    destruct (exists_last Hne) as [c0' [z Ez]]. subst c0.
    rewrite last_last in Hl.
    rewrite !app_assoc in El. apply app_inj_tail in El as [_ <-].
    congruence. }
  assert (Hp : has_path (l' ++ [c]) = false).
  { destruct (has_path (l' ++ [c])) eqn:E; [|reflexivity].
    apply has_path_test in E. unfold isIncludeDirective in Hi. congruence. }
  repeat apply conj; auto.
  - rewrite extractIncludePath_has_path. now rewrite Hp.
  - intros n B. rewrite parseIncludeLine_has_path. now rewrite Hp.
  - intros C B i Hl d Hd E.
    apply in_directives in Hd as (j & l & Hl' & Hp' & ->).
    cbn in E. assert (j = i) by lia. subst j.
    rewrite Hl in Hl'. injection Hl' as <-. congruence.
Qed.

Lemma filter_disjoint_length (A : Type) (p q : A -> bool) (L : list A) :
  (forall x, p x = true -> q x = false) ->
  List.length (filter p L) + List.length (filter q L) <= List.length L.
Proof.
  intros H. induction L as [|x L IH]; simpl; [lia|].
  destruct (p x) eqn:Ep.
  - rewrite (H _ Ep). simpl. lia.
  - destruct (q x); simpl; lia.
Qed.

(** X4.  The errors of a scan are, in document order, the lines that carry
    the keyword and no usable path: as many errors as such lines, with
    strictly increasing 1-indexed numbers, each holding the text of its
    line and the one message; directives and errors together never
    outnumber the lines. *)
Theorem errors_follow_lines (C B : jsstring) :
  let r := parse C B in
  let lines := split_on LF C in
  List.length (ParseResult.errors r) = List.length (filter is_malformed lines)
  /\ StronglySorted lt (map ParseError.lineNumber (ParseResult.errors r))
  /\ (forall e, In e (ParseResult.errors r) ->
        1 <= ParseError.lineNumber e
        /\ nth_error lines (ParseError.lineNumber e - 1) = Some (ParseError.line e)
        /\ ParseError.message e = EMPTY_PATH_MESSAGE
        /\ empty_path_line (ParseError.line e))
  /\ (forall l, is_malformed l = true <-> empty_path_line l)
  /\ List.length (ParseResult.directives r) + List.length (ParseResult.errors r)
     <= List.length lines.
Proof.
  cbv zeta. repeat apply conj.
  - rewrite parseIncludeDirectives_filters. cbn [ParseResult.errors].
    rewrite length_map. apply filter_numbered_length.
  - rewrite error_lineNumbers. apply filter_numbered_sorted.
  - intros e He. apply in_errors in He as (i & l & Hl & Hm & ->).
    cbn. split; [lia|]. replace (i + 1 - 1) with i by lia.
    repeat split; auto. now apply is_malformed_iff.
  - apply is_malformed_iff.
  - rewrite parseIncludeDirectives_filters.
    cbn [ParseResult.errors ParseResult.directives].
    rewrite !length_map, !filter_numbered_length.
    apply filter_disjoint_length.
    intros l Hp. unfold is_malformed. now rewrite Hp.
Qed.

Lemma line_feeds_app (a b : jsstring) :
  line_feeds (a ++ b) = line_feeds a + line_feeds b.
Proof. unfold line_feeds. apply count_occ_app. Qed.

(** X5.  The line number of a directive or of an error is one more than the
    number of line feeds before its line in the content; the line stands in
    the content as a whole line; so no number exceeds the number of line
    feeds of the content plus one. *)
Theorem entries_locate_lines (C B : jsstring) :
  (forall d, In d (ParseResult.directives (parse C B)) ->
     exists pre post,
       whole_line C pre (IncludeDirective.originalLine d) post
       /\ IncludeDirective.lineNumber d = line_feeds pre + 1
       /\ IncludeDirective.lineNumber d <= line_feeds C + 1)
  /\ (forall e, In e (ParseResult.errors (parse C B)) ->
        exists pre post,
          whole_line C pre (ParseError.line e) post
          /\ ParseError.lineNumber e = line_feeds pre + 1
          /\ ParseError.lineNumber e <= line_feeds C + 1).
Proof.
  assert (Hloc : forall i l, nth_error (split_on LF C) i = Some l ->
            exists pre post,
              whole_line C pre l post /\ i + 1 = line_feeds pre + 1
              /\ i + 1 <= line_feeds C + 1).
  { intros i l Hl.
    destruct (split_on_locate _ _ _ Hl) as (pre & post & E & Hc & Hp & Hq & Hn).
    assert (Hc' : line_feeds pre = i) by exact Hc.
    exists pre, post. unfold whole_line.
    split; [auto|]. split; [lia|].
    rewrite E, line_feeds_app. lia. }
  split.
  - intros d Hd. apply in_directives in Hd as (i & l & Hl & _ & ->).
    cbn. now apply Hloc.
  - intros e He. apply in_errors in He as (i & l & Hl & _ & ->).
    cbn. now apply Hloc.
Qed.

Lemma split_on_length (sep : char16) (s : jsstring) :
  List.length (split_on sep s) = count_occ N.eq_dec s sep + 1.
Proof.
  induction s as [|c s IH]; [reflexivity|]. simpl.
  destruct (ceq c sep) eqn:Ec.
  - apply ceq_eq in Ec. subst.
    destruct (N.eq_dec sep sep); [|contradiction]. simpl. now rewrite IH.
  - apply ceq_neq in Ec. destruct (N.eq_dec c sep); [contradiction|].
    rewrite <- IH. destruct (split_on sep s) eqn:Es; [|reflexivity].
    exfalso. now apply (split_on_nonempty sep s).
Qed.

Lemma numbered_app (i : nat) (l1 l2 : list jsstring) :
  numbered i (l1 ++ l2) = numbered i l1 ++ numbered (i + List.length l1) l2.
Proof.
  revert i. induction l1 as [|x l1 IH]; intros i.
  - simpl. now rewrite Nat.add_0_r.
  - rewrite <- app_comm_cons, !numbered_cons, IH.
    replace (i + List.length (x :: l1)) with (S i + List.length l1)
      by (simpl; lia).
    reflexivity.
Qed.

Lemma numbered_shift (k : nat) (l : list jsstring) : forall i,
  numbered (i + k) l = map (fun nl => (fst nl + k, snd nl)) (numbered i l).
Proof.
  induction l as [|x l IH]; intros i; [reflexivity|].
  rewrite !numbered_cons. cbn [map fst snd].
  replace (i + k + 1) with (i + 1 + k) by lia.
  f_equal. apply (IH (S i)).
Qed.

Lemma filter_shift (k : nat) (p : jsstring -> bool) (L : list (nat * jsstring)) :
  filter (fun nl => p (snd nl)) (map (fun nl => (fst nl + k, snd nl)) L)
  = map (fun nl => (fst nl + k, snd nl)) (filter (fun nl => p (snd nl)) L).
Proof.
  induction L as [|x L IH]; [reflexivity|]. simpl.
  destruct (p (snd x)); simpl; now rewrite IH.
Qed.

(** X6.  Scanning two texts joined by a line feed gives the directives and
    the errors of the first text followed by those of the second, the line
    numbers of the second moved on by the number of lines of the first. *)
Theorem scan_of_joined_texts (c1 c2 B : jsstring) :
  let k := line_feeds c1 + 1 in
  ParseResult.directives (parse (c1 ++ LF :: c2) B)
  = ParseResult.directives (parse c1 B)
    ++ map (shift_directive k) (ParseResult.directives (parse c2 B))
  /\ ParseResult.errors (parse (c1 ++ LF :: c2) B)
     = ParseResult.errors (parse c1 B)
       ++ map (shift_error k) (ParseResult.errors (parse c2 B)).
Proof.
  cbv zeta. rewrite !parseIncludeDirectives_filters.
  cbn [ParseResult.directives ParseResult.errors].
  rewrite split_on_join, numbered_app, !filter_app, !map_app.
  rewrite split_on_length. fold (line_feeds c1).
  rewrite (numbered_shift (line_feeds c1 + 1) (split_on LF c2) 0).
  rewrite !filter_shift, !map_map. split; reflexivity.
Qed.

Lemma piece_incl (sep : char16) (s : jsstring) (i : nat) (l : jsstring) :
  nth_error (split_on sep s) i = Some l -> incl l s.
Proof.
  intros H. destruct (split_on_locate _ _ _ H) as (pre & post & -> & _).
  intros x Hx. apply in_or_app. right. apply in_or_app. now left.
Qed.

Lemma keyword_leads_at (l : jsstring) : keyword_leads l -> In 64%N l.
Proof.
  intros (ws & rest & -> & _). apply in_or_app. right. now left.
Qed.

(** X7.  A text that holds no [@] yields neither a directive nor an error. *)
Theorem text_without_at_scans_empty (C B : jsstring) :
  ~ In 64%N C ->
  ParseResult.directives (parse C B) = []
  /\ ParseResult.errors (parse C B) = [].
Proof.
  intros Hno. split.
  - destruct (ParseResult.directives (parse C B)) as [|d ds] eqn:E;
      [reflexivity|]. exfalso.
    assert (Hd : In d (ParseResult.directives (parse C B)))
      by (rewrite E; now left).
    apply in_directives in Hd as (i & l & Hl & Hp & _).
    apply Hno. apply (piece_incl _ _ _ Hl).
    apply keyword_leads_at. apply has_path_shape in Hp.
    eapply leading_of_shape; eauto.
  - destruct (ParseResult.errors (parse C B)) as [|e es] eqn:E;
      [reflexivity|]. exfalso.
    assert (He : In e (ParseResult.errors (parse C B)))
      by (rewrite E; now left).
    apply in_errors in He as (i & l & Hl & Hm & _).
    apply Hno. apply (piece_incl _ _ _ Hl).
    apply keyword_leads_at, leading_of_empty. now apply is_malformed_iff.
Qed.

(** X8.  With an absolute base and an absolute, normalized home directory,
    a path that [normalizePath] returns and that has no white space at its
    end is returned unchanged when it is normalized again, against any
    base. *)
Theorem resolved_path_is_fixed_point (p B B' : jsstring) :
  absolute B -> absolute homeDir -> normalized homeDir ->
  trim (normalizePath homeDir cwd p B) = normalizePath homeDir cwd p B ->
  normalizePath homeDir cwd (normalizePath homeDir cwd p B) B'
  = normalizePath homeDir cwd p B.
Proof.
  intros HB Hh Hn Ht.
  destruct (@normalizePath_absolute homeDir cwd p B HB Hh) as (Ha & Hnorm & Heq).
  assert (Hr : normalized (normalizePath homeDir cwd p B)).
  { destruct (str_eqb (trim p) (lit "~")) eqn:E.
    - apply str_eqb_eq in E. now rewrite (Heq E).
    - apply str_eqb_neq in E. now apply Hnorm. }
  set (r := normalizePath homeDir cwd p B) in *.
  unfold normalizePath at 1. rewrite Ht.
  destruct (@absolute_not_home r Ha) as [-> ->]. cbn [orb].
  unfold absolute in Ha. rewrite Ha. exact Hr.
Qed.

(** X9.  A line of the content for which [isIncludeDirective] holds is
    never passed over by a scan: it gives the directive of its number when
    [extractIncludePath] answers for it, and the error of its number when
    not, and never both. *)
Theorem recognized_line_is_reported (C B : jsstring) (i : nat) (l : jsstring) :
  nth_error (split_on LF C) i = Some l ->
  isIncludeDirective l = true ->
  (extractIncludePath l <> None
   /\ In (directive_of homeDir cwd B (i + 1, l)) (ParseResult.directives (parse C B))
   /\ forall e, In e (ParseResult.errors (parse C B)) ->
                ParseError.lineNumber e <> i + 1)
  \/ (extractIncludePath l = None
      /\ In (ParseError.mk (i + 1) l EMPTY_PATH_MESSAGE)
           (ParseResult.errors (parse C B))
      /\ forall d, In d (ParseResult.directives (parse C B)) ->
                   IncludeDirective.lineNumber d <> i + 1).
Proof.
  intros Hl Hi. rewrite extractIncludePath_has_path.
  destruct (has_path l) eqn:Hp.
  - left. split; [discriminate|]. split.
    + apply in_directives. now exists i, l.
    + intros e He E. apply in_errors in He as (j & l' & Hl' & Hm & ->).
      cbn in E. assert (j = i) by lia. subst j.
      rewrite Hl in Hl'. injection Hl' as <-.
      unfold is_malformed in Hm. rewrite Hp in Hm. discriminate.
  - right. split; [reflexivity|].
    assert (Hm : is_malformed l = true).
    { unfold is_malformed. rewrite Hp. unfold isIncludeDirective in Hi.
      now rewrite Hi. }
    split.
    + apply in_errors. now exists i, l.
    + intros d Hd E. apply in_directives in Hd as (j & l' & Hl' & Hp' & ->).
      cbn in E. assert (j = i) by lia. subst j.
      rewrite Hl in Hl'. injection Hl' as <-. congruence.
Qed.

(** X10.  White space put before a directive line, and white space without
    line terminator put after it, change neither the extracted path nor the
    resolved path. *)
Theorem padding_keeps_path (l ws w p : jsstring) (n : nat) (B : jsstring) :
  extractIncludePath l = Some p ->
  all_white ws -> all_white w -> no_terminator w ->
  extractIncludePath (ws ++ l ++ w) = Some p
  /\ parseLine (ws ++ l ++ w) n B
     = Some (IncludeDirective.mk (ws ++ l ++ w) n p
               (normalizePath homeDir cwd p B))
  /\ parseLine l n B
     = Some (IncludeDirective.mk l n p (normalizePath homeDir cwd p B)).
Proof.
  intros He Hws Hw Hnw. rewrite extractIncludePath_has_path in He.
  destruct (has_path l) eqn:Hp; [|discriminate]. injection He as <-.
  pose proof Hp as Hs. apply has_path_shape in Hs.
  destruct Hs as (ws0 & a & c & El & Hws0 & Ha & Hne & Hc & Hd & Ep & Hnp).
  assert (Et : path_token (ws ++ l ++ w) = path_token l).
  { rewrite El at 1.
    replace (ws ++ (ws0 ++ KEYWORD ++ a ++ c) ++ w)
      with ((ws ++ ws0) ++ KEYWORD ++ a ++ (c ++ w))
      by (now rewrite <- !app_assoc).
    rewrite shape_token.
    - rewrite Ep. apply trim_white_suffix; [congruence|exact Hw].
    - now apply all_white_app.
    - exact Ha.
    - exact Hne.
    - intros E. apply app_eq_nil in E as [E _]. contradiction.
    - unfold no_terminator in *. rewrite forallb_app. now rewrite Hd, Hnw. }
  assert (Hp' : has_path (ws ++ l ++ w) = true).
  { unfold has_path in *. now rewrite Et. }
  rewrite extractIncludePath_has_path, !parseIncludeLine_has_path, Hp, Hp'.
  unfold directive_of. cbn [fst snd]. rewrite Et. auto.
Qed.

Lemma join_segments_app (a b : list jsstring) :
  a <> [] -> b <> [] ->
  join_segments (a ++ b)
  = join_segments a ++ Path.CHAR_FORWARD_SLASH :: join_segments b.
Proof.
  intros Ha Hb. induction a as [|x a IH]; [contradiction|].
  destruct a as [|y a].
  - destruct b as [|z b]; [contradiction|]. reflexivity.
  - change (join_segments ((x :: y :: a) ++ b))
      with (x ++ Path.CHAR_FORWARD_SLASH :: join_segments ((y :: a) ++ b)).
    change (join_segments (x :: y :: a))
      with (x ++ Path.CHAR_FORWARD_SLASH :: join_segments (y :: a)).
    rewrite IH by discriminate. now rewrite <- app_assoc.
Qed.

Lemma join_segments_head (segs : list jsstring) (s : jsstring) :
  Forall plain_segment (s :: segs) ->
  exists c t rest,
    s = c :: t /\ join_segments (s :: segs) = c :: t ++ rest
    /\ c <> Path.CHAR_FORWARD_SLASH
    /\ (rest = [] \/ exists rest', rest = Path.CHAR_FORWARD_SLASH :: rest').
Proof.
  intros H. inversion H as [|? ? (Hne & Hno & _) _]; subst.
  destruct s as [|c t]; [contradiction|].
  assert (Hc : c <> Path.CHAR_FORWARD_SLASH).
  { intros ->. apply Hno. now left. }
  destruct segs as [|y segs].
  - exists c, t, []. rewrite app_nil_r. auto.
  - exists c, t, (Path.CHAR_FORWARD_SLASH :: join_segments (y :: segs)).
    repeat split; auto. right. eauto.
Qed.

(** A separator in front of a path that is not empty changes nothing for
    [normalizeString]. *)
Lemma normalizeString_leading_slash (q : jsstring) (b : bool) :
  q <> [] ->
  Path.normalizeString (Path.CHAR_FORWARD_SLASH :: q) b = Path.normalizeString q b.
Proof.
  intros Hq. unfold Path.normalizeString. destruct q as [|c q]; [contradiction|].
  reflexivity.
Qed.

(** [path.resolve] of an absolute base and a relative path that is not
    empty. *)
Lemma resolve_relative (base t : jsstring) :
  Path.isAbsolute base = true -> t <> [] -> Path.isAbsolute t = false ->
  Path.resolve cwd [base; t]
  = Path.CHAR_FORWARD_SLASH
      :: Path.normalizeString
           (base ++ Path.CHAR_FORWARD_SLASH :: t ++ [Path.CHAR_FORWARD_SLASH])
           false.
Proof.
  intros Hb Ht Hr. unfold Path.resolve. cbn [rev app].
  destruct t as [|x t]; [contradiction|].
  destruct base as [|y base]; [discriminate|].
  cbn [Path.resolve_loop]. rewrite Hr. cbn [Path.resolve_loop]. rewrite Hb.
  reflexivity.
Qed.

(** X11.  Against a base made of plain segments, a relative path made of
    plain segments (trimmed, and not starting with the home token) resolves
    to the base followed by these segments: nothing of the base is lost and
    nothing is added. *)
Theorem relative_path_lands_under_base (segs psegs : list jsstring) :
  Forall plain_segment segs -> Forall plain_segment psegs -> psegs <> [] ->
  hd [] psegs <> lit "~" ->
  trim (join_segments psegs) = join_segments psegs ->
  normalizePath homeDir cwd (join_segments psegs) (absolute_path segs false)
  = absolute_path (segs ++ psegs) false.
Proof.
  intros Hs Hp Hne Hhome Htrim.
  destruct psegs as [|s0 rest0] eqn:Eps; [contradiction|]. rewrite <- Eps in *.
  assert (Hp0 : Forall plain_segment (s0 :: rest0)) by (now rewrite <- Eps).
  destruct (join_segments_head Hp0) as (c & t & rest & Es0 & Ej & Hc & Hrest).
  rewrite <- Eps in Ej.
  assert (Hnot : startsWith (join_segments psegs) (lit "~/") = false
                 /\ str_eqb (join_segments psegs) (lit "~") = false).
  { rewrite Ej. change (lit "~/") with [126%N; 47%N]. change (lit "~") with [126%N].
    rewrite Eps in Hhome. cbn [hd] in Hhome. rewrite Es0 in Hhome.
    change (lit "~") with [126%N] in Hhome.
    destruct (ceq c 126%N) eqn:Ec.
    - apply ceq_eq in Ec. subst c.
      destruct t as [|d t].
      + contradiction.
      + assert (Hd : d <> Path.CHAR_FORWARD_SLASH).
        { inversion Hp0 as [|? ? (_ & Hno & _) _]; subst.
          intros ->. apply Hno. right. now left. }
        apply ceq_neq in Hd. cbn. unfold Path.CHAR_FORWARD_SLASH in Hd.
        rewrite Hd. split; reflexivity.
    - cbn. rewrite Ec. split; reflexivity. }
  destruct Hnot as [Hn1 Hn2].
  assert (Hrel : Path.isAbsolute (join_segments psegs) = false).
  { rewrite Ej. cbn. now apply ceq_neq. }
  unfold normalizePath. rewrite Htrim, Hn1, Hn2, Hrel. cbn [orb].
  rewrite resolve_relative; [|reflexivity| |exact Hrel].
  2:{ rewrite Ej. discriminate. }
  assert (Hall : Forall plain_segment (segs ++ psegs))
    by (apply Forall_app; now split).
  assert (Hnn : segs ++ psegs <> []).
  { intros E. apply app_eq_nil in E as [_ E]. contradiction. }
  pose proof (@normalizeString_canonical (segs ++ psegs) true Hall (fun _ => Hnn))
    as Hcan.
  unfold absolute_path in Hcan |- *. rewrite !app_nil_r.
  f_equal. rewrite <- Hcan. clear Hcan.
  destruct segs as [|x segs'] eqn:Esegs.
  - cbn [join_segments app].
    rewrite normalizeString_leading_slash; [reflexivity|].
    rewrite Ej. discriminate.
  - rewrite <- Esegs in *.
    rewrite join_segments_app by (subst; auto; discriminate).
    now rewrite <- !app_assoc.
Qed.

(** The index of the last separator of a join, exactly. *)
Lemma lastIndexOf_join_exact (init : list jsstring) (s0 : jsstring) :
  Forall plain_segment init -> plain_segment s0 ->
  match lastIndexOf Path.CHAR_FORWARD_SLASH (join_segments (init ++ [s0])) with
  | None => init = []
  | Some i => init <> []
              /\ firstn i (join_segments (init ++ [s0])) = join_segments init
  end.
Proof.
  intros Hi (Hne & Hno & _). rewrite join_segments_push by exact Hi.
  unfold push_segment. destruct (join_segments init) as [|c r] eqn:Ej.
  - rewrite lastIndexOf_absent by exact Hno.
    apply join_segments_nil; assumption.
  - rewrite lastIndexOf_last by exact Hno. split.
    + intros ->. discriminate.
    + generalize (c :: r) as a. intros a.
      induction a as [|x a IH]; [reflexivity|]. simpl. now rewrite IH.
Qed.

Lemma fold_push_from (psegs : list jsstring) : forall init,
  Forall plain_segment init -> Forall plain_segment psegs ->
  fold_left push_segment psegs (join_segments init) = join_segments (init ++ psegs).
Proof.
  induction psegs as [|x ps IH]; intros init Hi Hp.
  - now rewrite app_nil_r.
  - inversion Hp as [|? ? Hx Hps]; subst. cbn [fold_left].
    rewrite <- join_segments_push by exact Hi.
    rewrite IH; [now rewrite <- app_assoc| |exact Hps].
    apply Forall_app. split; [exact Hi|]. now constructor.
Qed.

(** Reading plain segments, with the length of the last one kept. *)
Lemma fold_segments_exact (b : bool) (segs : list jsstring) :
  Forall plain_segment segs ->
  forall r l,
    fold_left (Path.nstep b)
      (List.concat (map (fun s => s ++ [Path.CHAR_FORWARD_SLASH]) segs))
      (Path.NState r l [] 0)
    = Path.NState (fold_left push_segment segs r)
        (match segs with [] => l | _ :: _ => List.length (last segs []) end)
        [] 0.
Proof.
  induction 1 as [|s segs Hs Hrest IH]; intros r l; [reflexivity|].
  simpl List.concat. simpl map. rewrite fold_left_app, fold_left_app.
  change 0%Z with (dots_of []) at 1.
  rewrite fold_segment by (apply Hs). cbn [app fold_left].
  rewrite nstep_push by exact Hs. rewrite IH. cbn [fold_left].
  destruct segs; reflexivity.
Qed.

(** The separator after [..] removes the last segment read so far. *)
Lemma nstep_pop (bsegs : list jsstring) :
  Forall plain_segment bsegs ->
  exists l,
    Path.nstep false
      (Path.NState (join_segments bsegs)
         (match bsegs with [] => 0 | _ :: _ => List.length (last bsegs []) end)
         [Path.CHAR_DOT; Path.CHAR_DOT] 2)
      Path.CHAR_FORWARD_SLASH
    = Path.NState (join_segments (removelast bsegs)) l [] 0.
Proof.
  intros H. unfold Path.nstep.
  cbn [Path.res Path.lastSegmentLength Path.seg Path.dots].
  replace (Path.isPosixPathSeparator Path.CHAR_FORWARD_SLASH) with true
    by reflexivity.
  cbn [orb Z.eqb Pos.eqb].
  destruct bsegs as [|b0 bs] eqn:Eb.
  - eexists. reflexivity.
  - rewrite <- Eb in *.
    assert (Hne : bsegs <> []) by (subst; discriminate).
    destruct (exists_last Hne) as [init [s0 Es]].
    rewrite Es in *. clear Eb.
    apply Forall_app in H as [Hi Hs].
    inversion Hs as [|? ? Hp0 _]; subst.
    rewrite last_last, removelast_last.
    replace (match init ++ [s0] with [] => 0 | _ :: _ => List.length s0 end)
      with (List.length s0) by (destruct init; reflexivity).
    assert (Hcond : (List.length (join_segments (init ++ [s0])) <? 2)
                    || negb (List.length s0 =? 2)
                    || negb (Path.ends_with_dotdot (join_segments (init ++ [s0])))
                    = true).
    { destruct (List.length s0 =? 2) eqn:El.
      - apply Nat.eqb_eq in El. rewrite orb_false_r.
        apply orb_true_iff. right. apply negb_true_iff.
        destruct Hp0 as (_ & _ & _ & Hdd).
        destruct s0 as [|x [|y [|z s0]]]; try discriminate.
        rewrite join_segments_push by exact Hi.
        unfold Path.ends_with_dotdot, push_segment.
        destruct (join_segments init) as [|c r].
        + cbn. destruct (ceq y Path.CHAR_DOT) eqn:Ey; [|reflexivity].
          destruct (ceq x Path.CHAR_DOT) eqn:Ex; [|reflexivity].
          apply ceq_eq in Ex, Ey. subst. contradiction.
        + replace (rev ((c :: r) ++ Path.CHAR_FORWARD_SLASH :: [x; y]))
            with (y :: x :: rev ((c :: r) ++ [Path.CHAR_FORWARD_SLASH])).
          2:{ rewrite !rev_app_distr. reflexivity. }
          destruct (ceq y Path.CHAR_DOT) eqn:Ey; [|reflexivity].
          destruct (ceq x Path.CHAR_DOT) eqn:Ex; [|reflexivity].
          apply ceq_eq in Ex, Ey. subst. contradiction.
      - rewrite orb_true_r. reflexivity. }
    rewrite Hcond.
    pose proof (lastIndexOf_join_exact Hi Hp0) as Hlast.
    destruct (2 <? List.length (join_segments (init ++ [s0]))) eqn:E2.
    + destruct (lastIndexOf Path.CHAR_FORWARD_SLASH (join_segments (init ++ [s0])))
        as [i|].
      * destruct Hlast as [_ Hf]. unfold slice_to. rewrite Hf. eexists. reflexivity.
      * subst init. eexists. reflexivity.
    + assert (init = []) as ->.
      { destruct init as [|i0 init']; [reflexivity|]. exfalso.
        apply Nat.ltb_ge in E2.
        rewrite join_segments_push in E2 by exact Hi.
        unfold push_segment in E2.
        destruct (join_segments (i0 :: init')) as [|c r] eqn:Ej.
        - apply join_segments_nil in Ej; [discriminate|exact Hi].
        - rewrite length_app in E2. simpl in E2.
          destruct Hp0 as (Hn0 & _). destruct s0; [contradiction|].
          simpl in E2. lia. }
      cbn [app join_segments].
      destruct Hp0 as (Hn0 & _). destruct s0 as [|x s0]; [contradiction|].
      cbn [List.length Nat.eqb negb]. eexists. reflexivity.
Qed.

Lemma join_cons_trailing (x : jsstring) (psegs : list jsstring) :
  Forall plain_segment psegs ->
  join_segments (x :: psegs) ++ [Path.CHAR_FORWARD_SLASH]
  = x ++ [Path.CHAR_FORWARD_SLASH]
    ++ List.concat (map (fun s => s ++ [Path.CHAR_FORWARD_SLASH]) psegs).
Proof.
  intros H. destruct psegs as [|y ps]; [reflexivity|].
  change (join_segments (x :: y :: ps))
    with (x ++ Path.CHAR_FORWARD_SLASH :: join_segments (y :: ps)).
  rewrite <- join_trailing by (auto; discriminate).
  now rewrite <- app_assoc.
Qed.

(** X12.  Against a base made of plain segments, a relative path without
    white space at its ends that starts with [..] and goes on with plain
    segments resolves to the base without its last segment, followed by
    these segments; at the root the [..] is dropped. *)
Theorem parent_path_drops_last_segment (bsegs psegs : list jsstring) :
  Forall plain_segment bsegs -> Forall plain_segment psegs ->
  trim (join_segments ([Path.CHAR_DOT; Path.CHAR_DOT] :: psegs))
  = join_segments ([Path.CHAR_DOT; Path.CHAR_DOT] :: psegs) ->
  normalizePath homeDir cwd
    (join_segments ([Path.CHAR_DOT; Path.CHAR_DOT] :: psegs))
    (absolute_path bsegs false)
  = absolute_path (removelast bsegs ++ psegs) false.
Proof.
  intros Hb Hp Htrim.
  set (p := join_segments ([Path.CHAR_DOT; Path.CHAR_DOT] :: psegs)) in *.
  assert (Ep : p ++ [Path.CHAR_FORWARD_SLASH]
               = [Path.CHAR_DOT; Path.CHAR_DOT] ++ [Path.CHAR_FORWARD_SLASH]
                 ++ List.concat (map (fun s => s ++ [Path.CHAR_FORWARD_SLASH]) psegs)).
  { unfold p. apply join_cons_trailing. exact Hp. }
  assert (Hp2 : exists t, p = Path.CHAR_DOT :: Path.CHAR_DOT :: t).
  { unfold p. destruct psegs; eexists; reflexivity. }
  destruct Hp2 as [t Et].
  assert (Hn1 : startsWith p (lit "~/") = false) by (rewrite Et; reflexivity).
  assert (Hn2 : str_eqb p (lit "~") = false) by (rewrite Et; reflexivity).
  assert (Hrel : Path.isAbsolute p = false) by (rewrite Et; reflexivity).
  unfold normalizePath. rewrite Htrim, Hn1, Hn2, Hrel. cbn [orb].
  rewrite resolve_relative; [|reflexivity| |exact Hrel].
  2:{ rewrite Et. discriminate. }
  unfold absolute_path. rewrite !app_nil_r. f_equal.
  unfold Path.normalizeString.
  replace (last ((Path.CHAR_FORWARD_SLASH :: join_segments bsegs)
                 ++ Path.CHAR_FORWARD_SLASH :: p ++ [Path.CHAR_FORWARD_SLASH]) 0%N)
    with Path.CHAR_FORWARD_SLASH.
  2:{ change (Path.CHAR_FORWARD_SLASH :: p ++ [Path.CHAR_FORWARD_SLASH])
        with ((Path.CHAR_FORWARD_SLASH :: p) ++ [Path.CHAR_FORWARD_SLASH]).
      now rewrite app_assoc, last_last. }
  replace (Path.isPosixPathSeparator Path.CHAR_FORWARD_SLASH) with true
    by reflexivity.
  (* the state once the base has been read *)
  assert (Hbase : fold_left (Path.nstep false)
                    ((Path.CHAR_FORWARD_SLASH :: join_segments bsegs)
                     ++ [Path.CHAR_FORWARD_SLASH]) Path.nstate_init
                  = Path.NState (join_segments bsegs)
                      (match bsegs with
                       | [] => 0
                       | _ :: _ => List.length (last bsegs [])
                       end) [] 0).
  { destruct bsegs as [|b0 bs] eqn:Eb; [reflexivity|]. rewrite <- Eb in *.
    assert (Hne : bsegs <> []) by (subst; discriminate).
    rewrite <- app_comm_cons. cbn [fold_left].
    change (Path.nstep false Path.nstate_init Path.CHAR_FORWARD_SLASH)
      with (Path.NState [] 0 [] 0).
    rewrite join_trailing by assumption.
    rewrite fold_segments_exact by exact Hb.
    rewrite fold_push_join by exact Hb. subst bsegs. reflexivity. }
  replace ((Path.CHAR_FORWARD_SLASH :: join_segments bsegs)
           ++ Path.CHAR_FORWARD_SLASH :: p ++ [Path.CHAR_FORWARD_SLASH])
    with (((Path.CHAR_FORWARD_SLASH :: join_segments bsegs)
           ++ [Path.CHAR_FORWARD_SLASH])
          ++ [Path.CHAR_DOT; Path.CHAR_DOT] ++ [Path.CHAR_FORWARD_SLASH]
          ++ List.concat (map (fun s => s ++ [Path.CHAR_FORWARD_SLASH]) psegs)).
  2:{ rewrite <- Ep. now rewrite <- !app_assoc. }
  rewrite fold_left_app, Hbase, fold_left_app.
  change 0%Z with (dots_of []) at 1.
  rewrite fold_segment.
  2:{ intros [H|[H|[]]]; discriminate H. }
  cbn [app]. change (dots_of [Path.CHAR_DOT; Path.CHAR_DOT]) with 2%Z.
  cbn [fold_left].
  destruct (nstep_pop Hb) as [l Hpop]. rewrite Hpop.
  rewrite fold_segments_exact by exact Hp. cbn [Path.res].
  apply fold_push_from; [|exact Hp].
  clear - Hb. destruct bsegs as [|b0 bs] using rev_ind; [constructor|].
  rewrite removelast_last. now apply Forall_app in Hb as [Hb _].
Qed.

(** [path.join] of two pieces that are not empty. *)
Lemma join_two (a b : jsstring) :
  a <> [] -> b <> [] ->
  Path.join [a; b] = Path.normalize (a ++ Path.CHAR_FORWARD_SLASH :: b).
Proof.
  intros Ha Hb. destruct a as [|x a]; [contradiction|].
  destruct b as [|y b]; [contradiction|]. reflexivity.
Qed.

Lemma normalize_double_slash (q : jsstring) :
  q <> [] ->
  Path.normalize (Path.CHAR_FORWARD_SLASH :: Path.CHAR_FORWARD_SLASH :: q)
  = Path.normalize (Path.CHAR_FORWARD_SLASH :: q).
Proof.
  intros Hq. destruct q as [|c q]; [contradiction|]. reflexivity.
Qed.

(** X13.  When the home directory is made of plain segments, the home
    token followed by a separator and plain segments, without white space
    at the end, resolves to the home directory followed by these segments,
    whatever the base. *)
Theorem home_path_lands_under_home (hsegs psegs : list jsstring) (B : jsstring) :
  homeDir = absolute_path hsegs false ->
  Forall plain_segment hsegs -> Forall plain_segment psegs -> psegs <> [] ->
  trim (lit "~/" ++ join_segments psegs) = lit "~/" ++ join_segments psegs ->
  normalizePath homeDir cwd (lit "~/" ++ join_segments psegs) B
  = absolute_path (hsegs ++ psegs) false.
Proof.
  intros Hh Hs Hp Hne Htrim.
  assert (Hj : join_segments psegs <> []).
  { intros E. apply join_segments_nil in E; [contradiction|exact Hp]. }
  unfold normalizePath. rewrite Htrim.
  change (lit "~/" ++ join_segments psegs)
    with (126%N :: 47%N :: join_segments psegs).
  change (lit "~/") with [126%N; 47%N]. change (lit "~") with [126%N].
  replace (startsWith (126%N :: 47%N :: join_segments psegs) [126%N; 47%N])
    with true by reflexivity.
  replace (str_eqb (126%N :: 47%N :: join_segments psegs) [126%N])
    with false by reflexivity.
  cbn [orb]. change (slice_from (126%N :: 47%N :: join_segments psegs) 2)
    with (join_segments psegs).
  rewrite join_two; [|rewrite Hh; discriminate|exact Hj].
  rewrite Hh. unfold absolute_path at 1. rewrite app_nil_r.
  assert (Hall : Forall plain_segment (hsegs ++ psegs))
    by (apply Forall_app; now split).
  assert (Hf : false = true -> hsegs ++ psegs <> []) by discriminate.
  pose proof (normalize_canonical Hall Hf) as Hcan. unfold normalized in Hcan.
  etransitivity; [|exact Hcan]. unfold absolute_path. rewrite app_nil_r.
  destruct hsegs as [|x hs] eqn:Eh.
  - cbn [join_segments app]. now rewrite normalize_double_slash by exact Hj.
  - rewrite <- Eh in *. f_equal.
    rewrite join_segments_app by (subst; auto; discriminate).
    reflexivity.
Qed.

End ScannerBeyond.

(* ================================================================== *)
(** ** Instances: witnesses and counterexamples *)
(* ================================================================== *)

Module Instances.

Import Sample.

(** The hypotheses of C5 hold for the base path of the test suite, and the
    theorem then gives what the suite expects for a padded relative path. *)
Lemma normalizePath_conforms_witness :
  absolute basePath
  /\ normalizePath home workdir (lit "  ../shared/rules.md  ") basePath
     = normalizePath home workdir (lit "../shared/rules.md") basePath
  /\ normalizePath home workdir (lit "  ../shared/rules.md  ") basePath
     = Path.resolve workdir [basePath; lit "../shared/rules.md"]
  /\ Path.resolve workdir [basePath; lit "../shared/rules.md"]
     = lit "/project/shared/rules.md".
Proof.
  assert (Habs : absolute basePath) by reflexivity.
  pose proof (@normalizePath_conforms home workdir
                (lit "  ../shared/rules.md  ") basePath Habs) as H.
  destruct H as (Htrim & _ & _ & _ & _ & _ & _ & Hrel).
  split; [exact Habs|]. split; [exact Htrim|]. split; [|reflexivity].
  apply Hrel; [reflexivity|discriminate|reflexivity].
Defined.

(** The hypotheses of C8 hold in the environment of the test suite, where
    the home directory is normalized: every directive of a text that uses
    the four kinds of path gets an absolute, normalized path. *)
Lemma resolvedPath_absolute_witness :
  absolute basePath /\ absolute home /\ normalized home
  /\ Forall (fun d => absolute (IncludeDirective.resolvedPath d)
                      /\ normalized (IncludeDirective.resolvedPath d))
       (ParseResult.directives
          (parseIncludeDirectives home workdir
             (text [lit "@include ~"; lit "@include ~/.claude/rules.md";
                    lit "@include /etc//claude/../global.md";
                    lit "  @include ../shared/my rules.md  "])
             basePath)).
Proof.
  assert (Hb : absolute basePath) by reflexivity.
  assert (Hh : absolute home) by reflexivity.
  assert (Hn : normalized home) by reflexivity.
  split; [exact Hb|]. split; [exact Hh|]. split; [exact Hn|].
  apply Forall_forall. intros d Hd.
  destruct (proj2 (@resolvedPath_absolute home workdir basePath Hb Hh) _ d Hd)
    as (Ha & _ & _ & Hnorm).
  split; [exact Ha|exact (Hnorm Hn)].
Defined.

(** The counterexample to C8 as stated: with the absolute home directory
    [/home//u] the directive [@include ~] resolves to that very string,
    which [path.normalize] would change. *)
Lemma home_token_keeps_home_verbatim :
  absolute basePath /\ absolute doubled_home
  /\ map IncludeDirective.resolvedPath
       (ParseResult.directives
          (parseIncludeDirectives doubled_home workdir (lit "@include ~") basePath))
     = [lit "/home//u"]
  /\ Path.normalize (lit "/home//u") = lit "/home/u"
  /\ str_eqb (Path.normalize (lit "/home//u")) (lit "/home//u") = false.
Proof. repeat split; vm_compute; reflexivity. Qed.

(** The hypotheses of the first part of C4 hold for the second line of the
    claim's text, and the theorem gives its error. *)
Lemma empty_path_reported_witness :
  nth_error (split_on LF (text [lit "@include"; lit "@include   ";
                                lit "@include ./ok.md"])) 1
  = Some (lit "@include   ")
  /\ empty_path_line (lit "@include   ")
  /\ In (ParseError.mk 2 (lit "@include   ") EMPTY_PATH_MESSAGE)
       (ParseResult.errors
          (parseIncludeDirectives home workdir
             (text [lit "@include"; lit "@include   "; lit "@include ./ok.md"])
             basePath)).
Proof.
  assert (Hl : nth_error (split_on LF (text [lit "@include"; lit "@include   ";
                                             lit "@include ./ok.md"])) 1
               = Some (lit "@include   ")) by reflexivity.
  assert (He : empty_path_line (lit "@include   ")).
  { exists [], (lit "   "). repeat split; reflexivity. }
  split; [exact Hl|]. split; [exact He|].
  exact (proj1 (proj1 (@empty_path_reported home workdir) _ basePath 1 _ Hl He)).
Defined.

(** The counterexample to C4 as stated: the message of the error is not the
    text "path cannot be empty" but a longer one that ends with it. *)
Lemma empty_path_message_is_longer :
  map ParseError.message
    (ParseResult.errors
       (parseIncludeDirectives home workdir (lit "@include") basePath))
  = [lit "Invalid @include directive: path cannot be empty"]
  /\ str_eqb (lit "Invalid @include directive: path cannot be empty")
             (lit "path cannot be empty") = false.
Proof. split; vm_compute; reflexivity. Qed.

(** The hypotheses of C1 (as amended) hold for a file that includes a leaf
    and itself, under the default options: one [circular_include] error
    names the file, and the file is included once. *)
Lemma self_inclusion_detected_witness :
  mixed_files self_path = ReadOk mixed_text
  /\ ParseResult.directives
       (parseIncludeDirectives home workdir mixed_text (Path.dirname self_path))
     = [mixed_leaf] ++ mixed_self :: []
  /\ IncludeDirective.resolvedPath mixed_self = self_path
  /\ (forall d', In d' ([mixed_leaf] ++ []) ->
        IncludeDirective.resolvedPath d' <> self_path
        /\ ~ reaches home workdir mixed_files
              (IncludeDirective.resolvedPath d') self_path)
  /\ 2 <= DEFAULT_MAX_DEPTH
  /\ filter (circular_at self_path)
       (ProcessResult.errors
          (resolve_default mixed_files mixed_text (Path.dirname self_path)))
     = [Resolver.directive_error message_of ProcessError.circular_include
          mixed_self]
  /\ count_occ jsstring_eq_dec
       (ProcessResult.includedPaths
          (resolve_default mixed_files mixed_text (Path.dirname self_path)))
       self_path = 1.
Proof.
  assert (Hr : mixed_files self_path = ReadOk mixed_text) by reflexivity.
  assert (Hd : ParseResult.directives
                 (parseIncludeDirectives home workdir mixed_text
                    (Path.dirname self_path)) = [mixed_leaf] ++ mixed_self :: [])
    by (vm_compute; reflexivity).
  assert (Hs : IncludeDirective.resolvedPath mixed_self = self_path)
    by reflexivity.
  assert (Ho : forall d', In d' ([mixed_leaf] ++ []) ->
            IncludeDirective.resolvedPath d' <> self_path
            /\ ~ reaches home workdir mixed_files
                  (IncludeDirective.resolvedPath d') self_path).
  { intros d' [<-|[]]. split.
    - intros E. vm_compute in E. discriminate E.
    - apply leaf_reaches_nothing with (text := lit "leaf");
        vm_compute; reflexivity. }
  assert (Hm : 2 <= DEFAULT_MAX_DEPTH) by (unfold DEFAULT_MAX_DEPTH; lia).
  destruct (@self_inclusion_detected home workdir message_of parse_error_file
              unexpanded mixed_files self_path mixed_text mixed_self
              [mixed_leaf] [] DEFAULT_MAX_DEPTH Hr Hd Hs Ho Hm)
    as (Hc & _ & _ & Hp & _).
  repeat apply conj; assumption.
Defined.

(** The counterexample to C1 as stated: a file that includes itself by two
    directives is read twice at the top, and each reading reports both
    directives: four [circular_include] errors for the file, not one. *)
Lemma self_inclusion_counted_per_occurrence :
  twice_files self_path = ReadOk twice_text
  /\ included_by home workdir twice_text (Path.dirname self_path)
     = [self_path; self_path]
  /\ map (fun e => (ProcessError.filePath e, ProcessError.type e))
       (ProcessResult.errors
          (resolve_default twice_files twice_text (Path.dirname self_path)))
     = [(self_path, ProcessError.circular_include);
        (self_path, ProcessError.circular_include);
        (self_path, ProcessError.circular_include);
        (self_path, ProcessError.circular_include)]
  /\ List.length
       (filter is_circular
          (ProcessResult.errors
             (resolve_default twice_files twice_text (Path.dirname self_path))))
     = 4.
Proof. repeat split; vm_compute; reflexivity. Qed.

(** In the diamond of the samples the shared file reaches the leaf only. *)
Lemma diamond_reach (Q : jsstring) :
  reaches home workdir diamond_files shared_path Q -> Q = leaf_path.
Proof.
  intros H. apply reaches_inv in H as (t & P & Hr & HP & HQ).
  change (diamond_files shared_path) with (ReadOk shared_text) in Hr.
  injection Hr as <-.
  assert (E : included_by home workdir shared_text (Path.dirname shared_path)
              = [leaf_path]) by (vm_compute; reflexivity).
  rewrite E in HP. destruct HP as [<-|[]].
  destruct HQ as [HQ|HQ]; [now symmetry|].
  exfalso. revert HQ.
  apply leaf_reaches_nothing with (text := lit "leaf"); vm_compute; reflexivity.
Qed.

(** The hypotheses of C2 hold for the diamond of the samples. *)
Lemma diamond_inclusion_witness :
  ParseResult.directives
    (parseIncludeDirectives home workdir diamond_text (lit "/d"))
  = [] ++ diamond_first :: [] ++ diamond_second :: []
  /\ diamond_files shared_path = ReadOk shared_text
  /\ 1 <= DEFAULT_MAX_DEPTH
  /\ (forall Q, Q = shared_path \/ reaches home workdir diamond_files shared_path Q ->
        ~ reaches home workdir diamond_files Q Q)
  /\ count_occ jsstring_eq_dec
       (ProcessResult.includedPaths
          (resolve_default diamond_files diamond_text (lit "/d")))
       shared_path = 2
  /\ filter is_circular
       (ProcessResult.errors
          (resolve_default diamond_files diamond_text (lit "/d")))
     = [].
Proof.
  assert (Hd : ParseResult.directives
                 (parseIncludeDirectives home workdir diamond_text (lit "/d"))
               = [] ++ diamond_first :: [] ++ diamond_second :: [])
    by (vm_compute; reflexivity).
  assert (Hr : diamond_files shared_path = ReadOk shared_text) by reflexivity.
  assert (Hm : 1 <= DEFAULT_MAX_DEPTH) by (unfold DEFAULT_MAX_DEPTH; lia).
  assert (Hacyc : forall Q,
            Q = shared_path \/ reaches home workdir diamond_files shared_path Q ->
            ~ reaches home workdir diamond_files Q Q).
  { intros Q [->|HQ].
    - intros H. apply diamond_reach in H. discriminate H.
    - apply diamond_reach in HQ. subst Q.
      apply leaf_reaches_nothing with (text := lit "leaf"); vm_compute; reflexivity. }
  destruct (@diamond_inclusion home workdir message_of parse_error_file
              unexpanded diamond_files diamond_text (lit "/d") shared_path
              shared_text diamond_first diamond_second [] [] []
              DEFAULT_MAX_DEPTH Hd eq_refl eq_refl Hr Hm Hacyc)
    as (_ & _ & Hpure).
  destruct (Hpure eq_refl eq_refl eq_refl) as [Hc He].
  repeat split; assumption.
Defined.

End Instances.

(* ================================================================== *)
(** ** Instances of the properties beyond the description *)
(* ================================================================== *)

Module MoreInstances.

Import Sample.

(** Decides that a string differs from another, that a unit does not occur
    in a string, and that the segments of a list are plain. *)
Ltac differs :=
  let H := fresh in intros H; vm_compute in H; discriminate H.
Ltac absent :=
  let H := fresh in
  intros H; vm_compute in H;
  repeat (destruct H as [H|H]; [discriminate H|]); exact H.
Ltac plain :=
  repeat (constructor; [split; [differs|split; [absent|split; differs]]|]);
  constructor.

(** X2 at a padded directive whose path holds a space. *)
Lemma directive_anatomy_witness :
  let l := lit "  @include ./my file.md  " in
  let d := IncludeDirective.mk l 7 (lit "./my file.md")
             (lit "/project/docs/my file.md") in
  parseIncludeLine home workdir l 7 basePath = Some d
  /\ IncludeDirective.rawPath d <> []
  /\ trim (IncludeDirective.rawPath d) = IncludeDirective.rawPath d
  /\ IncludeDirective.resolvedPath d
     = normalizePath home workdir (IncludeDirective.rawPath d) basePath
  /\ is_white (last (IncludeDirective.rawPath d) 0%N) = false.
Proof.
  intros l d.
  assert (H : parseIncludeLine home workdir l 7 basePath = Some d)
    by (vm_compute; reflexivity).
  destruct (@directive_anatomy home workdir l 7 basePath d H)
    as (_ & _ & Hres & Hne & Htrim & _ & Hlast & _).
  split; [exact H|]. split; [exact Hne|]. split; [exact Htrim|].
  split; [exact Hres|exact Hlast].
Defined.

(** X3 at a directive line of a text with CR LF line ends. *)
Lemma terminated_line_is_no_directive_witness :
  is_line_terminator 13%N = true
  /\ isIncludeDirective (lit "@include ./a.md" ++ [13%N]) = false
  /\ extractIncludePath (lit "@include ./a.md" ++ [13%N]) = None
  /\ parseIncludeLine home workdir (lit "@include ./a.md" ++ [13%N]) 1 basePath
     = None.
Proof.
  assert (H : is_line_terminator 13%N = true) by reflexivity.
  destruct (@terminated_line_is_no_directive home workdir
              (lit "@include ./a.md") 13%N H) as (H1 & H2 & H3 & _).
  split; [exact H|]. split; [exact H1|]. split; [exact H2|].
  exact (H3 1 basePath).
Defined.

(** X7 at a text that mentions the keyword without its first unit. *)
Lemma text_without_at_scans_empty_witness :
  let C := text [lit "# Notes"; lit "include ./a.md"; lit ""] in
  ~ In 64%N C
  /\ ParseResult.directives (parseIncludeDirectives home workdir C basePath) = []
  /\ ParseResult.errors (parseIncludeDirectives home workdir C basePath) = [].
Proof.
  intros C.
  assert (H : ~ In 64%N C) by absent.
  split; [exact H|].
  exact (@text_without_at_scans_empty home workdir C basePath H).
Defined.

(** X8 at a relative path of the test suite: what it resolves to resolves
    to itself against another base. *)
Lemma resolved_path_is_fixed_point_witness :
  absolute basePath /\ absolute home /\ normalized home
  /\ normalizePath home workdir (lit "../shared/rules.md") basePath
     = lit "/project/shared/rules.md"
  /\ normalizePath home workdir
       (normalizePath home workdir (lit "../shared/rules.md") basePath)
       (lit "/elsewhere")
     = normalizePath home workdir (lit "../shared/rules.md") basePath.
Proof.
  assert (Hb : absolute basePath) by reflexivity.
  assert (Hh : absolute home) by reflexivity.
  assert (Hn : normalized home) by reflexivity.
  assert (Ht : trim (normalizePath home workdir (lit "../shared/rules.md") basePath)
               = normalizePath home workdir (lit "../shared/rules.md") basePath)
    by reflexivity.
  split; [exact Hb|]. split; [exact Hh|]. split; [exact Hn|].
  split; [reflexivity|].
  exact (@resolved_path_is_fixed_point home workdir (lit "../shared/rules.md")
           basePath (lit "/elsewhere") Hb Hh Hn Ht).
Defined.

(** X9 at the second line of a text with a directive and a malformed
    line: the line is recognized and its directive is in the result. *)
Lemma recognized_line_is_reported_witness :
  let C := text [lit "# T"; lit "@include ./a.md"; lit "@include   "] in
  let l := lit "@include ./a.md" in
  nth_error (split_on LF C) 1 = Some l
  /\ isIncludeDirective l = true
  /\ In (directive_of home workdir basePath (2, l))
       (ParseResult.directives (parseIncludeDirectives home workdir C basePath)).
Proof.
  intros C l.
  assert (Hl : nth_error (split_on LF C) 1 = Some l) by reflexivity.
  assert (Hi : isIncludeDirective l = true) by reflexivity.
  split; [exact Hl|]. split; [exact Hi|].
  destruct (@recognized_line_is_reported home workdir C basePath 1 l Hl Hi)
    as [(_ & Hin & _)|(Hnone & _)].
  - exact Hin.
  - vm_compute in Hnone. discriminate Hnone.
Defined.

(** X10 at a directive padded with two spaces in front and a tab behind. *)
Lemma padding_keeps_path_witness :
  let l := lit "@include ./a.md" in
  let ws := lit "  " in
  let w := [9%N] in
  extractIncludePath l = Some (lit "./a.md")
  /\ all_white ws /\ all_white w /\ no_terminator w
  /\ extractIncludePath (ws ++ l ++ w) = Some (lit "./a.md")
  /\ parseIncludeLine home workdir (ws ++ l ++ w) 3 basePath
     = Some (IncludeDirective.mk (ws ++ l ++ w) 3 (lit "./a.md")
               (normalizePath home workdir (lit "./a.md") basePath)).
Proof.
  intros l ws w.
  assert (He : extractIncludePath l = Some (lit "./a.md")) by reflexivity.
  assert (H1 : all_white ws) by reflexivity.
  assert (H2 : all_white w) by reflexivity.
  assert (H3 : no_terminator w) by reflexivity.
  destruct (@padding_keeps_path home workdir l ws w (lit "./a.md") 3 basePath
              He H1 H2 H3) as (Ha & Hb & _).
  split; [exact He|]. split; [exact H1|]. split; [exact H2|].
  split; [exact H3|]. split; [exact Ha|exact Hb].
Defined.

(** X11 at the base path of the test suite. *)
Lemma relative_path_lands_under_base_witness :
  let segs := [lit "project"; lit "docs"] in
  let psegs := [lit "team"; lit "conventions.md"] in
  Forall plain_segment segs /\ Forall plain_segment psegs
  /\ absolute_path segs false = basePath
  /\ join_segments psegs = lit "team/conventions.md"
  /\ absolute_path (segs ++ psegs) false = lit "/project/docs/team/conventions.md"
  /\ normalizePath home workdir (join_segments psegs) (absolute_path segs false)
     = absolute_path (segs ++ psegs) false.
Proof.
  intros segs psegs.
  assert (Hs : Forall plain_segment segs) by plain.
  assert (Hp : Forall plain_segment psegs) by plain.
  assert (Hne : psegs <> []) by discriminate.
  assert (Hh : hd [] psegs <> lit "~") by differs.
  assert (Ht : trim (join_segments psegs) = join_segments psegs) by reflexivity.
  split; [exact Hs|]. split; [exact Hp|]. split; [reflexivity|].
  split; [reflexivity|]. split; [reflexivity|].
  exact (@relative_path_lands_under_base home workdir segs psegs Hs Hp Hne Hh Ht).
Defined.

(** X12 at the base path of the test suite. *)
Lemma parent_path_drops_last_segment_witness :
  let bsegs := [lit "project"; lit "docs"] in
  let psegs := [lit "shared"; lit "rules.md"] in
  Forall plain_segment bsegs /\ Forall plain_segment psegs
  /\ join_segments ([Path.CHAR_DOT; Path.CHAR_DOT] :: psegs)
     = lit "../shared/rules.md"
  /\ absolute_path (removelast bsegs ++ psegs) false
     = lit "/project/shared/rules.md"
  /\ normalizePath home workdir
       (join_segments ([Path.CHAR_DOT; Path.CHAR_DOT] :: psegs))
       (absolute_path bsegs false)
     = absolute_path (removelast bsegs ++ psegs) false.
Proof.
  intros bsegs psegs.
  assert (Hb : Forall plain_segment bsegs) by plain.
  assert (Hp : Forall plain_segment psegs) by plain.
  assert (Ht : trim (join_segments ([Path.CHAR_DOT; Path.CHAR_DOT] :: psegs))
               = join_segments ([Path.CHAR_DOT; Path.CHAR_DOT] :: psegs))
    by reflexivity.
  split; [exact Hb|]. split; [exact Hp|]. split; [reflexivity|].
  split; [reflexivity|].
  exact (@parent_path_drops_last_segment home workdir bsegs psegs Hb Hp Ht).
Defined.

(** X13 at the home directory of the test suite. *)
Lemma home_path_lands_under_home_witness :
  let hsegs := [lit "home"; lit "u"] in
  let psegs := [lit ".claude"; lit "rules.md"] in
  home = absolute_path hsegs false
  /\ Forall plain_segment hsegs /\ Forall plain_segment psegs
  /\ lit "~/" ++ join_segments psegs = lit "~/.claude/rules.md"
  /\ absolute_path (hsegs ++ psegs) false = lit "/home/u/.claude/rules.md"
  /\ normalizePath home workdir (lit "~/" ++ join_segments psegs) basePath
     = absolute_path (hsegs ++ psegs) false.
Proof.
  intros hsegs psegs.
  assert (Hh : home = absolute_path hsegs false) by reflexivity.
  assert (Hs : Forall plain_segment hsegs) by plain.
  assert (Hp : Forall plain_segment psegs) by plain.
  assert (Hne : psegs <> []) by discriminate.
  assert (Ht : trim (lit "~/" ++ join_segments psegs)
               = lit "~/" ++ join_segments psegs) by reflexivity.
  split; [exact Hh|]. split; [exact Hs|]. split; [exact Hp|].
  split; [reflexivity|]. split; [reflexivity|].
  exact (@home_path_lands_under_home home workdir hsegs psegs basePath
           Hh Hs Hp Hne Ht).
Defined.

End MoreInstances.


(* ================================================================== *)
(** ** The repository's test suite, replayed on the embedding *)
(* ================================================================== *)

Module Suite.

Import Sample.

Local Abbreviation normalizePath' := (normalizePath home workdir).
Local Abbreviation parseIncludeLine' := (parseIncludeLine home workdir).
Local Abbreviation parseIncludeDirectives' := (parseIncludeDirectives home workdir).

(** [describe("normalizePath")] *)
Example normalizePath_home_slash :
  normalizePath' (lit "~/.claude/rules.md") basePath
  = Path.join [home; lit ".claude/rules.md"].
Proof. reflexivity. Qed.

Example normalizePath_home_alone : normalizePath' (lit "~") basePath = home.
Proof. reflexivity. Qed.

Example normalizePath_absolute_kept :
  normalizePath' (lit "/etc/claude/global.md") basePath = lit "/etc/claude/global.md".
Proof. reflexivity. Qed.

Example normalizePath_relative_dot :
  normalizePath' (lit "./local-rules.md") basePath = lit "/project/docs/local-rules.md".
Proof. reflexivity. Qed.

Example normalizePath_relative_plain :
  normalizePath' (lit "team/conventions.md") basePath
  = lit "/project/docs/team/conventions.md".
Proof. reflexivity. Qed.

Example normalizePath_parent :
  normalizePath' (lit "../shared/rules.md") basePath = lit "/project/shared/rules.md".
Proof. reflexivity. Qed.

Example normalizePath_trims :
  normalizePath' (lit "  ./local-rules.md  ") basePath
  = lit "/project/docs/local-rules.md".
Proof. reflexivity. Qed.

Example normalizePath_two_parents :
  normalizePath' (lit "../../other-project/rules.md") basePath
  = lit "/other-project/rules.md".
Proof. reflexivity. Qed.

Example normalizePath_redundant_separators :
  normalizePath' (lit "/etc//claude///rules.md") basePath = lit "/etc/claude/rules.md".
Proof. reflexivity. Qed.

Example normalizePath_deeply_nested :
  normalizePath' (lit "./a/b/c/d/e/f/deeply-nested.md") basePath
  = lit "/project/docs/a/b/c/d/e/f/deeply-nested.md".
Proof. reflexivity. Qed.

(** [describe("parseIncludeLine")] *)
Example parseIncludeLine_simple :
  parseIncludeLine' (lit "@include ./local-rules.md") 1 basePath
  = Some (IncludeDirective.mk (lit "@include ./local-rules.md") 1
            (lit "./local-rules.md") (lit "/project/docs/local-rules.md")).
Proof. reflexivity. Qed.

Example parseIncludeLine_leading_spaces :
  parseIncludeLine' (lit "  @include ~/.claude/rules.md") 5 basePath
  = Some (IncludeDirective.mk (lit "  @include ~/.claude/rules.md") 5
            (lit "~/.claude/rules.md") (lit "/home/u/.claude/rules.md")).
Proof. reflexivity. Qed.

Example parseIncludeLine_tab :
  parseIncludeLine' (9%N :: lit "@include /absolute/path.md") 10 basePath
  = Some (IncludeDirective.mk (9%N :: lit "@include /absolute/path.md") 10
            (lit "/absolute/path.md") (lit "/absolute/path.md")).
Proof. reflexivity. Qed.

Example parseIncludeLine_not_directives :
  map (fun l => parseIncludeLine' l 1 basePath)
    [lit "# Just a comment"; lit "Some text"; lit ""; lit "@include";
     lit "@include "; lit "@include   "; lit "Some text @include ./file.md"]
  = [None; None; None; None; None; None; None].
Proof. reflexivity. Qed.

Example parseIncludeLine_spaces_in_path :
  option_map IncludeDirective.rawPath
    (parseIncludeLine' (lit "@include ./my file with spaces.md") 1 basePath)
  = Some (lit "./my file with spaces.md").
Proof. reflexivity. Qed.

(** The path [./日本語/ファイル.md] and a path with a pictograph outside the
    basic plane (two surrogate units), as code units. *)
Example parseIncludeLine_unicode :
  option_map IncludeDirective.rawPath
    (parseIncludeLine'
       (lit "@include ./" ++ [26085; 26412; 35486; 47; 12501; 12449; 12452; 12523]%N
          ++ lit ".md") 1 basePath)
  = Some (lit "./" ++ [26085; 26412; 35486; 47; 12501; 12449; 12452; 12523]%N
            ++ lit ".md").
Proof. reflexivity. Qed.

Example parseIncludeLine_surrogates :
  option_map IncludeDirective.rawPath
    (parseIncludeLine'
       (lit "@include ./docs/" ++ [55357; 56538]%N ++ lit "-notes.md") 1 basePath)
  = Some (lit "./docs/" ++ [55357; 56538]%N ++ lit "-notes.md").
Proof. reflexivity. Qed.

(** [describe("parseIncludeDirectives")] *)
Example parseIncludeDirectives_several :
  map (fun d => (IncludeDirective.lineNumber d, IncludeDirective.rawPath d))
    (ParseResult.directives
       (parseIncludeDirectives'
          (text [lit "# Project Rules"; lit "";
                 lit "@include ~/.claude/languages/go.md";
                 lit "@include ./team-conventions.md"; lit "";
                 lit "Some other content"; lit "";
                 lit "@include /shared/global-rules.md"; lit ""])
          basePath))
  = [(3, lit "~/.claude/languages/go.md"); (4, lit "./team-conventions.md");
     (8, lit "/shared/global-rules.md")].
Proof. reflexivity. Qed.

Example parseIncludeDirectives_invalid :
  let r := parseIncludeDirectives'
             (text [lit "@include ./valid.md"; lit "@include"; lit "@include";
                    lit "@include ./another-valid.md"; lit ""])
             basePath in
  List.length (ParseResult.directives r) = 2
  /\ map ParseError.lineNumber (ParseResult.errors r) = [2; 3].
Proof. split; reflexivity. Qed.

Example parseIncludeDirectives_empty :
  parseIncludeDirectives' (lit "") basePath = ParseResult.mk (lit "") [] [].
Proof. reflexivity. Qed.

Example parseIncludeDirectives_white_only :
  let r := parseIncludeDirectives'
             (text [lit "   "; lit ""; lit "  " ++ [9%N]; lit ""]) basePath in
  ParseResult.directives r = [] /\ ParseResult.errors r = [].
Proof. split; reflexivity. Qed.

(** [describe("isIncludeDirective")] and [describe("extractIncludePath")] *)
Example isIncludeDirective_cases :
  map isIncludeDirective
    [lit "@include ./file.md"; lit "  @include ~/.claude/rules.md";
     9%N :: lit "@include /absolute/path.md"; lit "# Comment"; lit "Some text";
     lit ""; lit "Text @include ./file.md"; lit "@include "]
  = [true; true; true; false; false; false; false; false].
Proof. reflexivity. Qed.

Example extractIncludePath_cases :
  map extractIncludePath
    [lit "@include ./file.md"; lit "  @include /absolute/path.md";
     lit "# Comment"; lit ""; lit "@include "; lit "@include   ";
     lit "@include   ./file.md  "]
  = [Some (lit "./file.md"); Some (lit "/absolute/path.md");
     None; None; None; None; Some (lit "./file.md")].
Proof. reflexivity. Qed.

(** Beyond the suite: a line that ends with a carriage return is neither a
    directive nor an error, because [.] does not match a line terminator;
    and a no-break space separates the keyword from the path like any
    other white space. *)
Example carriage_return_line :
  parseIncludeDirectives' (lit "@include ./a.md" ++ [13; 10]%N ++ lit "text") basePath
  = ParseResult.mk (lit "@include ./a.md" ++ [13; 10]%N ++ lit "text") [] [].
Proof. reflexivity. Qed.

Example no_break_space_separates :
  extractIncludePath (lit "@include" ++ [160%N] ++ lit "./a.md") = Some (lit "./a.md").
Proof. reflexivity. Qed.

End Suite.
